(** * RouteIf/mustache: the template compiler and the rendering engine

    A shallow embedding of [mustache.go] (the tokenizer/parser, the path
    resolver [lookup] and the renderer) and of [error.go].

    Go strings are byte strings: they are modelled as [list ascii].
    [reflect.Value] is modelled by the inductive [value]; what the Go
    runtime and the caller supply (strconv, host callables, the partial
    provider, fmt for composite values) is collected in the record [Host]. *)

From Stdlib Require Import Ascii String DecimalString.
From Stdlib Require Import List ZArith Lia Bool Arith PeanoNat.
Import ListNotations.

Set Warnings "-register-all".
Set Warnings "-automation".
Set Warnings "-default".

(** ** Byte strings and the functions of Go's [strings] package that the
    source calls *)

Definition bytes := list ascii.

Definition str (s : string) : bytes := list_ascii_of_string s.

Definition nl : ascii := "010"%char.
Definition tab : ascii := "009"%char.
Definition cr : ascii := "013"%char.
Definition sp : ascii := " "%char.

Module strings.

Fixpoint eqb (a b : bytes) : bool :=
  match a, b with
  | [], [] => true
  | c :: a', d :: b' => Ascii.eqb c d && eqb a' b'
  | _, _ => false
  end.

Fixpoint HasPrefix (s prefix : bytes) {struct prefix} : bool :=
  match prefix, s with
  | [], _ => true
  | c :: prefix', d :: s' => Ascii.eqb c d && HasPrefix s' prefix'
  | _ :: _, [] => false
  end.

Definition HasSuffix (s suffix : bytes) : bool :=
  HasPrefix (rev s) (rev suffix).

(** [strings.Index]: [None] stands for Go's [-1]. *)
Fixpoint Index (s substr : bytes) : option nat :=
  if HasPrefix s substr then Some 0
  else match s with
       | [] => None
       | _ :: s' => option_map S (Index s' substr)
       end.

Definition Contains (s substr : bytes) : bool :=
  match Index s substr with Some _ => true | None => false end.

Definition mem (c : ascii) (chars : bytes) : bool :=
  existsb (Ascii.eqb c) chars.

(** [strings.IndexAny] for a set [chars] of ASCII characters. *)
Fixpoint IndexAny (s chars : bytes) : option nat :=
  match s with
  | [] => None
  | c :: s' => if mem c chars then Some 0 else option_map S (IndexAny s' chars)
  end.

(** [strings.SplitN(s, sep, 2)] for a non-empty [sep]. *)
Definition SplitN2 (s sep : bytes) : list bytes :=
  match Index s sep with
  | Some i => [firstn i s; skipn (i + length sep) s]
  | None => [s]
  end.

(** [strings.Split(s, sep)] for a one-byte [sep]; the result is never
    empty. *)
Fixpoint Split1 (s : bytes) (sep : ascii) : list bytes :=
  match s with
  | [] => [[]]
  | c :: s' =>
      if Ascii.eqb c sep then [] :: Split1 s' sep
      else match Split1 s' sep with
           | part :: parts => (c :: part) :: parts
           | [] => [[c]]
           end
  end.

Definition isAsciiSpace (n : nat) : bool :=
  ((9 <=? n) && (n <=? 13)) || (n =? 32).

(** The third byte of the white-space runes U+2000 to U+200A, U+2028,
    U+2029 and U+202F, whose first bytes are E2 80. *)
Definition isE280Space (c : nat) : bool :=
  ((128 <=? c) && (c <=? 138)) || (c =? 168) || (c =? 169) || (c =? 175).

(** The bytes [a b c] encode a white-space rune of three bytes. *)
Definition isSpace3 (a b c : nat) : bool :=
  ((a =? 225) && (b =? 154) && (c =? 128))
  || ((a =? 226) && (b =? 128) && isE280Space c)
  || ((a =? 226) && (b =? 129) && (c =? 159))
  || ((a =? 227) && (b =? 128) && (c =? 128)).

(** The bytes [a b] encode U+0085 or U+00A0. *)
Definition isSpace2 (a b : nat) : bool :=
  (a =? 194) && ((b =? 133) || (b =? 160)).

(** Width in bytes of the white-space rune (unicode.IsSpace) that starts
    [s], or 0 when [s] does not start with one. *)
Definition spaceWidth (s : bytes) : nat :=
  match map nat_of_ascii s with
  | [] => 0
  | a :: rest =>
      if isAsciiSpace a then 1
      else match rest with
           | [] => 0
           | b :: rest' =>
               if isSpace2 a b then 2
               else match rest' with
                    | [] => 0
                    | c :: _ => if isSpace3 a b c then 3 else 0
                    end
           end
  end.

(** The same for the rune that ends [s], read on the reversed string. *)
Definition spaceWidthRev (r : bytes) : nat :=
  match map nat_of_ascii r with
  | [] => 0
  | c :: rest =>
      if isAsciiSpace c then 1
      else match rest with
           | [] => 0
           | b :: rest' =>
               if isSpace2 b c then 2
               else match rest' with
                    | [] => 0
                    | a :: _ => if isSpace3 a b c then 3 else 0
                    end
           end
  end.

Fixpoint trimWith (width : bytes -> nat) (fuel : nat) (s : bytes) : bytes :=
  match fuel with
  | 0 => s
  | S fuel' =>
      match width s with
      | 0 => s
      | w => trimWith width fuel' (skipn w s)
      end
  end.

Definition TrimLeftSpace (s : bytes) : bytes :=
  trimWith spaceWidth (length s) s.

Definition TrimRightSpace (s : bytes) : bytes :=
  rev (trimWith spaceWidthRev (length s) (rev s)).

Definition TrimSpace (s : bytes) : bytes :=
  TrimRightSpace (TrimLeftSpace s).

End strings.

(** Go's [s[lo:hi]]; [None] is the run-time panic "slice bounds out of
    range". *)
Definition slice (s : bytes) (lo hi : nat) : option bytes :=
  if (lo <=? hi) && (hi <=? length s) then Some (firstn (hi - lo) (skipn lo s))
  else None.

(** [s[i]] read with a default; every use is guarded by a bound check in
    the source. *)
Definition at_ (s : bytes) (i : nat) : ascii := nth i s zero.

(** ** error.go *)

Inductive ErrorCode :=
| ErrUnmatchedOpenTag
| ErrEmptyTag
| ErrSectionNoClosingTag
| ErrInterleavedClosingTag
| ErrInvalidMetaTag
| ErrUnmatchedCloseTag
| ErrInvalidVariable.

Record ParseError := mkParseError {
  Line : nat;
  Code : ErrorCode;
  Reason : bytes
}.

Definition newError (line : nat) (code : ErrorCode) : ParseError :=
  mkParseError line code [].

Definition newErrorWithReason (line : nat) (code : ErrorCode) (reason : bytes)
  : ParseError :=
  mkParseError line code reason.

(** Every error value that the engine creates or lets through. *)
Inductive error :=
| EParse (e : ParseError)
| MissingVariableError (Name : bytes)
| InvalidVariableError (Name : bytes)
| ENumError (fn num : bytes)            (* *strconv.NumError, from Atoi *)
| EMissingFunction (name : bytes)       (* "missing function %q" *)
| ELambdaSignature (name : bytes)       (* "lambda %q doesn't match ..." *)
| ELambda (name : bytes) (e : error)    (* "lambda %q: %w" *)
| EUnexpectedElement                    (* "unexpected element type %T" *)
| EHost (id : nat).                     (* an error made by host code *)

Definition IsMissingVariableError (err : error) : bool :=
  match err with MissingVariableError _ => true | _ => false end.

Definition IsInvalidVariableError (err : error) : bool :=
  match err with InvalidVariableError _ => true | _ => false end.

Definition newMissingVariableError (name : bytes) : error :=
  MissingVariableError name.

Definition newInvalidVariableError (name : bytes) : error :=
  InvalidVariableError name.

(** ** The value model: [reflect.Value]

    [VInvalid] is the zero [reflect.Value].  Integers of every signed width
    are [VInt], of every unsigned width [VUint]; a float is kept as its
    IEEE-754 bit pattern.  Slices, maps, functions, pointers and interfaces
    carry [None] when they are nil.  Maps are string-keyed, as the contexts
    of a template are.  [VNamed ms v] is a value [v] whose dynamic type has
    the exported method set [ms], in the order of [Type.Method]. *)

Definition fid := nat.

Record method := mkMethod {
  mName : bytes;
  mNumIn : nat;        (* receiver included, as [Method.Type.NumIn] *)
  mNumOut : nat;
  mFunc : fid
}.

Inductive value :=
| VInvalid
| VBool (b : bool)
| VInt (n : Z)
| VUint (n : Z)
| VFloat (bits : Z)
| VComplex (re im : Z)
| VString (s : bytes)
| VSlice (xs : option (list value))
| VArray (xs : list value)
| VMap (m : option (list (bytes * value)))
| VStruct (fields : list (bytes * bytes * value))   (* name, json tag, value *)
| VFunc (f : option fid) (numIn numOut : nat)
| VPtr (e : option value)
| VIface (e : option value)
| VNamed (ms : list method) (v : value).

Inductive Kind :=
| KInvalid | KBool | KInt | KUint | KFloat | KComplex | KString
| KSlice | KArray | KMap | KStruct | KFunc | KPtr | KInterface.

Fixpoint core (v : value) : value :=
  match v with
  | VNamed _ v' => core v'
  | _ => v
  end.

Definition kind (v : value) : Kind :=
  match core v with
  | VInvalid => KInvalid
  | VBool _ => KBool
  | VInt _ => KInt
  | VUint _ => KUint
  | VFloat _ => KFloat
  | VComplex _ _ => KComplex
  | VString _ => KString
  | VSlice _ => KSlice
  | VArray _ => KArray
  | VMap _ => KMap
  | VStruct _ => KStruct
  | VFunc _ _ _ => KFunc
  | VPtr _ => KPtr
  | VIface _ => KInterface
  | VNamed _ _ => KInvalid
  end.

Definition IsValid (v : value) : bool :=
  match core v with VInvalid => false | _ => true end.

Definition methods (v : value) : list method :=
  match v with VNamed ms _ => ms | _ => [] end.

(** [v.Elem()] of a pointer or an interface: the zero Value when nil. *)
Definition Elem (v : value) : value :=
  match core v with
  | VPtr (Some e) | VIface (Some e) => e
  | _ => VInvalid
  end.

(** [v.Len()] of a slice or an array. *)
Definition Len (v : value) : nat :=
  match core v with
  | VSlice (Some xs) | VArray xs => length xs
  | _ => 0
  end.

(** [v.Index(i)] of a slice or an array; [None] is the panic
    "reflect: slice index out of range". *)
Definition Index (v : value) (i : Z) : option value :=
  match core v with
  | VSlice (Some xs) | VArray xs =>
      if (0 <=? i)%Z && (i <? Z.of_nat (length xs))%Z
      then nth_error xs (Z.to_nat i) else None
  | _ => None
  end.

Fixpoint assoc (k : bytes) (kvs : list (bytes * value)) : option value :=
  match kvs with
  | [] => None
  | (k', x) :: kvs' => if strings.eqb k k' then Some x else assoc k kvs'
  end.

(** [v.MapIndex(key)] of a string-keyed map: [Some VInvalid] when the key is
    absent or the map nil, [None] (a panic) when the key is not a string. *)
Definition MapIndex (v key : value) : option value :=
  match core v, core key with
  | VMap m, VString k =>
      match m with
      | Some kvs => match assoc k kvs with Some x => Some x | None => Some VInvalid end
      | None => Some VInvalid
      end
  | _, _ => None
  end.

(** [v.FieldByName(name)]. *)
Fixpoint FieldByName (fields : list (bytes * bytes * value)) (name : bytes)
  : value :=
  match fields with
  | [] => VInvalid
  | (n, _, x) :: fields' =>
      if strings.eqb n name then x else FieldByName fields' name
  end.

(** [v.FieldByNameFunc(match)]: the field when exactly one matches. *)
Definition FieldByNameFunc (fields : list (bytes * bytes * value))
  (matches : bytes * bytes * value -> bool) : value :=
  match filter matches fields with
  | [(_, _, x)] => x
  | _ => VInvalid
  end.

(** The closure given to [FieldByNameFunc] in [lookup]. *)
Definition jsonTagIs (name : bytes) (field : bytes * bytes * value) : bool :=
  let '(_, jsonTag, _) := field in
  if strings.eqb jsonTag [] || strings.eqb jsonTag (str "-") then false
  else strings.eqb (hd [] (strings.Split1 jsonTag ","%char)) name.

(** [v.IsZero()]. *)
Fixpoint IsZero (v : value) : bool :=
  match v with
  | VInvalid => true
  | VBool b => negb b
  | VInt n | VUint n => (n =? 0)%Z
  | VFloat bits => (bits =? 0)%Z || (bits =? 2 ^ 63)%Z
  | VComplex re im =>
      ((re =? 0)%Z || (re =? 2 ^ 63)%Z) && ((im =? 0)%Z || (im =? 2 ^ 63)%Z)
  | VString s => match s with [] => true | _ => false end
  | VSlice xs => match xs with None => true | Some _ => false end
  | VArray xs => forallb IsZero xs
  | VMap m => match m with None => true | Some _ => false end
  | VStruct fields => forallb (fun f => IsZero (snd f)) fields
  | VFunc f _ _ => match f with None => true | Some _ => false end
  | VPtr e | VIface e => match e with None => true | Some _ => false end
  | VNamed _ v' => IsZero v'
  end.

(** [indirect] and [unwrap] are the same loop in the source. *)
Fixpoint indirect (v : value) : value :=
  match v with
  | VPtr e | VIface e =>
      match e with Some v' => indirect v' | None => VInvalid end
  | VNamed _ v' =>
      match core v' with
      | VPtr _ | VIface _ => indirect v'
      | _ => v
      end
  | _ => v
  end.

Definition unwrap (v : value) : value := indirect v.

(** [v.Interface() == nil]: only a nil interface value. *)
Definition InterfaceIsNil (v : value) : bool :=
  match core v with VIface None => true | _ => false end.

Definition isEmpty (v : value) : bool :=
  if negb (IsValid v) || InterfaceIsNil v then true
  else
    let valueInd := indirect v in
    if negb (IsValid valueInd) then true
    else match kind valueInd with
         | KArray | KSlice => Len valueInd =? 0
         | KString =>
             match core valueInd with
             | VString s => length (strings.TrimSpace s) =? 0
             | _ => true
             end
         | _ => IsZero valueInd
         end.

(** ** The element tree and the template *)

Definition PartialProvider := nat.

Inductive element :=
| textElement (text : bytes)
| varElement (name : bytes) (raw : bool)
| sectionElement (name : bytes) (inverted : bool) (startline : nat)
    (elems : list element)
| partialElement (name indent : bytes) (prov : PartialProvider).

Definition EscapeFunc := bytes -> bytes.
Definition FormatterFunc := value -> bytes * option error.

Record Template := mkTemplate {
  data : bytes;
  otag : bytes;
  ctag : bytes;
  p : nat;
  curline : nat;
  elems : list element;
  forceRaw : bool;
  partial : PartialProvider;
  escape : EscapeFunc;
  formatter : option FormatterFunc
}.

Definition with_p (tmpl : Template) (p' : nat) : Template :=
  mkTemplate (data tmpl) (otag tmpl) (ctag tmpl) p' (curline tmpl)
    (elems tmpl) (forceRaw tmpl) (partial tmpl) (escape tmpl) (formatter tmpl).

Definition with_curline (tmpl : Template) (l : nat) : Template :=
  mkTemplate (data tmpl) (otag tmpl) (ctag tmpl) (p tmpl) l
    (elems tmpl) (forceRaw tmpl) (partial tmpl) (escape tmpl) (formatter tmpl).

Definition with_tags (tmpl : Template) (o c : bytes) : Template :=
  mkTemplate (data tmpl) o c (p tmpl) (curline tmpl)
    (elems tmpl) (forceRaw tmpl) (partial tmpl) (escape tmpl) (formatter tmpl).

Definition with_elems (tmpl : Template) (es : list element) : Template :=
  mkTemplate (data tmpl) (otag tmpl) (ctag tmpl) (p tmpl) (curline tmpl)
    es (forceRaw tmpl) (partial tmpl) (escape tmpl) (formatter tmpl).

Definition with_formatter (tmpl : Template) (f : option FormatterFunc)
  : Template :=
  mkTemplate (data tmpl) (otag tmpl) (ctag tmpl) (p tmpl) (curline tmpl)
    (elems tmpl) (forceRaw tmpl) (partial tmpl) (escape tmpl) f.

(** ** The tokenizer *)

(** What a step of the compiler can end in: a value, a [ParseError], a Go
    run-time panic, or the exhaustion of the fuel that bounds the loops of
    this model. *)
Inductive presult (A : Type) :=
| POk (a : A)
| PErr (e : ParseError)
| PPanic
| PFuel.

Arguments POk {A} a.
Arguments PErr {A} e.
Arguments PPanic {A}.
Arguments PFuel {A}.

(** The loop of [readString]: [rest] is [data[i:]].  The result is the end
    [e] of the first match of [s] together with the newlines crossed, or
    [None] for [io.EOF]. *)
Fixpoint readString_loop (s rest : bytes) (i newlines : nat)
  : option (nat * nat) :=
  match rest with
  | [] => None
  | c :: rest' =>
      if length rest <? length s then None
      else
        let newlines := if Ascii.eqb c nl then S newlines else newlines in
        if negb (Ascii.eqb c (at_ s 0)) then
          readString_loop s rest' (S i) newlines
        else if strings.HasPrefix rest' (tl s) then
          Some (i + length s, newlines)
        else readString_loop s rest' (S i) newlines
  end.

Inductive readStringResult :=
| RSFound (tmpl : Template) (text : bytes)
| RSEOF (text : bytes)
| RSPanic.

(** [s[0]] panics for an empty [s]. *)
Definition readString (tmpl : Template) (s : bytes) : readStringResult :=
  match s with
  | [] => RSPanic
  | _ :: _ =>
      match readString_loop s (skipn (p tmpl) (data tmpl)) (p tmpl) 0 with
      | None => RSEOF (skipn (p tmpl) (data tmpl))
      | Some (e, newlines) =>
          let text := firstn (e - p tmpl) (skipn (p tmpl) (data tmpl)) in
          RSFound (with_curline (with_p tmpl e) (curline tmpl + newlines)) text
      end
  end.

Record textReadingResult := mkTextReadingResult {
  text : bytes;
  padding : bytes;
  mayStandalone : bool
}.

Definition isBlank (c : ascii) : bool := Ascii.eqb c sp || Ascii.eqb c tab.

(** The backward loop of [readText]: from [i] down to [pPrev] over spaces
    and tabs. *)
Fixpoint scanBack (d : bytes) (pPrev i : nat) : nat :=
  match i with
  | 0 => 0
  | S i' =>
      if i <=? pPrev then i
      else if negb (isBlank (at_ d i')) then i
      else scanBack d pPrev i'
  end.

Definition sub (d : bytes) (lo hi : nat) : bytes :=
  firstn (hi - lo) (skipn lo d).

Inductive readTextResult :=
| RTText (tmpl : Template) (r : textReadingResult)
| RTEOF (r : textReadingResult)
| RTPanic.

Definition readText (tmpl : Template) : readTextResult :=
  let pPrev := p tmpl in
  match readString tmpl (otag tmpl) with
  | RSPanic => RTPanic
  | RSEOF text => RTEOF (mkTextReadingResult text [] false)
  | RSFound tmpl text =>
      let d := data tmpl in
      let i := scanBack d pPrev (p tmpl - length (otag tmpl)) in
      let mayStandalone := (i =? 0) || Ascii.eqb (at_ d (i - 1)) nl in
      if mayStandalone then
        RTText tmpl
          (mkTextReadingResult (sub d pPrev i)
             (sub d i (p tmpl - length (otag tmpl))) true)
      else
        RTText tmpl
          (mkTextReadingResult (sub d pPrev (p tmpl - length (otag tmpl)))
             [] false)
  end.

Record tagReadingResult := mkTagReadingResult {
  tag : bytes;
  standalone : bool
}.

Definition SkipWhitespaceTagTypes : bytes := str "#^/<>=!".

(** The forward loop of [readTag]: the first index from [i] on whose byte is
    neither a space nor a tab, else the initial [eow]. *)
Fixpoint findEow (rest : bytes) (i eow : nat) : nat :=
  match rest with
  | [] => eow
  | c :: rest' => if negb (isBlank c) then i else findEow rest' (S i) eow
  end.

(** The first statement of [readTag]: the tag up to its close delimiter. *)
Definition readClose (tmpl : Template) : readStringResult :=
  if (p tmpl <? length (data tmpl)) && Ascii.eqb (at_ (data tmpl) (p tmpl)) "{"
  then readString tmpl ("}"%char :: ctag tmpl)
  else readString tmpl (ctag tmpl).

Definition readTag (tmpl : Template) (mayStandalone : bool)
  : presult (Template * tagReadingResult) :=
  match readClose tmpl with
  | RSPanic => PPanic
  | RSEOF _ => PErr (newError (curline tmpl) ErrUnmatchedOpenTag)
  | RSFound tmpl text =>
      let text := firstn (length text - length (ctag tmpl)) text in
      let tag := strings.TrimSpace text in
      if length tag =? 0 then PErr (newError (curline tmpl) ErrEmptyTag)
      else
        let d := data tmpl in
        let eow := findEow (skipn (p tmpl) d) (p tmpl) (p tmpl) in
        if mayStandalone then
          if negb (strings.Contains SkipWhitespaceTagTypes (firstn 1 tag)) then
            POk (tmpl, mkTagReadingResult tag false)
          else if eow =? length d then
            POk (with_p tmpl eow, mkTagReadingResult tag true)
          else if (eow <? length d) && Ascii.eqb (at_ d eow) nl then
            POk (with_curline (with_p tmpl (eow + 1)) (S (curline tmpl)),
                 mkTagReadingResult tag true)
          else if (eow + 1 <? length d) && Ascii.eqb (at_ d eow) cr
                  && Ascii.eqb (at_ d (eow + 1)) nl then
            POk (with_curline (with_p tmpl (eow + 2)) (S (curline tmpl)),
                 mkTagReadingResult tag true)
          else POk (tmpl, mkTagReadingResult tag false)
        else POk (tmpl, mkTagReadingResult tag true)
  end.

(** ** The tree builder: [parseSection] and [parse] *)

Definition bindP {A B : Type} (r : presult A) (k : A -> presult B)
  : presult B :=
  match r with
  | POk a => k a
  | PErr e => PErr e
  | PPanic => PPanic
  | PFuel => PFuel
  end.

Notation "'let*' x ':=' r 'in' k" := (bindP r (fun x => k))
  (at level 200, x pattern, r at level 100, k at level 200).

Definition ofSlice (o : option bytes) : presult bytes :=
  match o with Some s => POk s | None => PPanic end.

Definition parsePartial (tmpl : Template) (name indent : bytes) : element :=
  partialElement name indent (partial tmpl).

Definition lastByte (tag : bytes) : ascii := at_ tag (length tag - 1).

(** The body of the [case '=':] arm, the same in both loops: the new
    template state, or the invalid-meta-tag error. *)
Definition metaTag (tmpl : Template) (tag : bytes) : presult Template :=
  if negb (Ascii.eqb (lastByte tag) "=") then
    PErr (newError (curline tmpl) ErrInvalidMetaTag)
  else
    let* inner := ofSlice (slice tag 1 (length tag - 1)) in
    let tag := strings.TrimSpace inner in
    match strings.SplitN2 tag [sp] with
    | [o; c] => POk (with_tags tmpl o c)
    | _ => POk tmpl
    end.

(** The body of the [case '{':] arm: the raw variable, if the tag ends with
    a closing brace. *)
Definition rawTag (tag : bytes) : presult (list element) :=
  if Ascii.eqb (lastByte tag) "}" then
    let* inner := ofSlice (slice tag 1 (length tag - 1)) in
    POk [varElement (strings.TrimSpace inner) true]
  else POk [].

(** [c] is one of the characters of [d]: a [case] of the switch on
    [tag[0]]. *)
Definition oneOf (c : ascii) (d : string) : bool :=
  strings.mem c (str d).

Definition append (tmpl : Template) (es : list element) : Template :=
  with_elems tmpl (elems tmpl ++ es).

Fixpoint parseSection (fuel : nat) (tmpl : Template) (name : bytes)
  (startline : nat) (selems : list element)
  : presult (Template * list element) :=
  match fuel with
  | 0 => PFuel
  | S fuel =>
      match readText tmpl with
      | RTPanic => PPanic
      | RTEOF _ =>
          PErr (newErrorWithReason startline ErrSectionNoClosingTag name)
      | RTText tmpl textResult =>
          let selems := selems ++ [textElement (text textResult)] in
          let* (tmpl, tagResult) := readTag tmpl (mayStandalone textResult) in
          let selems :=
            if negb (standalone tagResult)
            then selems ++ [textElement (padding textResult)] else selems in
          let tag := tag tagResult in
          match tag with
          | [] => PPanic
          | c :: rest =>
              if oneOf c "!" then parseSection fuel tmpl name startline selems
              else if oneOf c "#^" then
                let sname := strings.TrimSpace rest in
                let line := curline tmpl in
                let* (tmpl, es) := parseSection fuel tmpl sname line [] in
                parseSection fuel tmpl name startline
                  (selems ++ [sectionElement sname (oneOf c "^") line es])
              else if oneOf c "/" then
                let cname := strings.TrimSpace rest in
                if negb (strings.eqb cname name) then
                  PErr (newErrorWithReason (curline tmpl)
                          ErrInterleavedClosingTag cname)
                else POk (tmpl, selems)
              else if oneOf c ">" then
                let pname := strings.TrimSpace rest in
                parseSection fuel tmpl name startline
                  (selems ++ [parsePartial tmpl pname (padding textResult)])
              else if oneOf c "=" then
                let* tmpl := metaTag tmpl tag in
                parseSection fuel tmpl name startline selems
              else if oneOf c "{" then
                let* vs := rawTag tag in
                parseSection fuel tmpl name startline (selems ++ vs)
              else if oneOf c "&" then
                parseSection fuel tmpl name startline
                  (selems ++ [varElement (strings.TrimSpace rest) true])
              else
                parseSection fuel tmpl name startline
                  (selems ++ [varElement tag (forceRaw tmpl)])
          end
      end
  end.

Fixpoint parse (fuel : nat) (tmpl : Template) : presult Template :=
  match fuel with
  | 0 => PFuel
  | S fuel =>
      match readText tmpl with
      | RTPanic => PPanic
      | RTEOF textResult =>
          POk (append tmpl [textElement (text textResult)])
      | RTText tmpl textResult =>
          let tmpl := append tmpl [textElement (text textResult)] in
          let* (tmpl, tagResult) := readTag tmpl (mayStandalone textResult) in
          let tmpl :=
            if negb (standalone tagResult)
            then append tmpl [textElement (padding textResult)] else tmpl in
          let tag := tag tagResult in
          match tag with
          | [] => PPanic
          | c :: rest =>
              if oneOf c "!" then parse fuel tmpl
              else if oneOf c "#^" then
                let sname := strings.TrimSpace rest in
                let line := curline tmpl in
                let* (tmpl, es) := parseSection fuel tmpl sname line [] in
                parse fuel
                  (append tmpl [sectionElement sname (oneOf c "^") line es])
              else if oneOf c "/" then
                PErr (newError (curline tmpl) ErrUnmatchedCloseTag)
              else if oneOf c ">" then
                let pname := strings.TrimSpace rest in
                parse fuel
                  (append tmpl [parsePartial tmpl pname (padding textResult)])
              else if oneOf c "=" then
                let* tmpl := metaTag tmpl tag in
                parse fuel tmpl
              else if oneOf c "{" then
                let* vs := rawTag tag in
                parse fuel (append tmpl vs)
              else if oneOf c "&" then
                parse fuel
                  (append tmpl [varElement (strings.TrimSpace rest) true])
              else
                parse fuel (append tmpl [varElement tag (forceRaw tmpl)])
          end
      end
  end.

(** Every iteration of either loop consumes at least one byte of [data],
    so this fuel is never exhausted. *)
Definition parseFuel (d : bytes) : nat := S (length d).

Definition HTMLEscapeChar (c : ascii) : bytes :=
  if Ascii.eqb c (ascii_of_nat 34) then str "&#34;"
  else if Ascii.eqb c "'" then str "&#39;"
  else if Ascii.eqb c "&" then str "&amp;"
  else if Ascii.eqb c "<" then str "&lt;"
  else if Ascii.eqb c ">" then str "&gt;"
  else if Ascii.eqb c zero then map ascii_of_nat [239; 191; 189]
  else [c].

(** [template.HTMLEscapeString]. *)
Definition HTMLEscapeString (s : bytes) : bytes :=
  flat_map HTMLEscapeChar s.

Definition ParseStringPartialsRaw (d : bytes) (partials : PartialProvider)
  (forceRaw : bool) : presult Template :=
  parse (parseFuel d)
    (mkTemplate d (str "{{") (str "}}") 0 1 [] forceRaw partials
       HTMLEscapeString None).

Definition ParseStringPartialsWithFormatter (d : bytes)
  (partials : PartialProvider) (formatter : FormatterFunc) : presult Template :=
  parse (parseFuel d)
    (mkTemplate d (str "{{") (str "}}") 0 1 [] true partials
       HTMLEscapeString (Some formatter)).

(** ** The host: what the Go runtime and the caller supply

    [strconv] decides which names are literals; its parsers answer [None]
    when Go's [err != nil].  [Call] runs a host function or bound method on
    its arguments.  [Lambda] runs a section lambda on the section text and
    the render callback.  [getPartials] is the function of the same name of
    this package (partials.go), [fmtOther] is [fmt.Sprint] on the values
    that [Sprint] below does not format itself. *)

Inductive callResult :=
| CallPanic
| CallRet (ret0 : value) (err : option error).

(** How a render ends, beside the bytes it wrote. *)
Inductive status :=
| ROk
| RErr (e : error)
| RPanic
| RFuel.

Record Host := mkHost {
  ParseInt : bytes -> option Z;          (* strconv.ParseInt(s, 0, 64) *)
  ParseUint : bytes -> option Z;         (* strconv.ParseUint(s, 0, 64) *)
  ParseFloat : bytes -> option Z;        (* strconv.ParseFloat(s, 64) *)
  ParseBool : bytes -> option bool;      (* strconv.ParseBool(s) *)
  ParseComplex : bytes -> option (Z * Z);(* strconv.ParseComplex(s, 64) *)
  Atoi : bytes -> option Z;              (* strconv.Atoi(s) *)
  floatToInt : Z -> Z;                   (* the conversion int(f) *)
  Call : fid -> list value -> callResult;
  Lambda : fid -> bytes -> (bytes -> bytes * status) -> bytes * status;
  getPartials : PartialProvider -> bytes -> bytes -> Template + error;
  defaultPartials : PartialProvider;     (* the FileProvider of ParseStringRaw *)
  fmtOther : value -> bytes
}.

(** ** The path resolver *)

Inductive lresult :=
| LRet (v : value) (err : option error)
| LFuel.

(** The body of [lookup] before its deferred [recover] has run. *)
Inductive bresult :=
| BRet (v : value) (err : option error)
| BPanic
| BFuel.

(** One turn of the loop [for v.IsValid()]. *)
Inductive probe :=
| PrReturn (v : value) (err : option error)
| PrPanic
| PrElem           (* v = av.Elem(), next turn *)
| PrNext.          (* continue Outer *)

Definition startsWithNumber (s : bytes) : bool :=
  match s with
  | c :: _ => (nat_of_ascii "0" <=? nat_of_ascii c)
              && (nat_of_ascii c <=? nat_of_ascii "9")
  | [] => false
  end.

(** The values that [v] takes in the loop [for v.IsValid()] of [lookup] as
    long as its arms say [v = av.Elem()]. *)
Fixpoint derefs (v : value) : list value :=
  match v with
  | VPtr (Some e) | VIface (Some e) => v :: derefs e
  | VNamed _ v' => v :: tl (derefs v')
  | _ => [v]
  end.

(** The same for [lookupFunction], whose [reflect.Map] arm goes on with the
    entry of the map. *)
Fixpoint derefsF (s : bytes) (v : value) : list value :=
  match v with
  | VPtr (Some e) | VIface (Some e) => v :: derefsF s e
  | VMap (Some kvs) =>
      v :: (fix find (kvs : list (bytes * value)) : list value :=
              match kvs with
              | [] => []
              | (k, x) :: kvs' =>
                  if strings.eqb s k then derefsF s x else find kvs'
              end) kvs
  | VNamed _ v' => v :: tl (derefsF s v')
  | _ => [v]
  end.

Section Resolver.

Variable H : Host.

(** The loop over the methods of [v] at the head of each turn. *)
Fixpoint scanMethods (name : bytes) (v : value) (ms : list method)
  : option probe :=
  match ms with
  | [] => None
  | m :: ms' =>
      if strings.eqb (mName m) (str "Lookup") && (mNumIn m =? 2)
         && (mNumOut m =? 2) then
        Some match Call H (mFunc m) [VString name] with
             | CallPanic => PrPanic
             | CallRet _ (Some err) => PrReturn v (Some err)
             | CallRet ret0 None => PrReturn ret0 None
             end
      else if strings.eqb (mName m) name && (mNumIn m =? 1) then
        Some match Call H (mFunc m) [] with
             | CallPanic => PrPanic
             | CallRet ret0 _ => PrReturn ret0 None
             end
      else scanMethods name v ms'
  end.

Definition probe1 (name : bytes) (v : value) : probe :=
  match scanMethods name v (methods v) with
  | Some r => r
  | None =>
      if strings.eqb name (str ".") then PrReturn v None
      else
        match core v with
        | VPtr _ | VIface _ => PrElem
        | VStruct fields =>
            let ret := FieldByName fields name in
            if IsValid ret then PrReturn ret None
            else
              let ret := FieldByNameFunc fields (jsonTagIs name) in
              if IsValid ret then PrReturn ret None else PrNext
        | VMap _ =>
            match MapIndex v (VString name) with
            | None => PrPanic
            | Some ret => if IsValid ret then PrReturn ret None else PrNext
            end
        | VSlice _ =>
            if strings.eqb name (str "length") || strings.eqb name (str "len")
            then PrReturn (VInt (Z.of_nat (Len v))) None
            else
              match Atoi H name with
              | None => PrReturn v (Some (ENumError (str "Atoi") name))
              | Some index =>
                  match Index v index with
                  | None => PrPanic
                  | Some ret =>
                      if IsValid ret then PrReturn ret None else PrNext
                  end
              end
        | _ => PrNext
        end
  end.

Fixpoint lookupSteps (name : bytes) (vs : list value) : probe :=
  match vs with
  | [] => PrNext
  | v :: vs' =>
      if negb (IsValid v) then PrNext
      else match probe1 name v with
           | PrElem => lookupSteps name vs'
           | r => r
           end
  end.

(** The loop [Outer] of [lookup] over [localChain]. *)
Fixpoint lookupChain (name : bytes) (localChain : list value) : bresult :=
  match localChain with
  | [] => BRet VInvalid (Some (newMissingVariableError name))
  | ctx :: localChain' =>
      match lookupSteps name (derefs ctx) with
      | PrReturn v err => BRet v err
      | PrPanic => BPanic
      | PrElem | PrNext => lookupChain name localChain'
      end
  end.

(** One turn of the loop [for v.IsValid()] of [lookupFunction]: the
    function found, [None] to go on with the next value of [v], or
    [Some None] for [continue Outer]. *)
Definition probeF (s : bytes) (numInputs : nat) (v : value)
  : option (option value) :=
  match find (fun m => strings.eqb (mName m) s && (mNumIn m =? numInputs + 1)
                       && ((mNumOut m =? 1) || (mNumOut m =? 2))) (methods v) with
  | Some m => Some (Some (VFunc (Some (mFunc m)) (mNumIn m - 1) (mNumOut m)))
  | None =>
      match core v with
      | VFunc _ numIn numOut =>
          if (numIn =? numInputs) && ((numOut =? 1) || (numOut =? 2))
          then Some (Some v) else Some None
      | VPtr _ | VIface _ | VMap _ => None
      | _ => Some None
      end
  end.

Fixpoint lookupFunctionSteps (s : bytes) (numInputs : nat) (vs : list value)
  : option value :=
  match vs with
  | [] => None
  | v :: vs' =>
      if negb (IsValid v) then None
      else match probeF s numInputs v with
           | Some r => r
           | None => lookupFunctionSteps s numInputs vs'
           end
  end.

Fixpoint lookupFunctionChain (s : bytes) (numInputs : nat)
  (localChain : list value) : value * option error :=
  match localChain with
  | [] => (VInvalid, Some (EMissingFunction s))
  | ctx :: localChain' =>
      match lookupFunctionSteps s numInputs (derefsF s ctx) with
      | Some v => (v, None)
      | None => lookupFunctionChain s numInputs localChain'
      end
  end.

Definition lookupFunction (contextChain : list value) (left : option value)
  (s : bytes) (numInputs : nat) : value * option error :=
  let localChain :=
    match left with Some l => [l] | None => contextChain end in
  lookupFunctionChain s numInputs localChain.

End Resolver.

Section Lookup.

Variable H : Host.

(** [indexValue] as an [int] in the slice arm: the integer, [Some None]
    when [CanConvert] says no, [None] for a panic (the zero Value has no
    type). *)
Definition toInt (indexValue : value) : option (option Z) :=
  match core indexValue with
  | VInvalid => None
  | VInt n => Some (Some n)
  | VUint n => Some (Some (if (n <? 2 ^ 63)%Z then n else (n - 2 ^ 64)%Z))
  | VFloat f => Some (Some (floatToInt H f))
  | _ => Some None
  end.

Definition isStringLiteral (name : bytes) : bool :=
  let dq := [ascii_of_nat 34] in
  (strings.HasPrefix name dq && strings.HasSuffix name dq)
  || (strings.HasPrefix name (str "'") && strings.HasSuffix name (str "'")).

(** The literal arms of the chain of [else if]s, after the string
    literal. *)
Definition numberLiteral (name : bytes) : option value :=
  match ParseInt H name with
  | Some val => Some (VInt val)
  | None =>
  match ParseUint H name with
  | Some val => Some (VUint val)
  | None =>
  match ParseFloat H name with
  | Some val => Some (VFloat val)
  | None =>
  match ParseBool H name with
  | Some val => Some (VBool val)
  | None =>
  match ParseComplex H name with
  | Some (re, im) => Some (VComplex re im)
  | None => None
  end end end end end.

Definition stripDot (rest : bytes) : bytes :=
  match rest with
  | "."%char :: rest' => rest'
  | _ => rest
  end.

Definition invalidVariable (name : bytes) : option error :=
  Some (EParse (newErrorWithReason 0 ErrInvalidVariable name)).

Section Body.

(** The recursive calls of [lookup]. *)
Variable rec : list value -> option value -> bytes -> lresult.

(** The loop that resolves the arguments of a call. *)
Fixpoint lookupArgs (contextChain : list value) (v : value)
  (args : list bytes) (acc : list value) : bresult + list value :=
  match args with
  | [] => inr acc
  | arg :: args' =>
      let arg := strings.TrimSpace arg in
      match rec contextChain None arg with
      | LFuel => inl BFuel
      | LRet _ (Some err) => inl (BRet v (Some err))
      | LRet val None => lookupArgs contextChain v args' (acc ++ [val])
      end
  end.

Definition ofL (r : lresult) : bresult :=
  match r with
  | LRet v err => BRet v err
  | LFuel => BFuel
  end.

Definition lookupDot (contextChain : list value) (left : option value)
  (name : bytes) : bresult :=
  match strings.SplitN2 name (str ".") with
  | [part0; part1] =>
      match rec contextChain left part0 with
      | LFuel => BFuel
      | LRet v (Some err) => BRet v (Some err)
      | LRet v None =>
          if startsWithNumber part1 then BRet v (invalidVariable name)
          else ofL (rec contextChain (Some v) part1)
      end
  | _ => BPanic
  end.

Definition lookupIndex (contextChain : list value) (left : option value)
  (name : bytes) : bresult :=
  match strings.Index name (str "["), strings.Index name (str "]") with
  | Some openIndex, Some closeIndex =>
      let arrayVariable := if 0 <? openIndex then firstn openIndex name else [] in
      match slice name (openIndex + 1) closeIndex with
      | None => BPanic
      | Some indexVariable =>
          let rest :=
            if closeIndex + 1 <? length name
            then skipn (closeIndex + 1) name else [] in
          let rest := stripDot rest in
          let array :=
            match arrayVariable with
            | _ :: _ => ofL (rec contextChain left arrayVariable)
            | [] => match left with
                    | Some l => BRet l None
                    | None => BPanic
                    end
            end in
          match array with
          | BRet v None =>
              let v := unwrap v in
              match rec contextChain None indexVariable with
              | LFuel => BFuel
              | LRet _ (Some err) => BRet v (Some err)
              | LRet indexValue None =>
                  let indexValue := unwrap indexValue in
                  let indexed :=
                    match kind v with
                    | KMap =>
                        match MapIndex v indexValue with
                        | None => BPanic
                        | Some v =>
                            if negb (IsValid v)
                            then BRet v (invalidVariable name)
                            else BRet v None
                        end
                    | KArray | KSlice =>
                        match toInt indexValue with
                        | None => BPanic
                        | Some None => BRet v (invalidVariable name)
                        | Some (Some i) =>
                            match Index v i with
                            | None => BPanic
                            | Some v => BRet v None
                            end
                        end
                    | _ => BRet v (invalidVariable name)
                    end in
                  match indexed with
                  | BRet v None =>
                      match rest with
                      | [] => BRet v None
                      | _ :: _ => ofL (rec contextChain (Some v) rest)
                      end
                  | r => r
                  end
              end
          | r => r
          end
      end
  | _, _ => BPanic
  end.

Definition lookupCall (contextChain : list value) (left : option value)
  (name : bytes) : bresult :=
  match strings.Index name (str "("), strings.Index name (str ")") with
  | Some openIndex, Some closeIndex =>
      let funcVariable := firstn openIndex name in
      match slice name (openIndex + 1) closeIndex with
      | None => BPanic
      | Some argsVariable =>
          let rest := stripDot (skipn (closeIndex + 1) name) in
          let args :=
            match argsVariable with
            | [] => []
            | _ :: _ => strings.Split1 argsVariable ","%char
            end in
          match lookupFunction contextChain left funcVariable (length args) with
          | (v, Some err) => BRet v (Some err)
          | (v, None) =>
              let v := unwrap v in
              match core v with
              | VFunc f _ numOut =>
                  match lookupArgs contextChain v args [] with
                  | inl r => r
                  | inr ins =>
                      match f with
                      | None => BPanic
                      | Some f =>
                          match Call H f ins with
                          | CallPanic => BPanic
                          | CallRet ret0 err =>
                              match (if 1 <? numOut then err else None) with
                              | Some e => BRet v (Some e)
                              | None =>
                                  match rest with
                                  | [] => BRet ret0 None
                                  | _ :: _ =>
                                      ofL (rec contextChain (Some ret0) rest)
                                  end
                              end
                          end
                      end
                  end
              | _ => BRet v (invalidVariable name)
              end
          end
      end
  | _, _ => BPanic
  end.

Definition lookupBody (contextChain : list value) (left : option value)
  (name : bytes) : bresult :=
  let index := strings.IndexAny name (str ".[(") in
  let start := match index with Some i => [at_ name i] | None => [] end in
  if strings.eqb start (str ".") && negb (strings.eqb name (str "."))
     && strings.Contains name (str ".") then
    lookupDot contextChain left name
  else if strings.eqb start (str "[") && strings.Contains name (str "[")
          && strings.Contains name (str "]") then
    lookupIndex contextChain left name
  else if strings.eqb start (str "(") && strings.Contains name (str "(")
          && strings.Contains name (str ")") then
    lookupCall contextChain left name
  else if isStringLiteral name then
    match slice name 1 (length name - 1) with
    | Some s => BRet (VString s) None
    | None => BPanic
    end
  else
    match numberLiteral name with
    | Some val => BRet val None
    | None =>
        let localChain :=
          match left with Some l => [l] | None => contextChain end in
        lookupChain H name localChain
    end.

End Body.

(** The deferred function of [lookup]: a panic is recovered, reported on
    standard output, and the results keep their zero values. *)
Definition recovered (r : bresult) : lresult :=
  match r with
  | BRet v err => LRet v err
  | BPanic => LRet VInvalid None
  | BFuel => LFuel
  end.

Fixpoint lookupN (fuel : nat) (contextChain : list value)
  (left : option value) (name : bytes) : lresult :=
  match fuel with
  | 0 => LFuel
  | S fuel => recovered (lookupBody (lookupN fuel) contextChain left name)
  end.

(** Each recursive call is on a strictly shorter name. *)
Definition lookup (contextChain : list value) (left : option value)
  (name : bytes) : lresult :=
  lookupN (S (length name)) contextChain left name.

Definition lookupAllowMissing (contextChain : list value) (name : bytes)
  (allowMissing : bool) : lresult :=
  match lookup contextChain None name with
  | LRet value (Some err) =>
      if allowMissing && IsMissingVariableError err then LRet VInvalid None
      else LRet value (Some err)
  | r => r
  end.

End Lookup.

(** ** The renderer *)

Definition itoa (n : Z) : bytes :=
  list_ascii_of_string (NilZero.string_of_int (Z.to_int n)).

Fixpoint getElementText (elem : element) : bytes + error :=
  match elem with
  | textElement text => inl text
  | varElement name raw =>
      if raw then inl (str "{{{" ++ name ++ str "}}}")
      else inl (str "{{" ++ name ++ str "}}")
  | sectionElement name inverted _ elems =>
      let open :=
        if inverted then str "{{^" ++ name ++ str "}}"
        else str "{{#" ++ name ++ str "}}" in
      let body :=
        (fix texts (es : list element) : bytes + error :=
           match es with
           | [] => inl []
           | nelem :: es' =>
               match getElementText nelem with
               | inr err => inr err
               | inl t =>
                   match texts es' with
                   | inr err => inr err
                   | inl ts => inl (t ++ ts)
                   end
               end
           end) elems in
      match body with
      | inr err => inr err
      | inl ts => inl (open ++ ts ++ str "{{/" ++ name ++ str "}}")
      end
  | partialElement _ _ _ => inr EUnexpectedElement
  end.

Fixpoint getSectionText (elements : list element) : bytes + error :=
  match elements with
  | [] => inl []
  | elem :: elements' =>
      match getElementText elem with
      | inr err => inr err
      | inl t =>
          match getSectionText elements' with
          | inr err => inr err
          | inl ts => inl (t ++ ts)
          end
      end
  end.

Section Render.

Variable H : Host.

(** The package variable of the same name. *)
Variable AllowMissingVariables : bool.

(** [fmt.Sprint(val.Interface())]. *)
Fixpoint Sprint (v : value) : bytes :=
  match v with
  | VString s => s
  | VInt n | VUint n => itoa n
  | VBool b => if b then str "true" else str "false"
  | VIface (Some v') => Sprint v'
  | VIface None => str "<nil>"
  | _ => fmtOther H v
  end.

Definition ParseString (d : bytes) : presult Template :=
  ParseStringPartialsRaw d (defaultPartials H) false.

Definition rres : Type := bytes * status.

Section Elements.

(** [tmpl.renderElement] at the recursive calls on the children. *)
Variable renderElement : Template -> element -> list value -> bytes -> rres.

(** [renderTemplate] on a template that is compiled during the render: a
    partial, or the text that a lambda gives to its callback. *)
Variable reenter : Template -> list value -> bytes -> rres.

Fixpoint renderElems (tmpl : Template) (elems : list element)
  (contextChain : list value) (buf : bytes) : rres :=
  match elems with
  | [] => (buf, ROk)
  | elem :: elems' =>
      match renderElement tmpl elem contextChain buf with
      | (buf, ROk) => renderElems tmpl elems' contextChain buf
      | r => r
      end
  end.

(** The closure [render] handed to a section lambda. *)
Definition renderCallback (contextChain : list value) (text : bytes) : rres :=
  match ParseString text with
  | PErr e => ([], RErr (EParse e))
  | PPanic => ([], RPanic)
  | PFuel => ([], RFuel)
  | POk tmpl =>
      match reenter tmpl contextChain [] with
      | (out, ROk) => (out, ROk)
      | (_, st) => ([], st)
      end
  end.

(** The last loop of [renderSection]. *)
Fixpoint renderContexts (tmpl : Template) (elems : list element)
  (contexts contextChain : list value) (buf : bytes) : rres :=
  match contexts with
  | [] => (buf, ROk)
  | ctx :: contexts' =>
      match renderElems tmpl elems (ctx :: contextChain) buf with
      | (buf, ROk) => renderContexts tmpl elems contexts' contextChain buf
      | r => r
      end
  end.

Definition items (v : value) : list value :=
  match core v with
  | VSlice (Some xs) | VArray xs => xs
  | _ => []
  end.

Definition renderSection (tmpl : Template) (name : bytes) (inverted : bool)
  (elems : list element) (contextChain : list value) (buf : bytes) : rres :=
  match lookupAllowMissing H contextChain name true with
  | LFuel => (buf, RFuel)
  | LRet _ (Some err) => (buf, RErr err)
  | LRet value None =>
      match contextChain with
      | [] => (buf, RPanic)
      | context :: _ =>
          let isEmpty := isEmpty value in
          if (isEmpty && negb inverted) || (negb isEmpty && inverted) then
            (buf, ROk)
          else if negb inverted then
            let valueInd := indirect value in
            match kind valueInd with
            | KSlice | KArray =>
                renderContexts tmpl elems (items valueInd) contextChain buf
            | KMap | KStruct =>
                renderContexts tmpl elems [value] contextChain buf
            | KFunc =>
                match core valueInd with
                | VFunc f numIn numOut =>
                    if negb (numIn =? 2) || negb (numOut =? 2) then
                      (buf, RErr (ELambdaSignature name))
                    else
                      match getSectionText elems with
                      | inr err => (buf, RErr err)
                      | inl text =>
                          match f with
                          | None => (buf, RPanic)
                          | Some f =>
                              match Lambda H f text
                                      (renderCallback contextChain) with
                              | (res, ROk) => (buf ++ res, ROk)
                              | (_, RErr e) => (buf, RErr (ELambda name e))
                              | (_, st) => (buf, st)
                              end
                          end
                      end
                | _ => (buf, RPanic)
                end
            | _ => renderContexts tmpl elems [value] contextChain buf
            end
          else renderContexts tmpl elems [context] contextChain buf
      end
  end.

End Elements.

Definition renderVar (tmpl : Template) (name : bytes) (raw : bool)
  (contextChain : list value) (buf : bytes) : rres :=
  match lookupAllowMissing H contextChain name AllowMissingVariables with
  | LFuel => (buf, RFuel)
  | LRet _ (Some err) => (buf, RErr err)
  | LRet val None =>
      if IsValid val then
        match formatter tmpl with
        | Some fmt =>
            match fmt val with
            | (_, Some err) => (buf, RErr err)
            | (s, None) => (buf ++ s, ROk)
            end
        | None =>
            if raw then (buf ++ Sprint val, ROk)
            else (buf ++ escape tmpl (Sprint val), ROk)
        end
      else (buf, ROk)
  end.

(** The recursion on the element tree is structural; [fuel] bounds the
    depth of the templates compiled during the render (partials inside
    partials, lambdas whose text calls lambdas), the only way for a render
    not to end. *)
Fixpoint renderElement (fuel : nat)
  : Template -> element -> list value -> bytes -> rres :=
  let reenter (tmpl : Template) (contextChain : list value) (buf : bytes) :=
    match fuel with
    | 0 => (buf, RFuel)
    | S fuel' => renderElems (renderElement fuel') tmpl (elems tmpl)
                   contextChain buf
    end in
  fix renderElement (tmpl : Template) (elem : element)
    (contextChain : list value) (buf : bytes) {struct elem} : rres :=
    match elem with
    | textElement text => (buf ++ text, ROk)
    | varElement name raw => renderVar tmpl name raw contextChain buf
    | sectionElement name inverted _ elems =>
        renderSection renderElement reenter tmpl name inverted elems
          contextChain buf
    | partialElement name indent prov =>
        match getPartials H prov name indent with
        | inr err => (buf, RErr err)
        | inl partial => reenter partial contextChain buf
        end
    end.

Definition renderTemplate (fuel : nat) (tmpl : Template)
  (contextChain : list value) (buf : bytes) : rres :=
  renderElems (renderElement fuel) tmpl (elems tmpl) contextChain buf.

(** What [renderElement fuel] does with a template compiled during the
    render. *)
Definition reenterTemplate (fuel : nat) (tmpl : Template)
  (contextChain : list value) (buf : bytes) : rres :=
  match fuel with
  | 0 => (buf, RFuel)
  | S fuel' => renderTemplate fuel' tmpl contextChain buf
  end.

(** [FRender] and [Render]: the contexts are given as reflected values. *)
Definition Render (fuel : nat) (tmpl : Template) (context : list value)
  : rres :=
  renderTemplate fuel tmpl context [].

End Render.

(** ** A host for closed examples

    Its strconv knows the decimal integers of 64 bits and Go's booleans; it
    has no callables and no partials. *)

Module Example.

Definition isDigit (c : ascii) : bool :=
  (nat_of_ascii "0" <=? nat_of_ascii c) && (nat_of_ascii c <=? nat_of_ascii "9").

Fixpoint digits (s : bytes) (acc : Z) : option Z :=
  match s with
  | [] => Some acc
  | c :: s' =>
      if isDigit c
      then digits s' (10 * acc + Z.of_nat (nat_of_ascii c - nat_of_ascii "0"))%Z
      else None
  end.

Definition parseUint (s : bytes) : option Z :=
  match s with
  | [] => None
  | _ :: _ =>
      match digits s 0 with
      | Some n => if (n <? 2 ^ 64)%Z then Some n else None
      | None => None
      end
  end.

Definition inInt64 (n : Z) : option Z :=
  if (- 2 ^ 63 <=? n)%Z && (n <? 2 ^ 63)%Z then Some n else None.

Definition parseInt (s : bytes) : option Z :=
  match s with
  | "-"%char :: s' =>
      match parseUint s' with Some n => inInt64 (- n) | None => None end
  | "+"%char :: s' =>
      match parseUint s' with Some n => inInt64 n | None => None end
  | _ => match parseUint s with Some n => inInt64 n | None => None end
  end.

Definition parseBool (s : bytes) : option bool :=
  if existsb (strings.eqb s)
       (map str ["1"; "t"; "T"; "TRUE"; "true"; "True"])%string then Some true
  else if existsb (strings.eqb s)
       (map str ["0"; "f"; "F"; "FALSE"; "false"; "False"])%string then Some false
  else None.

Definition host : Host :=
  mkHost parseInt parseUint (fun _ => None) parseBool (fun _ => None)
    parseInt (fun f => f)
    (fun _ _ => CallPanic)
    (fun _ _ _ => ([], RPanic))
    (fun _ _ _ => inr (EHost 0))
    0
    (fun _ => []).

End Example.

(** ** Predicates of the specification *)

(** [occurs s d]: the string [s] occurs in [d]. *)
Definition occurs (s d : bytes) : Prop :=
  exists pre post, d = pre ++ s ++ post.

(** White space in the sense of the claim on standalone lines: blanks, line
    ends and the other ASCII space characters. *)
Definition isSpaceByte (c : ascii) : bool :=
  existsb (Ascii.eqb c) [sp; tab; nl; cr; ascii_of_nat 11; ascii_of_nat 12].

(** Some content that is not white space stands on the line of the tag
    before its open delimiter, which starts at [tagStart]. *)
Definition contentBefore (d : bytes) (tagStart : nat) : Prop :=
  exists j, j < tagStart /\ isSpaceByte (at_ d j) = false
            /\ forall k, j < k < tagStart -> at_ d k <> nl.

(** Some content that is not white space stands on the line of the tag
    after its close delimiter, which ends at [tagEnd]. *)
Definition contentAfter (d : bytes) (tagEnd : nat) : Prop :=
  exists j, tagEnd <= j < length d /\ isSpaceByte (at_ d j) = false
            /\ forall k, tagEnd <= k < j -> at_ d k <> nl.

(** No probe of [lookup] matches [name] in the context [ctx]: no method,
    field, alias, map key or special name of a sequence. *)
Definition undefinedIn (H : Host) (name : bytes) (ctx : value) : Prop :=
  lookupSteps H name (derefs ctx) = PrNext.

(** The template of the claim on standalone lines. *)
Definition standaloneSource : bytes :=
  str "A" ++ [nl] ++ str "{{#x}}" ++ [nl] ++ str "{{/x}}" ++ [nl]
  ++ str "B" ++ [nl].

(** ** The round trip through the text of a section

    [serialize] is the text that [getElementText] writes for an element
    that is no partial. *)

Definition openTag (name : bytes) (inverted : bool) : bytes :=
  (if inverted then str "{{^" else str "{{#") ++ name ++ str "}}".

Definition closeTag (name : bytes) : bytes :=
  str "{{/" ++ name ++ str "}}".

Fixpoint serialize (elem : element) : bytes :=
  match elem with
  | textElement text => text
  | varElement name raw =>
      if raw then str "{{{" ++ name ++ str "}}}"
      else str "{{" ++ name ++ str "}}"
  | sectionElement name inverted _ elems =>
      openTag name inverted
      ++ (fix all (es : list element) : bytes :=
            match es with
            | [] => []
            | nelem :: es' => serialize nelem ++ all es'
            end) elems
      ++ closeTag name
  | partialElement _ _ _ => []
  end.

Fixpoint serializeAll (elements : list element) : bytes :=
  match elements with
  | [] => []
  | elem :: elements' => serialize elem ++ serializeAll elements'
  end.

(** The text holds no open brace. *)
Definition noBrace (text : bytes) : bool :=
  forallb (fun c => negb (Ascii.eqb c "{")) text.

(** A printable ASCII character that is no space. *)
Definition graphic (c : ascii) : bool :=
  (33 <=? nat_of_ascii c) && (nat_of_ascii c <=? 126).

(** A name as a tag can hold it: no closing brace, and a printable ASCII
    character at either end, so that trimming leaves it as it is. *)
Definition nameOk (name : bytes) : bool :=
  forallb (fun c => negb (Ascii.eqb c "}")) name
  && match name with
     | [] => true
     | c :: _ => graphic c && graphic (last name c)
     end.

(** The name of a variable tag without sigil: its first character is none
    that selects another kind of tag or the standalone rule. *)
Definition plainName (name : bytes) : bool :=
  match name with
  | [] => false
  | c :: _ => negb (oneOf c "!#^/<>={&")
  end.

Fixpoint dropBlanks (s : bytes) : bytes :=
  match s with
  | c :: s' => if isBlank c then dropBlanks s' else s
  | [] => []
  end.

(** Only blanks stand between the start of the line and the end of
    [before]. *)
Definition lineStartBefore (before : bytes) : bool :=
  match dropBlanks (rev before) with
  | [] => true
  | c :: _ => Ascii.eqb c nl
  end.

(** Only blanks stand between the start of [after] and the end of the
    line. *)
Definition lineEndAfter (after : bytes) : bool :=
  match dropBlanks after with
  | [] => true
  | c :: rest =>
      Ascii.eqb c nl
      || (Ascii.eqb c cr
          && match rest with d :: _ => Ascii.eqb d nl | [] => false end)
  end.

(** A tag between [before] and [after] stands alone on its line. *)
Definition aloneOnLine (before after : bytes) : bool :=
  lineStartBefore before && lineEndAfter after.

(** [wellFormed before elem after]: the element [elem], serialized between
    the texts [before] and [after], is read back as it is: texts hold no
    open brace, names are as tags can hold them, there is no partial, and
    no section tag stands alone on its line. *)
Fixpoint wellFormed (before : bytes) (elem : element) (after : bytes)
  : bool :=
  match elem with
  | textElement text => noBrace text
  | varElement name raw => nameOk name && (raw || plainName name)
  | sectionElement name inverted _ elems =>
      nameOk name
      && negb (aloneOnLine before (serializeAll elems ++ closeTag name ++ after))
      && (fix all (before : bytes) (es : list element) : bool :=
            match es with
            | [] => true
            | nelem :: es' =>
                wellFormed before nelem
                  (serializeAll es' ++ closeTag name ++ after)
                && all (before ++ serialize nelem) es'
            end) (before ++ openTag name inverted) elems
      && negb (aloneOnLine
                 (before ++ openTag name inverted ++ serializeAll elems) after)
  | partialElement _ _ _ => false
  end.

Fixpoint wellFormedAll (before : bytes) (elements : list element)
  (after : bytes) : bool :=
  match elements with
  | [] => true
  | elem :: elements' =>
      wellFormed before elem (serializeAll elements' ++ after)
      && wellFormedAll (before ++ serialize elem) elements' after
  end.

(** The elements up to the grouping of adjacent texts and to the line
    numbers of sections, neither of which a render looks at. *)
Definition consText (text : bytes) (es : list element) : list element :=
  match es with
  | textElement text' :: es' => textElement (text ++ text') :: es'
  | _ => match text with
         | [] => es
         | _ :: _ => textElement text :: es
         end
  end.

(** [normInto elem rest]: the normal form of [elem] before the normal form
    [rest] of what follows it. *)
Fixpoint normInto (elem : element) (rest : list element) : list element :=
  match elem with
  | textElement text => consText text rest
  | sectionElement name inverted _ elems =>
      sectionElement name inverted 0
        ((fix all (es : list element) : list element :=
            match es with
            | [] => []
            | nelem :: es' => normInto nelem (all es')
            end) elems)
      :: rest
  | _ => elem :: rest
  end.

Fixpoint norm (elements : list element) : list element :=
  match elements with
  | [] => []
  | elem :: elements' => normInto elem (norm elements')
  end.

(** The tags of an element: each costs the compiler one turn. *)
Fixpoint tagsIn (elem : element) : nat :=
  match elem with
  | textElement _ => 0
  | sectionElement _ _ _ elems =>
      S ((fix all (es : list element) : nat :=
            match es with
            | [] => 0
            | nelem :: es' => tagsIn nelem + all es'
            end) elems)
  | _ => 1
  end.

Fixpoint tagCount (elements : list element) : nat :=
  match elements with
  | [] => 0
  | elem :: elements' => tagsIn elem + tagCount elements'
  end.

Fixpoint nodesIn (elem : element) : nat :=
  match elem with
  | sectionElement _ _ _ elems =>
      S ((fix all (es : list element) : nat :=
            match es with
            | [] => 0
            | nelem :: es' => nodesIn nelem + all es'
            end) elems)
  | _ => 1
  end.

Fixpoint size (elements : list element) : nat :=
  match elements with
  | [] => 0
  | elem :: elements' => nodesIn elem + size elements'
  end.

(** [at_pos tmpl q l]: the parser [tmpl] moved to the position [q], on the
    line [l]. *)
Definition at_pos (tmpl : Template) (q l : nat) : Template :=
  with_curline (with_p tmpl q) l.

(** ** Lines *)

(** The number of line feeds of a text. *)
Definition newlinesIn (s : bytes) : nat :=
  length (filter (fun c => Ascii.eqb c nl) s).

(** The end of the line of a tag that is followed by [after]: how many
    bytes a standalone tag consumes after its close delimiter, and by how
    much the line counter grows; [None] when the tag is not the last thing
    on its line. Blanks up to the end of the input are no line end. *)
Definition tagLineEnd (after : bytes) : option (nat * nat) :=
  match after with
  | [] => Some (0, 0)
  | _ :: _ =>
      let r := dropBlanks after in
      let blanks := length after - length r in
      match r with
      | c :: r' =>
          if Ascii.eqb c nl then Some (blanks + 1, 1)
          else if Ascii.eqb c cr
                  && match r' with d :: _ => Ascii.eqb d nl | [] => false end
               then Some (blanks + 2, 1)
               else None
      | [] => None
      end
  end.

(** [T] without the blanks that end it. *)
Definition dropBlanksRight (T : bytes) : bytes := rev (dropBlanks (rev T)).

(** A tag that follows the text [T], read from the end of [pre], starts
    its line: only blanks stand between the tag and the line feed before
    it, or the start of the input. The blanks are looked for in [T]
    alone. *)
Definition startsLine (pre T : bytes) : bool :=
  match dropBlanks (rev T) with
  | c :: _ => Ascii.eqb c nl
  | [] => match rev pre with
          | c :: _ => Ascii.eqb c nl
          | [] => true
          end
  end.

(** By how much the line counter has grown when a tag of a kind that can
    stand alone has been read. *)
Definition lineBump (startsItsLine : bool) (after : bytes) : nat :=
  match (if startsItsLine then tagLineEnd after else None) with
  | Some (_, b) => b
  | None => 0
  end.

(** How many bytes after its close delimiter such a tag consumes. *)
Definition lineSkip (startsItsLine : bool) (after : bytes) : nat :=
  match (if startsItsLine then tagLineEnd after else None) with
  | Some (k, _) => k
  | None => 0
  end.

(** [tmpl'] is at a position farther in the same data. *)
Definition farther (tmpl tmpl' : Template) : Prop :=
  data tmpl' = data tmpl /\ p tmpl <= p tmpl'.

(** The fuel covers the bytes that are left to read. *)
Definition fuelFor (fuel : nat) (tmpl : Template) : Prop :=
  length (data tmpl) - p tmpl < fuel.

(** The template that [ParseStringPartialsRaw] hands to [parse]. *)
Definition startTemplate (partials : PartialProvider) (forceRaw : bool)
  (d : bytes) : Template :=
  mkTemplate d (str "{{") (str "}}") 0 1 [] forceRaw partials
    HTMLEscapeString None.

(** What is written of the text [T] before a tag: all of it, or, when the
    tag stands alone on its line, [T] without the blanks of that line. *)
Definition textBefore (startsItsLine : bool) (T after : bytes) : bytes :=
  match (if startsItsLine then tagLineEnd after else None) with
  | Some _ => dropBlanksRight T
  | None => T
  end.

(** What is written of the text [after] a tag: all of it, or, when the
    tag stands alone on its line, what follows the end of that line. *)
Definition textAfter (startsItsLine : bool) (after : bytes) : bytes :=
  skipn (lineSkip startsItsLine after) after.

(** ** The tags of a template

    [TagType] is an unsigned integer in the source.  Its constants
    [Variable] and [Section] are words that Rocq keeps to itself, so all
    five carry the prefix [Tag] here. *)

Definition TagType := nat.

Definition TagInvalid : TagType := 0.

Fixpoint extractTags (elems : list element) : list element :=
  match elems with
  | [] => []
  | elem :: elems' =>
      match elem with
      | textElement _ => extractTags elems'
      | _ => elem :: extractTags elems'
      end
  end.




Definition Tag_Tags (e : element) : option (presult (list element)) :=
  match e with
  | textElement _ => None
  | varElement _ _ => Some PPanic
  | sectionElement _ _ _ elems => Some (POk (extractTags elems))
  | partialElement _ _ _ => Some (POk [])
  end.



(** ** Layouts *)

Section Layout.

Variable H : Host.
Variable AllowMissingVariables : bool.

(** [FRenderInLayout]: the content is the first of the contexts of the
    layout, as a map with the one key [content]. *)
Definition FRenderInLayout (fuel : nat) (tmpl layout : Template)
  (context : list value) (out : bytes) : rres :=
  match Render H AllowMissingVariables fuel tmpl context with
  | (content, ROk) =>
      let allContext :=
        VMap (Some [(str "content", VString content)]) :: context in
      renderTemplate H AllowMissingVariables fuel layout allContext out
  | (_, st) => (out, st)
  end.

Definition RenderInLayout (fuel : nat) (tmpl layout : Template)
  (context : list value) : rres :=
  match FRenderInLayout fuel tmpl layout context [] with
  | (s, ROk) => (s, ROk)
  | (_, st) => ([], st)
  end.

End Layout.

(** ** A host with one lambda

    The host of the closed examples, with the section lambda that answers
    what its callback renders of the text it is given. *)
Definition echoHost : Host :=
  mkHost Example.parseInt Example.parseUint (fun _ => None) Example.parseBool
    (fun _ => None) Example.parseInt (fun f => f)
    (fun _ _ => CallRet (VString (str "called")) None)
    (fun _ text render => render text)
    (fun _ _ _ => inr (EHost 0))
    0
    (fun _ => []).

(** The same host, with the section lambda that answers [Z] whatever the
    text it is given. *)
Definition constHost : Host :=
  mkHost Example.parseInt Example.parseUint (fun _ => None) Example.parseBool
    (fun _ => None) Example.parseInt (fun f => f)
    (fun _ _ => CallPanic)
    (fun _ _ _ => (str "Z", ROk))
    (fun _ _ _ => inr (EHost 0))
    0
    (fun _ => []).

(** ** Tactics *)

(** The goal follows from [H] up to the grouping of concatenations. *)
Ltac by_eq H :=
  etransitivity; [|exact H]; f_equal;
  rewrite ?app_nil_r; cbn [app]; rewrite <- ?app_assoc; reflexivity.

(** Runs the compilations of the goal. *)
Ltac run_parse :=
  repeat (let r := fresh "r" in
          set (r := ParseString _ _); vm_compute in r; subst r).

(** No character of a closed string is the one excluded. *)
Ltac no_char :=
  let Hx := fresh "Hx" in
  intros ? Hx; repeat (destruct Hx as [<-|Hx]; [discriminate|]); destruct Hx.

(** * Properties *)

(** ** Byte strings *)

Lemma bytes_eqb_eq (a b : bytes) : strings.eqb a b = true <-> a = b.
Proof.
  revert b; induction a as [|c a IH]; intros [|d b]; simpl; split;
    try congruence; try reflexivity.
  - intros E. apply andb_true_iff in E as [E1 E2].
    apply Ascii.eqb_eq in E1. apply IH in E2. congruence.
  - intros E. injection E as -> ->.
    apply andb_true_iff; split; [apply Ascii.eqb_refl | now apply IH].
Qed.

Lemma bytes_eqb_refl (a : bytes) : strings.eqb a a = true.
Proof. now apply bytes_eqb_eq. Qed.

Lemma bytes_eqb_neq (a b : bytes) : strings.eqb a b = false <-> a <> b.
Proof.
  split.
  - intros E Heq. apply bytes_eqb_eq in Heq. congruence.
  - intros N. destruct (strings.eqb a b) eqn:E; [|reflexivity].
    apply bytes_eqb_eq in E. contradiction.
Qed.

Lemma HasPrefix_spec (s prefix : bytes) :
  strings.HasPrefix s prefix = true <-> exists post, s = prefix ++ post.
Proof.
  revert s; induction prefix as [|c prefix IH]; intros s; simpl.
  - split; [intros _; now exists s | reflexivity].
  - destruct s as [|d s].
    + split; [discriminate | intros [post E]; discriminate].
    + split.
      * intros E. apply andb_true_iff in E as [E1 E2].
        apply Ascii.eqb_eq in E1. apply IH in E2 as [post ->].
        exists post. now subst.
      * intros [post E]. injection E as -> ->.
        apply andb_true_iff; split; [apply Ascii.eqb_refl|].
        apply IH. now exists post.
Qed.

Lemma occurs_tail (s d : bytes) (c : ascii) :
  occurs s d -> occurs s (c :: d).
Proof. intros (pre & post & ->). now exists (c :: pre), post. Qed.

Lemma Index_unfold (s substr : bytes) :
  strings.Index s substr
  = if strings.HasPrefix s substr then Some 0
    else match s with
         | [] => None
         | _ :: s' => option_map S (strings.Index s' substr)
         end.
Proof. destruct s; reflexivity. Qed.

(** [strings.Contains] finds every occurrence. *)
Lemma occurs_Contains (s d : bytes) :
  occurs s d -> strings.Contains d s = true.
Proof.
  intros (pre & post & ->). unfold strings.Contains.
  induction pre as [|c pre IH]; rewrite Index_unfold; cbn [app].
  - assert (E : strings.HasPrefix (s ++ post) s = true)
      by (apply HasPrefix_spec; now exists post).
    now rewrite E.
  - destruct (strings.HasPrefix (c :: pre ++ s ++ post) s); [reflexivity|].
    destruct (strings.Index (pre ++ s ++ post) s); [reflexivity|].
    discriminate IH.
Qed.

(** ** [readString] *)

Lemma readString_loop_none (s rest : bytes) (i newlines : nat) :
  s <> [] -> ~ occurs s rest -> readString_loop s rest i newlines = None.
Proof.
  intros Hs. revert i newlines.
  induction rest as [|c rest IH]; intros i newlines Hn; [reflexivity|].
  cbn [readString_loop].
  destruct (length (c :: rest) <? length s); [reflexivity|].
  assert (Hrest : ~ occurs s rest)
    by (intros Ho; apply Hn; now apply occurs_tail).
  destruct (Ascii.eqb c (at_ s 0)) eqn:Ec; cbn [negb].
  - destruct (strings.HasPrefix rest (tl s)) eqn:Ep.
    + exfalso. apply Hn. apply Ascii.eqb_eq in Ec.
      apply HasPrefix_spec in Ep as [post Ep].
      destruct s as [|s0 s']; [congruence|].
      exists [], post. cbn in *. now subst.
    + now apply IH.
  - now apply IH.
Qed.

Lemma readString_EOF (tmpl : Template) (s : bytes) :
  s <> [] -> ~ occurs s (skipn (p tmpl) (data tmpl)) ->
  readString tmpl s = RSEOF (skipn (p tmpl) (data tmpl)).
Proof.
  intros Hs Hn. unfold readString. destruct s; [congruence|].
  now rewrite readString_loop_none.
Qed.

Section Identity.

Variable H : Host.
Variable AllowMissingVariables : bool.

(** C9. A template source in which the open delimiter does not occur
    compiles to the single text element holding the source, and rendering
    it against any context stack writes the source unchanged. *)
Theorem identity_without_tags (d : bytes) (partials : PartialProvider)
  (forceRaw : bool) (fuel : nat) (contextChain : list value) :
  ~ occurs (str "{{") d ->
  exists tmpl,
    ParseStringPartialsRaw d partials forceRaw = POk tmpl
    /\ elems tmpl = [textElement d]
    /\ Render H AllowMissingVariables fuel tmpl contextChain = (d, ROk).
Proof.
  intros Hn. unfold ParseStringPartialsRaw, parseFuel. cbn [parse].
  unfold readText. rewrite readString_EOF; [|discriminate|exact Hn].
  eexists; split; [reflexivity|]. split; [reflexivity|].
  destruct fuel; reflexivity.
Qed.

End Identity.

Lemma identity_without_tags_witness :
  exists tmpl,
    ParseStringPartialsRaw (str "Hello, { world }") 0 false = POk tmpl
    /\ elems tmpl = [textElement (str "Hello, { world }")]
    /\ Render Example.host true 0 tmpl [VInt 1]
       = (str "Hello, { world }", ROk).
Proof.
  apply (identity_without_tags Example.host true (str "Hello, { world }") 0
           false 0 [VInt 1]).
  intros Ho. apply occurs_Contains in Ho. vm_compute in Ho. discriminate Ho.
Defined.

(** ** The tokenizer *)

Lemma readString_loop_some (s rest : bytes) (i newlines e n : nat) :
  readString_loop s rest i newlines = Some (e, n) ->
  i + length s <= e <= i + length rest.
Proof.
  revert i newlines.
  induction rest as [|c rest IH]; intros i newlines; cbn [readString_loop];
    [discriminate|].
  destruct (length (c :: rest) <? length s) eqn:El; [discriminate|].
  apply Nat.ltb_ge in El. cbn [length] in *.
  destruct (negb (Ascii.eqb c (at_ s 0))).
  - intros E. apply IH in E. lia.
  - destruct (strings.HasPrefix rest (tl s)).
    + intros E. injection E as <- _. lia.
    + intros E. apply IH in E. lia.
Qed.

(** What [readString] leaves untouched, and how far it moves. *)
Lemma readString_found (tmpl tmpl' : Template) (s text : bytes) :
  readString tmpl s = RSFound tmpl' text ->
  data tmpl' = data tmpl /\ otag tmpl' = otag tmpl /\ ctag tmpl' = ctag tmpl
  /\ elems tmpl' = elems tmpl /\ forceRaw tmpl' = forceRaw tmpl
  /\ p tmpl + length s <= p tmpl' <= length (data tmpl).
Proof.
  unfold readString. destruct s as [|s0 s']; [discriminate|].
  destruct (readString_loop _ _ _ _) as [[e n]|] eqn:E; [|discriminate].
  intros Hf. injection Hf as <- _. cbn.
  apply readString_loop_some in E. rewrite length_skipn in E.
  repeat split; try reflexivity; cbn [length] in *; lia.
Qed.

Lemma scanBack_spec (d : bytes) (pPrev t : nat) :
  pPrev <= t ->
  let i := scanBack d pPrev t in
  pPrev <= i <= t
  /\ (forall k, i <= k < t -> isBlank (at_ d k) = true)
  /\ (i = pPrev \/ isBlank (at_ d (i - 1)) = false).
Proof.
  induction t as [|t IH]; intros Hle; cbn [scanBack].
  - split; [lia|]. split; [intros k Hk; lia | left; lia].
  - destruct (S t <=? pPrev) eqn:E1.
    + apply Nat.leb_le in E1.
      split; [lia|]. split; [intros k Hk; lia | left; lia].
    + apply Nat.leb_gt in E1.
      destruct (isBlank (at_ d t)) eqn:E2; cbn [negb].
      * destruct IH as (Hr & Hb & Hs); [lia|].
        split; [lia|]. split; [|exact Hs].
        intros k Hk. destruct (Nat.eq_dec k t) as [->|]; [exact E2|].
        apply Hb. lia.
      * split; [lia|]. split; [intros k Hk; lia|].
        right. now replace (S t - 1) with t by lia.
Qed.

Lemma firstn_plus (l : bytes) (a b : nat) :
  firstn (a + b) l = firstn a l ++ firstn b (skipn a l).
Proof.
  revert l. induction a as [|a IH]; intros l; [reflexivity|].
  destruct l as [|c l]; cbn [Nat.add firstn skipn app].
  - now rewrite firstn_nil.
  - now rewrite IH.
Qed.

Lemma sub_app (d : bytes) (a b c : nat) :
  a <= b <= c -> sub d a b ++ sub d b c = sub d a c.
Proof.
  intros Hle. unfold sub.
  replace (c - a) with ((b - a) + (c - b)) by lia.
  rewrite firstn_plus. f_equal. rewrite skipn_skipn.
  now replace (b - a + a) with b by lia.
Qed.

(** The first byte that is no blank, from [i] on. *)
Lemma findEow_spec (rest : bytes) (i eow : nat) :
  let r := findEow rest i eow in
  (r = eow /\ forall k, k < length rest -> isBlank (nth k rest zero) = true)
  \/ (exists k, r = i + k /\ k < length rest
                /\ isBlank (nth k rest zero) = false
                /\ forall k', k' < k -> isBlank (nth k' rest zero) = true).
Proof.
  revert i. induction rest as [|c rest IH]; intros i; cbn [findEow].
  - left. split; [reflexivity|]. cbn. intros k Hk; lia.
  - destruct (isBlank c) eqn:Ec; cbn [negb].
    + destruct (IH (S i)) as [[Hr Hb]|(k & Hr & Hk & Hn & Hb)].
      * left. split; [exact Hr|]. intros [|k] Hk; [exact Ec|].
        apply Hb. cbn in Hk. lia.
      * right. exists (S k). cbn [length nth].
        repeat split; [lia|lia|exact Hn|].
        intros [|k'] Hk'; [exact Ec|]. apply Hb. lia.
    + right. exists 0. cbn. repeat split; [lia|lia|exact Ec|].
      intros k' Hk'; lia.
Qed.

Lemma nth_skipn_at (d : bytes) (q k : nat) :
  nth k (skipn q d) zero = at_ d (q + k).
Proof. unfold at_. apply nth_skipn. Qed.

Lemma space_not_blank (c : ascii) :
  isSpaceByte c = false -> isBlank c = false /\ c <> nl /\ c <> cr.
Proof.
  unfold isSpaceByte, isBlank. cbn [existsb].
  intros E. repeat (apply orb_false_iff in E as [? E]).
  repeat split.
  - apply orb_false_iff; split; assumption.
  - intros ->. now rewrite Ascii.eqb_refl in *.
  - intros ->. now rewrite Ascii.eqb_refl in *.
Qed.

(** With content after the tag on its line, the byte at [eow] is neither a
    line feed nor the start of a CR LF. *)
Lemma findEow_content (d : bytes) (q : nat) :
  contentAfter d q ->
  let eow := findEow (skipn q d) q q in
  eow < length d /\ at_ d eow <> nl
  /\ ~ (at_ d eow = cr /\ at_ d (eow + 1) = nl).
Proof.
  intros (j & Hj & Hs & Hnl). cbn zeta.
  apply space_not_blank in Hs as (Hb & Hn & Hc).
  destruct (findEow_spec (skipn q d) q q) as [[_ Hall]|(k & -> & Hk & Hnb & Hbl)].
  - exfalso. specialize (Hall (j - q)). rewrite length_skipn in Hall.
    rewrite nth_skipn_at in Hall. replace (q + (j - q)) with j in Hall by lia.
    rewrite Hall in Hb; [discriminate|lia].
  - rewrite length_skipn in Hk. rewrite nth_skipn_at in Hnb.
    assert (Hle : q + k <= j).
    { destruct (Nat.le_gt_cases (q + k) j) as [|Hgt]; [assumption|].
      specialize (Hbl (j - q)). rewrite nth_skipn_at in Hbl.
      replace (q + (j - q)) with j in Hbl by lia.
      rewrite Hbl in Hb; [discriminate|lia]. }
    split; [lia|].
    destruct (Nat.eq_dec (q + k) j) as [E|N].
    + rewrite E. split; [exact Hn|]. intros [Hcr _]. contradiction.
    + split; [apply Hnl; lia|]. intros [_ Hlf].
      destruct (Nat.eq_dec (q + k + 1) j) as [E|N'].
      * rewrite E in Hlf. contradiction.
      * revert Hlf. apply Hnl. lia.
Qed.

(** With content before the tag on its line, the backward scan does not
    end at a line start. *)
Lemma scanBack_content (d : bytes) (pPrev t : nat) :
  pPrev <= t -> contentBefore d t ->
  let i := scanBack d pPrev t in
  (i =? 0) || Ascii.eqb (at_ d (i - 1)) nl = false.
Proof.
  intros Hle (j & Hj & Hs & Hnl). cbn zeta.
  apply space_not_blank in Hs as (Hb & Hn & _).
  destruct (scanBack_spec d pPrev t Hle) as (Hr & Hbl & Hstop).
  set (i := scanBack d pPrev t) in *.
  assert (Hji : j < i).
  { destruct (Nat.le_gt_cases i j) as [Hij|]; [|assumption].
    rewrite Hbl in Hb; [discriminate|lia]. }
  apply orb_false_iff. split; [apply Nat.eqb_neq; lia|].
  destruct (Ascii.eqb (at_ d (i - 1)) nl) eqn:E; [|reflexivity].
  apply Ascii.eqb_eq in E. exfalso.
  destruct (Nat.eq_dec (i - 1) j) as [Ej|Nj].
  - rewrite Ej in E. contradiction.
  - revert E. apply Hnl. lia.
Qed.

(** A tag with content that is not white space before it or after it on its
    line: [readTag] consumes nothing after the close delimiter, and the text
    and the padding read before the tag make up the whole run up to the open
    delimiter. *)
Lemma readTag_shared_line (tmpl tmpl1 tmplq tmpl2 : Template)
  (tr : textReadingResult) (inner : bytes) (tg : tagReadingResult) :
  readText tmpl = RTText tmpl1 tr ->
  readClose tmpl1 = RSFound tmplq inner ->
  readTag tmpl1 (mayStandalone tr) = POk (tmpl2, tg) ->
  contentBefore (data tmpl) (p tmpl1 - length (otag tmpl))
  \/ contentAfter (data tmpl) (p tmplq) ->
  tmpl2 = tmplq
  /\ text tr ++ (if standalone tg then [] else padding tr)
     = sub (data tmpl) (p tmpl) (p tmpl1 - length (otag tmpl)).
Proof.
  intros Htext Hclose Htag Hcontent.
  unfold readText in Htext.
  destruct (readString tmpl (otag tmpl)) as [tmpl1' t| |] eqn:Hrs;
    try discriminate.
  apply readString_found in Hrs as (Hd & Ho & _ & _ & _ & Hp).
  rewrite Hd, Ho in Htext.
  set (tagStart := p tmpl1' - length (otag tmpl)) in *.
  assert (Hle : p tmpl <= tagStart) by (unfold tagStart; lia).
  destruct (scanBack_spec (data tmpl) (p tmpl) tagStart Hle) as (Hr & _ & _).
  assert (Ht1 : tmpl1' = tmpl1)
    by (destruct (_ || _) in Htext; now injection Htext).
  assert (Hq : data tmplq = data tmpl /\ p tmplq <= length (data tmpl)).
  { unfold readClose in Hclose. rewrite <- Ht1 in Hclose.
    destruct (_ && _); apply readString_found in Hclose;
      destruct Hclose as (Hdq & _ & _ & _ & _ & Hpq);
      rewrite Hd in *; split; [exact Hdq | lia | exact Hdq | lia]. }
  destruct Hq as (Hdq & Hpq).
  unfold readTag in Htag. rewrite Hclose in Htag.
  destruct (length (strings.TrimSpace _) =? 0); [discriminate|].
  rewrite Hdq in Htag.
  destruct ((scanBack (data tmpl) (p tmpl) tagStart =? 0)
            || Ascii.eqb (at_ (data tmpl)
                 (scanBack (data tmpl) (p tmpl) tagStart - 1)) nl) eqn:Hms.
  - (* the scan ended at a line start: the content stands after the tag *)
    injection Htext as <- <-. cbn [mayStandalone text padding] in *.
    fold tagStart.
    destruct Hcontent as [Hbefore|Hafter].
    { apply (scanBack_content _ (p tmpl) _ Hle) in Hbefore. cbn zeta in Hbefore.
      congruence. }
    apply findEow_content in Hafter as (Hlt & Hnl & Hcr). cbn zeta in *.
    set (eow := findEow (skipn (p tmplq) (data tmpl)) (p tmplq) (p tmplq)) in *.
    assert (E1 : (eow =? length (data tmpl)) = false) by (apply Nat.eqb_neq; lia).
    assert (E2 : Ascii.eqb (at_ (data tmpl) eow) nl = false)
      by (now apply Ascii.eqb_neq).
    assert (E3 : Ascii.eqb (at_ (data tmpl) eow) cr
                 && Ascii.eqb (at_ (data tmpl) (eow + 1)) nl = false).
    { destruct (Ascii.eqb (at_ (data tmpl) eow) cr) eqn:Ec; [|reflexivity].
      destruct (Ascii.eqb (at_ (data tmpl) (eow + 1)) nl) eqn:En; [|reflexivity].
      apply Ascii.eqb_eq in Ec, En. exfalso. now apply Hcr. }
    rewrite E1, E2, andb_false_r in Htag.
    rewrite <- andb_assoc, E3, andb_false_r in Htag.
    destruct (negb _) in Htag; injection Htag as <- <-; cbn [standalone];
      (split; [reflexivity|]); now apply sub_app.
  - injection Htext as <- <-. cbn [mayStandalone text padding] in *.
    injection Htag as <- <-. cbn [standalone].
    split; [reflexivity|]. now rewrite app_nil_r.
Qed.

(** ** Plain names *)

Section PlainNames.

Variable H : Host.

(** A name without structure that is no literal is searched in the chain. *)
Lemma lookupN_plain (fuel : nat) (contextChain : list value)
  (left : option value) (name : bytes) :
  strings.IndexAny name (str ".[(") = None \/ name = str "." ->
  isStringLiteral name = false ->
  numberLiteral H name = None ->
  lookupN H (S fuel) contextChain left name
  = recovered
      (lookupChain H name
         match left with Some l => [l] | None => contextChain end).
Proof.
  intros Hstruct Hstr Hnum. cbn [lookupN]. f_equal.
  unfold lookupBody. rewrite Hstr, Hnum.
  destruct Hstruct as [-> | ->]; reflexivity.
Qed.

Lemma lookup_plain (contextChain : list value) (left : option value)
  (name : bytes) :
  strings.IndexAny name (str ".[(") = None \/ name = str "." ->
  isStringLiteral name = false ->
  numberLiteral H name = None ->
  lookup H contextChain left name
  = recovered
      (lookupChain H name
         match left with Some l => [l] | None => contextChain end).
Proof. apply lookupN_plain. Qed.

(** A name without structure that [strconv] parses is that literal. *)
Lemma lookupN_literal (fuel : nat) (contextChain : list value)
  (left : option value) (name : bytes) (val : value) :
  strings.IndexAny name (str ".[(") = None ->
  isStringLiteral name = false ->
  numberLiteral H name = Some val ->
  lookupN H (S fuel) contextChain left name = LRet val None.
Proof.
  intros Hstruct Hstr Hnum. cbn [lookupN].
  unfold lookupBody. now rewrite Hstruct, Hstr, Hnum.
Qed.

Lemma lookupChain_missing (name : bytes) (contextChain : list value) :
  Forall (fun ctx => lookupSteps H name (derefs ctx) = PrNext) contextChain ->
  lookupChain H name contextChain
  = BRet VInvalid (Some (MissingVariableError name)).
Proof.
  induction 1 as [|ctx chain Hctx _ IH]; cbn [lookupChain]; [reflexivity|].
  now rewrite Hctx.
Qed.

End PlainNames.

(** ** The renderer, one element at a time *)

Section RenderSteps.

Variable H : Host.
Variable AllowMissingVariables : bool.

Lemma renderElement_text (fuel : nat) (tmpl : Template) (text : bytes)
  (contextChain : list value) (buf : bytes) :
  renderElement H AllowMissingVariables fuel tmpl (textElement text)
    contextChain buf
  = (buf ++ text, ROk).
Proof. destruct fuel; reflexivity. Qed.

Lemma renderElement_var (fuel : nat) (tmpl : Template) (name : bytes)
  (raw : bool) (contextChain : list value) (buf : bytes) :
  renderElement H AllowMissingVariables fuel tmpl (varElement name raw)
    contextChain buf
  = renderVar H AllowMissingVariables tmpl name raw contextChain buf.
Proof. destruct fuel; reflexivity. Qed.

Lemma renderElement_section (fuel : nat) (tmpl : Template) (name : bytes)
  (inverted : bool) (line : nat) (es : list element)
  (contextChain : list value) (buf : bytes) :
  renderElement H AllowMissingVariables fuel tmpl
    (sectionElement name inverted line es) contextChain buf
  = renderSection H (renderElement H AllowMissingVariables fuel)
      (reenterTemplate H AllowMissingVariables fuel) tmpl name inverted es
      contextChain buf.
Proof. destruct fuel; reflexivity. Qed.

End RenderSteps.

(** ** Rendering of the examples of the specification *)

Section Examples.

Variable H : Host.
Variable AllowMissingVariables : bool.

Lemma lookupChain_undefined (name : bytes) (contextChain : list value) :
  Forall (undefinedIn H name) contextChain ->
  lookupChain H name contextChain
  = BRet VInvalid (Some (MissingVariableError name)).
Proof. apply lookupChain_missing. Qed.

(** [{{missing}}] against contexts in each of which the search of [lookup]
    finds nothing and goes on to the next one: with [AllowMissingVariables]
    the render writes nothing and returns no error; without it the render
    returns the Missing-Variable error that records the name. *)
Theorem missing_variable_policy (fuel : nat) (contextChain : list value) :
  numberLiteral H (str "missing") = None ->
  Forall (undefinedIn H (str "missing")) contextChain ->
  exists tmpl,
    ParseString H (str "{{missing}}") = POk tmpl
    /\ Render H true fuel tmpl contextChain = ([], ROk)
    /\ Render H false fuel tmpl contextChain
       = ([], RErr (MissingVariableError (str "missing"))).
Proof.
  intros Hnum Hundef.
  set (r := ParseString H _). vm_compute in r. subst r.
  eexists. split; [reflexivity|].
  assert (Hl : lookup H contextChain None (str "missing")
               = LRet VInvalid (Some (MissingVariableError (str "missing")))).
  { rewrite lookup_plain; [|now left|reflexivity|exact Hnum].
    now rewrite lookupChain_undefined. }
  cbv [str list_ascii_of_string] in Hl.
  unfold Render, renderTemplate. cbn [elems renderElems].
  split.
  - do 2 (rewrite renderElement_text; cbn iota).
    rewrite renderElement_var. unfold renderVar, lookupAllowMissing.
    rewrite Hl. cbn [andb IsMissingVariableError IsValid core].
    now rewrite renderElement_text.
  - do 2 (rewrite renderElement_text; cbn iota).
    rewrite renderElement_var. unfold renderVar, lookupAllowMissing.
    now rewrite Hl.
Qed.

Lemma indirect_invalid (v : value) :
  IsValid v = false \/ InterfaceIsNil v = true -> kind (indirect v) = KInvalid.
Proof.
  induction v as [| | | | | | | | | | | | e | e | ms v IH];
    try (intros [E|E]; discriminate E); try reflexivity.
  - destruct e; intros [E|E]; try discriminate E; reflexivity.
  - intros Hv. specialize (IH Hv). cbn [indirect].
    unfold IsValid, InterfaceIsNil, kind in *. cbn [core] in *.
    destruct (core v) eqn:Ec; try exact IH; try (destruct Hv; discriminate);
      cbn [core]; rewrite Ec; reflexivity.
Qed.


(** A body that is one empty text writes nothing, whatever the contexts. *)
Lemma renderContexts_empty_text (fuel : nat) (tmpl : Template)
  (contexts contextChain : list value) (buf : bytes) :
  renderContexts (renderElement H AllowMissingVariables fuel) tmpl
    [textElement []] contexts contextChain buf = (buf, ROk).
Proof.
  revert buf. induction contexts as [|ctx contexts IH]; intros buf;
    cbn [renderContexts renderElems]; [reflexivity|].
  rewrite renderElement_text, app_nil_r. apply IH.
Qed.

(** The render of [standaloneSource] when [x] resolves to a value that is
    not empty and is no callable. *)
Lemma render_standaloneSource (fuel : nat) (contextChain : list value)
  (v : value) :
  numberLiteral H (str "x") = None ->
  lookup H contextChain None (str "x") = LRet v None ->
  isEmpty v = false ->
  kind (indirect v) <> KFunc ->
  exists tmpl,
    ParseString H standaloneSource = POk tmpl
    /\ Render H AllowMissingVariables fuel tmpl contextChain
       = (str "A" ++ [nl] ++ str "B" ++ [nl], ROk).
Proof.
  intros Hnum Hx Hne Hfunc.
  set (r := ParseString H _). vm_compute in r. subst r.
  eexists. split; [reflexivity|].
  destruct contextChain as [|context chain].
  { rewrite lookup_plain in Hx; [|now left|reflexivity|exact Hnum].
    discriminate Hx. }
  unfold Render, renderTemplate.
  cbn [elems renderElems].
  rewrite renderElement_text, renderElement_section.
  unfold renderSection, lookupAllowMissing.
  cbv [str list_ascii_of_string] in Hx. rewrite Hx, Hne.
  cbn [negb andb orb].
  destruct (kind (indirect v)); try contradiction;
    rewrite renderContexts_empty_text, renderElement_text; reflexivity.
Qed.





End Examples.

(** C1, amended. The template [standaloneSource], rendered against contexts
    in which [x] resolves to a value that is not empty and is no function
    (a function makes the section a lambda section, whose returned text
    stands for the body), writes ["A\nB\n"]: the section
    tags and their lines leave no trace. And a tag that shares its source
    line with content that is not white space is never elided: [readTag]
    leaves the cursor right after the close delimiter, and the text emitted
    before the tag is the whole run up to the open delimiter, the blanks
    before the tag included. *)
Theorem standalone_line_elision (H : Host) :
  (forall (allow : bool) (fuel : nat) (contextChain : list value) (v : value),
      numberLiteral H (str "x") = None ->
      lookup H contextChain None (str "x") = LRet v None ->
      isEmpty v = false ->
      kind (indirect v) <> KFunc ->
      exists tmpl,
        ParseString H standaloneSource = POk tmpl
        /\ Render H allow fuel tmpl contextChain
           = (str "A" ++ [nl] ++ str "B" ++ [nl], ROk))
  /\ (forall (tmpl tmpl1 tmplq tmpl2 : Template) (tr : textReadingResult)
        (inner : bytes) (tg : tagReadingResult),
      readText tmpl = RTText tmpl1 tr ->
      readClose tmpl1 = RSFound tmplq inner ->
      readTag tmpl1 (mayStandalone tr) = POk (tmpl2, tg) ->
      contentBefore (data tmpl) (p tmpl1 - length (otag tmpl))
      \/ contentAfter (data tmpl) (p tmplq) ->
      tmpl2 = tmplq
      /\ text tr ++ (if standalone tg then [] else padding tr)
         = sub (data tmpl) (p tmpl) (p tmpl1 - length (otag tmpl))).
Proof.
  split.
  - intros allow fuel contextChain v. apply render_standaloneSource.
  - exact readTag_shared_line.
Qed.

(** ** [lookup] always returns: its fuel is never exhausted *)

Lemma HasPrefix_length (s prefix : bytes) :
  strings.HasPrefix s prefix = true -> length prefix <= length s.
Proof.
  intros E. apply HasPrefix_spec in E as [post ->].
  rewrite length_app. lia.
Qed.

Lemma Index_bound (s substr : bytes) (i : nat) :
  strings.Index s substr = Some i -> i + length substr <= length s.
Proof.
  revert i. induction s as [|c s IH]; intros i; cbn [strings.Index].
  - destruct (strings.HasPrefix [] substr) eqn:E; [|discriminate].
    intros Hi. injection Hi as <-. now apply HasPrefix_length in E.
  - destruct (strings.HasPrefix (c :: s) substr) eqn:E.
    + intros Hi. injection Hi as <-. now apply HasPrefix_length in E.
    + destruct (strings.Index s substr) as [j|]; [|discriminate].
      intros Hi. injection Hi as <-. specialize (IH j eq_refl).
      cbn [length]. lia.
Qed.

Lemma trimWith_length (width : bytes -> nat) (fuel : nat) (s : bytes) :
  length (strings.trimWith width fuel s) <= length s.
Proof.
  revert s. induction fuel as [|fuel IH]; intros s; cbn [strings.trimWith];
    [lia|].
  destruct (width s); [lia|].
  etransitivity; [apply IH|]. rewrite length_skipn. lia.
Qed.

Lemma TrimSpace_length (s : bytes) :
  length (strings.TrimSpace s) <= length s.
Proof.
  unfold strings.TrimSpace, strings.TrimRightSpace, strings.TrimLeftSpace.
  rewrite length_rev.
  etransitivity; [apply trimWith_length|]. rewrite length_rev.
  apply trimWith_length.
Qed.

Lemma Split1_length (s : bytes) (sep : ascii) (part : bytes) :
  In part (strings.Split1 s sep) -> length part <= length s.
Proof.
  revert part. induction s as [|c s IH]; intros part; cbn [strings.Split1].
  - intros [<-|[]]. lia.
  - destruct (Ascii.eqb c sep).
    + intros [<-|Hin]; cbn [length]; [lia|]. specialize (IH _ Hin). lia.
    + destruct (strings.Split1 s sep) as [|part0 parts].
      * intros [<-|[]]. cbn [length]. lia.
      * intros [<-|Hin]; cbn [length].
        -- specialize (IH part0 (or_introl eq_refl)). lia.
        -- specialize (IH part (or_intror Hin)). lia.
Qed.

Lemma stripDot_length (rest : bytes) : length (stripDot rest) <= length rest.
Proof.
  destruct rest as [|c rest]; [cbn; lia|].
  unfold stripDot. destruct (Ascii.ascii_dec c "."%char) as [->|N].
  - cbn [length]. lia.
  - destruct c as [[] [] [] [] [] [] [] []]; cbn [length]; lia.
Qed.

Lemma slice_length (s t : bytes) (lo hi : nat) :
  slice s lo hi = Some t -> length t = hi - lo /\ hi <= length s.
Proof.
  unfold slice. destruct (_ && _) eqn:E; [|discriminate].
  apply andb_true_iff in E as [E1 E2].
  apply Nat.leb_le in E1, E2. intros Ht. injection Ht as <-.
  rewrite length_firstn, length_skipn. lia.
Qed.

Section Totality.

Variable H : Host.

Lemma lookupChain_returns (name : bytes) (localChain : list value) :
  lookupChain H name localChain <> BFuel.
Proof.
  induction localChain as [|ctx chain IH]; cbn [lookupChain]; [discriminate|].
  destruct (lookupSteps H name (derefs ctx)); try discriminate; exact IH.
Qed.

Section TotalBody.

Variable rec : list value -> option value -> bytes -> lresult.
Variable name : bytes.

(** The recursive calls return on every name shorter than [name]. *)
Hypothesis rec_returns :
  forall contextChain left n,
    length n < length name -> rec contextChain left n <> LFuel.

Lemma ofL_returns (contextChain : list value) (left : option value)
  (n : bytes) :
  length n < length name -> ofL (rec contextChain left n) <> BFuel.
Proof.
  intros Hn. specialize (rec_returns contextChain left _ Hn).
  unfold ofL. destruct (rec contextChain left n); congruence.
Qed.

Lemma lookupArgs_returns (contextChain : list value) (v : value)
  (args : list bytes) (acc : list value) :
  (forall arg, In arg args -> length arg < length name) ->
  lookupArgs rec contextChain v args acc <> inl BFuel.
Proof.
  revert acc. induction args as [|arg args IH]; intros acc Hargs;
    cbn [lookupArgs]; [discriminate|].
  assert (Harg : length (strings.TrimSpace arg) < length name).
  { pose proof (TrimSpace_length arg).
    specialize (Hargs arg (or_introl eq_refl)). lia. }
  specialize (rec_returns contextChain None _ Harg).
  destruct (rec contextChain None (strings.TrimSpace arg)) as [val [err|]|];
    [discriminate| |congruence].
  apply IH. intros a Ha. apply Hargs. now right.
Qed.

Lemma lookupDot_returns (contextChain : list value) (left : option value) :
  lookupDot rec contextChain left name <> BFuel.
Proof.
  unfold lookupDot, strings.SplitN2.
  destruct (strings.Index name (str ".")) as [i|] eqn:Ei; [|discriminate].
  apply Index_bound in Ei. cbn [str list_ascii_of_string length] in Ei.
  assert (H0 : length (firstn i name) < length name)
    by (rewrite length_firstn; lia).
  assert (H1 : length (skipn (i + 1) name) < length name)
    by (rewrite length_skipn; lia).
  specialize (rec_returns contextChain left _ H0) as Hr.
  cbn [str list_ascii_of_string length].
  destruct (rec contextChain left (firstn i name)) as [v [err|]|];
    [discriminate| |congruence].
  destruct (startsWithNumber _); [discriminate|].
  now apply ofL_returns.
Qed.

Lemma lookupIndex_returns (contextChain : list value) (left : option value) :
  lookupIndex H rec contextChain left name <> BFuel.
Proof.
  unfold lookupIndex.
  destruct (strings.Index name (str "[")) as [openIndex|] eqn:Eo;
    [|discriminate].
  destruct (strings.Index name (str "]")) as [closeIndex|] eqn:Ec;
    [|discriminate].
  apply Index_bound in Eo, Ec. cbn [str list_ascii_of_string length] in Eo, Ec.
  destruct (slice name (openIndex + 1) closeIndex) as [indexVariable|] eqn:Es;
    [|discriminate].
  apply slice_length in Es as [Es _].
  set (rest := stripDot _).
  assert (Hrest : rest <> [] -> length rest < length name).
  { intros _. subst rest. pose proof (stripDot_length
      (if closeIndex + 1 <? length name
       then skipn (closeIndex + 1) name else [])) as Hs.
    destruct (closeIndex + 1 <? length name);
      [rewrite length_skipn in Hs|cbn [length] in Hs]; lia. }
  assert (Harr : match (if 0 <? openIndex then firstn openIndex name else [])
                 with
                 | _ :: _ =>
                     ofL (rec contextChain left
                            (if 0 <? openIndex then firstn openIndex name else []))
                 | [] => match left with
                         | Some l => BRet l None
                         | None => BPanic
                         end
                 end <> BFuel).
  { destruct (0 <? openIndex); [|destruct left; discriminate].
    destruct (firstn openIndex name) eqn:Ea; [destruct left; discriminate|].
    apply ofL_returns. rewrite <- Ea, length_firstn. lia. }
  destruct (match (if 0 <? openIndex then firstn openIndex name else []) with
            | [] => _ | _ :: _ => _ end) as [v [err|]| |];
    [discriminate| |discriminate|congruence].
  assert (Hidx : length indexVariable < length name) by lia.
  specialize (rec_returns contextChain None _ Hidx) as Hr.
  destruct (rec contextChain None indexVariable) as [iv [err|]|];
    [discriminate| |congruence].
  assert (Hfin : forall w, match rest with
                           | [] => BRet w None
                           | _ :: _ => ofL (rec contextChain (Some w) rest)
                           end <> BFuel).
  { intros w. destruct rest eqn:Er; [discriminate|].
    apply ofL_returns. apply Hrest. discriminate. }
  destruct (kind (unwrap v)); try discriminate.
  - destruct (toInt H (unwrap iv)) as [[i|]|]; try discriminate.
    destruct (Index (unwrap v) i); [apply Hfin|discriminate].
  - destruct (toInt H (unwrap iv)) as [[i|]|]; try discriminate.
    destruct (Index (unwrap v) i); [apply Hfin|discriminate].
  - destruct (MapIndex (unwrap v) (unwrap iv)) as [w|]; [|discriminate].
    destruct (negb (IsValid w)); [discriminate|apply Hfin].
Qed.

Lemma lookupCall_returns (contextChain : list value) (left : option value) :
  lookupCall H rec contextChain left name <> BFuel.
Proof.
  unfold lookupCall.
  destruct (strings.Index name (str "(")) as [openIndex|] eqn:Eo;
    [|discriminate].
  destruct (strings.Index name (str ")")) as [closeIndex|] eqn:Ec;
    [|discriminate].
  apply Index_bound in Eo, Ec. cbn [str list_ascii_of_string length] in Eo, Ec.
  destruct (slice name (openIndex + 1) closeIndex) as [argsVariable|] eqn:Es;
    [|discriminate].
  apply slice_length in Es as [Es _].
  set (args := match argsVariable with [] => [] | _ :: _ => _ end).
  assert (Hargs : forall arg, In arg args -> length arg < length name).
  { intros arg Hin. subst args. destruct argsVariable as [|c s]; [destruct Hin|].
    apply Split1_length in Hin. lia. }
  destruct (lookupFunction contextChain left (firstn openIndex name)
              (length args)) as [v [err|]]; [discriminate|].
  destruct (core (unwrap v)); try discriminate.
  pose proof (lookupArgs_returns contextChain (unwrap v) args [] Hargs) as Ha.
  destruct (lookupArgs rec contextChain (unwrap v) args []) as [r|ins];
    [congruence|].
  destruct f as [f|]; [|discriminate].
  destruct (Call H f ins) as [|ret0 err]; [discriminate|].
  destruct (if 1 <? numOut then err else None); [discriminate|].
  destruct (stripDot (skipn (closeIndex + 1) name)) eqn:Er; [discriminate|].
  apply ofL_returns. rewrite <- Er.
  pose proof (stripDot_length (skipn (closeIndex + 1) name)) as Hs.
  rewrite length_skipn in Hs. lia.
Qed.

Lemma lookupBody_returns (contextChain : list value) (left : option value) :
  lookupBody H rec contextChain left name <> BFuel.
Proof.
  unfold lookupBody.
  destruct (_ && _); [apply lookupDot_returns|].
  destruct (_ && _); [apply lookupIndex_returns|].
  destruct (_ && _); [apply lookupCall_returns|].
  destruct (isStringLiteral name).
  - destruct (slice name 1 (length name - 1)); discriminate.
  - destruct (numberLiteral H name); [discriminate|].
    apply lookupChain_returns.
Qed.

End TotalBody.

Lemma lookupN_returns (fuel : nat) (contextChain : list value)
  (left : option value) (name : bytes) :
  length name < fuel -> lookupN H fuel contextChain left name <> LFuel.
Proof.
  revert contextChain left name.
  induction fuel as [|fuel IH]; intros contextChain left name Hlt; [lia|].
  cbn [lookupN].
  pose proof (lookupBody_returns (lookupN H fuel) name) as Hb.
  specialize (Hb (fun c l n Hn => IH c l n ltac:(lia)) contextChain left).
  unfold recovered. destruct (lookupBody _ _ _ _ _); congruence.
Qed.

(** [lookup] is total: it returns a value and an error on every input. *)
Lemma lookup_returns (contextChain : list value) (left : option value)
  (name : bytes) :
  exists v err, lookup H contextChain left name = LRet v err.
Proof.
  pose proof (@lookupN_returns (S (length name)) contextChain left name
                (Nat.lt_succ_diag_r _)) as Hn.
  unfold lookup. destruct (lookupN _ _ _ _ _) as [v err|]; [|congruence].
  now exists v, err.
Qed.

End Totality.

(** ** Sections whose name is missing, and renders without contexts *)

Section Sections.

Variable H : Host.
Variable AllowMissingVariables : bool.

Lemma renderContexts_one
  (re : Template -> element -> list value -> bytes -> rres)
  (tmpl : Template) (es : list element) (ctx : value)
  (contextChain : list value) (buf : bytes) :
  renderContexts re tmpl es [ctx] contextChain buf
  = renderElems re tmpl es (ctx :: contextChain) buf.
Proof.
  cbn [renderContexts].
  destruct (renderElems re tmpl es (ctx :: contextChain) buf) as [b []];
    reflexivity.
Qed.

(** C5, amended. On a context stack that is not empty, a section whose name
    resolves to a Missing-Variable error is rendered as an empty value under
    both settings of [AllowMissingVariables]: the plain section writes
    nothing and returns no error, the inverted section renders its body
    once, with the top of the stack pushed again. *)
Theorem missing_section_is_empty (fuel : nat) (tmpl : Template)
  (name missing : bytes) (line : nat) (es : list element)
  (context v : value) (contextChain : list value) (buf : bytes) :
  lookup H (context :: contextChain) None name
  = LRet v (Some (MissingVariableError missing)) ->
  renderElement H AllowMissingVariables fuel tmpl
    (sectionElement name false line es) (context :: contextChain) buf
  = (buf, ROk)
  /\ renderElement H AllowMissingVariables fuel tmpl
       (sectionElement name true line es) (context :: contextChain) buf
   = renderElems (renderElement H AllowMissingVariables fuel) tmpl es
         (context :: context :: contextChain) buf.
Proof.
  intros Hl. rewrite !renderElement_section.
  unfold renderSection, lookupAllowMissing. rewrite Hl.
  cbn [IsMissingVariableError andb isEmpty IsValid core negb orb].
  split; [reflexivity|]. apply renderContexts_one.
Qed.

(** C10, amended. Without contexts a section never renders: when the
    resolution of its name returns an error that is no Missing-Variable
    error, that error is returned; in every other case, the body to be
    skipped or not, the read of [contextChain[0]] panics. *)
Theorem section_without_contexts (fuel : nat) (tmpl : Template)
  (name : bytes) (inverted : bool) (line : nat) (es : list element)
  (buf : bytes) :
  let r := renderElement H AllowMissingVariables fuel tmpl
             (sectionElement name inverted line es) [] buf in
  (r = (buf, RPanic)
   /\ exists v err, lookup H [] None name = LRet v err
        /\ match err with
           | Some e => IsMissingVariableError e = true
           | None => True
           end)
  \/ (exists v e, lookup H [] None name = LRet v (Some e)
        /\ IsMissingVariableError e = false /\ r = (buf, RErr e)).
Proof.
  cbn zeta. rewrite renderElement_section.
  unfold renderSection, lookupAllowMissing.
  destruct (lookup_returns H [] None name) as (v & err & ->).
  destruct err as [e|].
  - cbn [andb]. destruct (IsMissingVariableError e) eqn:Em.
    + left. split; [reflexivity|]. now exists v, (Some e).
    + right. now exists v, e.
  - left. split; [reflexivity|]. now exists v, None.
Qed.

End Sections.

(** C4: a sequence context ends the search with the error of
    [strconv.Atoi] instead of passing the name on to the outer contexts. *)
Theorem sequence_context_aborts_search (H : Host) (name : bytes)
  (xs : option (list value)) (outer : list value) :
  strings.IndexAny name (str ".[(") = None ->
  isStringLiteral name = false ->
  numberLiteral H name = None ->
  strings.eqb name (str "length") = false ->
  strings.eqb name (str "len") = false ->
  Atoi H name = None ->
  lookup H (VSlice xs :: outer) None name
  = LRet (VSlice xs) (Some (ENumError (str "Atoi") name)).
Proof.
  intros Hplain Hstr Hnum Hlength Hlen Hatoi.
  rewrite lookup_plain; [|now left|exact Hstr|exact Hnum].
  cbn [lookupChain derefs lookupSteps IsValid core negb].
  unfold probe1. cbn [methods scanMethods core].
  assert (Hdot : strings.eqb name (str ".") = false).
  { apply bytes_eqb_neq. intros ->. discriminate Hplain. }
  now rewrite Hdot, Hlength, Hlen, Hatoi.
Qed.

(** C6. [{{missing}}] against a context stack whose top is a slice, which
    defines no name [missing]: under both settings of
    [AllowMissingVariables] the render writes nothing and returns the error
    of [strconv.Atoi] on the name, neither success nor the Missing-Variable
    error, whatever the contexts under the slice are. The slice arm of
    [lookup] returns where the map and struct arms go on with the next
    context. *)
Theorem missing_variable_on_sequence (H : Host) (fuel : nat)
  (xs : option (list value)) (outer : list value) :
  numberLiteral H (str "missing") = None ->
  Atoi H (str "missing") = None ->
  exists tmpl,
    ParseString H (str "{{missing}}") = POk tmpl
    /\ Render H true fuel tmpl (VSlice xs :: outer)
       = ([], RErr (ENumError (str "Atoi") (str "missing")))
    /\ Render H false fuel tmpl (VSlice xs :: outer)
       = ([], RErr (ENumError (str "Atoi") (str "missing"))).
Proof.
  intros Hnum Hatoi.
  set (r := ParseString H _). vm_compute in r. subst r.
  eexists. split; [reflexivity|].
  assert (Hl : lookup H (VSlice xs :: outer) None (str "missing")
               = LRet (VSlice xs)
                   (Some (ENumError (str "Atoi") (str "missing")))).
  { rewrite lookup_plain; [|now left|reflexivity|exact Hnum].
    cbn [lookupChain derefs lookupSteps IsValid core negb].
    unfold probe1. cbn [methods scanMethods core].
    change (strings.eqb (str "missing") (str ".")) with false.
    change (strings.eqb (str "missing") (str "length")) with false.
    change (strings.eqb (str "missing") (str "len")) with false.
    cbn [orb]. now rewrite Hatoi. }
  cbv [str list_ascii_of_string] in Hl.
  unfold Render, renderTemplate. cbn [elems renderElems].
  split.
  - do 2 (rewrite renderElement_text; cbn iota).
    rewrite renderElement_var. unfold renderVar, lookupAllowMissing.
    now rewrite Hl.
  - do 2 (rewrite renderElement_text; cbn iota).
    rewrite renderElement_var. unfold renderVar, lookupAllowMissing.
    now rewrite Hl.
Qed.

(** C3: the index out of the range of a sequence panics inside [lookup];
    the panic is recovered there, and the render writes nothing and
    returns no error. *)
Theorem index_out_of_range_swallowed (H : Host) (allow : bool) (fuel : nat) :
  numberLiteral H (str "a") = None ->
  ParseInt H (str "5") = Some 5%Z ->
  exists tmpl,
    ParseString H (str "{{a[5]}}") = POk tmpl
    /\ lookup H
         [VMap (Some [(str "a", VSlice (Some [VInt 1; VInt 2; VInt 3]))])]
         None (str "a[5]") = LRet VInvalid None
    /\ Render H allow fuel tmpl
         [VMap (Some [(str "a", VSlice (Some [VInt 1; VInt 2; VInt 3]))])]
       = ([], ROk).
Proof.
  intros Ha H5.
  set (r := ParseString H _). vm_compute in r. subst r.
  eexists. split; [reflexivity|].
  assert (Hl : lookup H
         [VMap (Some [(str "a", VSlice (Some [VInt 1; VInt 2; VInt 3]))])]
         None (str "a[5]") = LRet VInvalid None).
  { assert (E5 : numberLiteral H (str "5") = Some (VInt 5))
      by (unfold numberLiteral; now rewrite H5).
    unfold lookup. cbn.
    change (numberLiteral H ["a"%char]) with (numberLiteral H (str "a")).
    change (numberLiteral H ["5"%char]) with (numberLiteral H (str "5")).
    rewrite Ha, E5. reflexivity. }
  split; [exact Hl|].
  unfold Render, renderTemplate.
  cbn [elems renderElems].
  rewrite renderElement_text. cbn iota.
  rewrite renderElement_text. cbn iota.
  rewrite renderElement_var. unfold renderVar, lookupAllowMissing.
  cbv [str list_ascii_of_string] in Hl |- *. rewrite Hl.
  cbn [IsValid core]. rewrite renderElement_text. reflexivity.
Qed.

(** C2: a delimiter tag whose body between the equal signs is a single
    token compiles without error and leaves the delimiters as they were. *)
Theorem meta_tag_one_token_accepted (partials : PartialProvider)
  (forceRaw : bool) :
  exists tmpl,
    ParseStringPartialsRaw (str "{{=x=}}") partials forceRaw = POk tmpl
    /\ otag tmpl = str "{{" /\ ctag tmpl = str "}}"
    /\ elems tmpl = [textElement []; textElement []].
Proof. eexists. repeat split; reflexivity. Qed.

(** ** The round trip: serialized elements *)

Lemma serialize_section (name : bytes) (inverted : bool) (line : nat)
  (es : list element) :
  serialize (sectionElement name inverted line es)
  = openTag name inverted ++ serializeAll es ++ closeTag name.
Proof. reflexivity. Qed.

Lemma tagsIn_section (name : bytes) (inverted : bool) (line : nat)
  (es : list element) :
  tagsIn (sectionElement name inverted line es) = S (tagCount es).
Proof. reflexivity. Qed.

Lemma nodesIn_section (name : bytes) (inverted : bool) (line : nat)
  (es : list element) :
  nodesIn (sectionElement name inverted line es) = S (size es).
Proof. reflexivity. Qed.

Lemma normInto_section (name : bytes) (inverted : bool) (line : nat)
  (es rest : list element) :
  normInto (sectionElement name inverted line es) rest
  = sectionElement name inverted 0 (norm es) :: rest.
Proof. reflexivity. Qed.

Lemma wellFormed_section (before after name : bytes) (inverted : bool)
  (line : nat) (es : list element) :
  wellFormed before (sectionElement name inverted line es) after
  = nameOk name
    && negb (aloneOnLine before (serializeAll es ++ closeTag name ++ after))
    && wellFormedAll (before ++ openTag name inverted) es
         (closeTag name ++ after)
    && negb (aloneOnLine (before ++ openTag name inverted ++ serializeAll es)
               after).
Proof.
  cbn [wellFormed]. do 2 f_equal.
  generalize (before ++ openTag name inverted).
  induction es as [|e es IH]; intros b; [reflexivity|].
  cbn [wellFormedAll]. rewrite <- IH. reflexivity.
Qed.

Lemma nodesIn_pos (e : element) : 0 < nodesIn e.
Proof. destruct e; cbn; lia. Qed.

(** ** The round trip: trimming a tag *)

Lemma graphic_width (c : ascii) (s : bytes) :
  graphic c = true ->
  strings.spaceWidth (c :: s) = 0 /\ strings.spaceWidthRev (c :: s) = 0.
Proof.
  unfold graphic. intros G. apply andb_true_iff in G as [G1 G2].
  apply Nat.leb_le in G1, G2.
  unfold strings.spaceWidth, strings.spaceWidthRev. cbn [map].
  set (n := nat_of_ascii c) in *.
  assert (E1 : strings.isAsciiSpace n = false).
  { unfold strings.isAsciiSpace. apply orb_false_iff. split.
    - apply andb_false_iff. right. apply Nat.leb_gt. lia.
    - apply Nat.eqb_neq. lia. }
  assert (E2 : forall b, strings.isSpace2 n b = false).
  { intros b. unfold strings.isSpace2.
    replace (n =? 194) with false by (symmetry; apply Nat.eqb_neq; lia).
    reflexivity. }
  assert (E3 : forall a b, strings.isSpace3 n a b = false).
  { intros a b. unfold strings.isSpace3.
    replace (n =? 225) with false by (symmetry; apply Nat.eqb_neq; lia).
    replace (n =? 226) with false by (symmetry; apply Nat.eqb_neq; lia).
    replace (n =? 227) with false by (symmetry; apply Nat.eqb_neq; lia).
    reflexivity. }
  assert (E2' : forall a, strings.isSpace2 a n = false).
  { intros a. unfold strings.isSpace2.
    replace (n =? 133) with false by (symmetry; apply Nat.eqb_neq; lia).
    replace (n =? 160) with false by (symmetry; apply Nat.eqb_neq; lia).
    now rewrite andb_false_r. }
  assert (E3' : forall a b, strings.isSpace3 a b n = false).
  { intros a b. unfold strings.isSpace3, strings.isE280Space.
    replace (n =? 128) with false by (symmetry; apply Nat.eqb_neq; lia).
    replace (n =? 159) with false by (symmetry; apply Nat.eqb_neq; lia).
    replace (n =? 168) with false by (symmetry; apply Nat.eqb_neq; lia).
    replace (n =? 169) with false by (symmetry; apply Nat.eqb_neq; lia).
    replace (n =? 175) with false by (symmetry; apply Nat.eqb_neq; lia).
    replace (128 <=? n) with false by (symmetry; apply Nat.leb_gt; lia).
    cbn [andb orb]. now rewrite !andb_false_r. }
  rewrite E1. split.
  - destruct (map nat_of_ascii s) as [|b [|d r]]; [reflexivity| |];
      now rewrite E2, ?E3.
  - destruct (map nat_of_ascii s) as [|b [|d r]]; [reflexivity| |];
      now rewrite E2', ?E3'.
Qed.

Lemma trimWith_stuck (width : bytes -> nat) (fuel : nat) (s : bytes) :
  width s = 0 -> strings.trimWith width fuel s = s.
Proof. intros E. destruct fuel; cbn [strings.trimWith]; now rewrite ?E. Qed.

(** Trimming leaves a string with a printable character at either end as
    it is. *)
Lemma TrimSpace_graphic (c : ascii) (s : bytes) :
  graphic c = true -> graphic (last (c :: s) c) = true ->
  strings.TrimSpace (c :: s) = c :: s.
Proof.
  intros Gc Gl.
  unfold strings.TrimSpace, strings.TrimLeftSpace, strings.TrimRightSpace.
  rewrite (trimWith_stuck _ _ _ (proj1 (graphic_width c s Gc))).
  assert (Hrev : exists r, rev (c :: s) = last (c :: s) c :: r).
  { destruct (@exists_last _ (c :: s)) as (front & z & E); [discriminate|].
    rewrite E, last_last, rev_app_distr. cbn. now exists (rev front). }
  destruct Hrev as [r Hr].
  rewrite trimWith_stuck.
  - apply rev_involutive.
  - rewrite Hr. apply (graphic_width _ r Gl).
Qed.

Lemma last_default (s : bytes) (x y : ascii) :
  s <> [] -> last s x = last s y.
Proof.
  induction s as [|c s IH]; [congruence|]. intros _.
  destruct s as [|d s]; [reflexivity|]. cbn [last] in *.
  apply IH. discriminate.
Qed.

Lemma TrimSpace_nil : strings.TrimSpace [] = [].
Proof. reflexivity. Qed.

Lemma nameOk_parts (name : bytes) :
  nameOk name = true ->
  forallb (fun c => negb (Ascii.eqb c "}")) name = true
  /\ strings.TrimSpace name = name
  /\ (forall c, graphic c = true ->
        strings.TrimSpace (c :: name) = c :: name).
Proof.
  unfold nameOk. intros E. apply andb_true_iff in E as [E1 E2].
  split; [exact E1|]. destruct name as [|d name].
  - split; [reflexivity|]. intros c G. now apply TrimSpace_graphic.
  - apply andb_true_iff in E2 as [G1 G2]. split.
    + now apply TrimSpace_graphic.
    + intros c G. apply TrimSpace_graphic; [exact G|].
      change (last (c :: d :: name) c) with (last (d :: name) c).
      rewrite (last_default (d :: name) c d); [exact G2|discriminate].
Qed.

(** ** The round trip: the tokenizer on a serialized text *)

Lemma skipn_length_app (a b : bytes) : skipn (length a) (a ++ b) = b.
Proof. induction a; [reflexivity|assumption]. Qed.

Lemma firstn_length_app (a b : bytes) : firstn (length a) (a ++ b) = a.
Proof. induction a as [|c a IH]; [reflexivity|]. cbn. now rewrite IH. Qed.

Lemma sub_exact (a t b : bytes) :
  sub (a ++ t ++ b) (length a) (length a + length t) = t.
Proof.
  unfold sub. rewrite skipn_length_app.
  replace (length a + length t - length a) with (length t) by lia.
  apply firstn_length_app.
Qed.

Lemma at_app_left (a b : bytes) (j : nat) :
  j < length a -> at_ (a ++ b) j = at_ a j.
Proof. intros Hj. unfold at_. now apply app_nth1. Qed.

Lemma at_app_right (a b : bytes) (j : nat) :
  at_ (a ++ b) (length a + j) = at_ b j.
Proof.
  unfold at_. rewrite app_nth2 by lia. f_equal. lia.
Qed.

(** [readString] finds [s0 :: s'] right after a text that holds no
    [s0]. *)
Lemma readString_loop_find (s0 : ascii) (s' T rest : bytes) (i n : nat) :
  (forall c, In c T -> c <> s0) ->
  exists n', readString_loop (s0 :: s') (T ++ s0 :: s' ++ rest) i n
             = Some (i + length T + S (length s'), n').
Proof.
  intros HT. revert i n. induction T as [|c T IH]; intros i n.
  - cbn [app readString_loop length at_ nth tl].
    replace (S (length (s' ++ rest)) <? S (length s')) with false.
    2:{ symmetry. apply Nat.ltb_ge. rewrite length_app. lia. }
    rewrite Ascii.eqb_refl. cbn [negb].
    replace (strings.HasPrefix (s' ++ rest) s') with true.
    2:{ symmetry. apply HasPrefix_spec. now exists rest. }
    eexists. f_equal. f_equal. lia.
  - cbn [app readString_loop length at_ nth].
    replace (S (length (T ++ s0 :: s' ++ rest)) <? S (length s')) with false.
    2:{ symmetry. apply Nat.ltb_ge. rewrite !length_app. cbn [length].
        rewrite length_app. lia. }
    assert (Hc : Ascii.eqb c s0 = false).
    { apply Ascii.eqb_neq. apply HT. now left. }
    rewrite Hc. cbn [negb].
    destruct (IH (fun x Hx => HT x (or_intror Hx)) (S i)
                (if Ascii.eqb c nl then S n else n)) as [n' E].
    rewrite E. eexists. f_equal. f_equal. lia.
Qed.

Lemma readString_at (tmpl : Template) (pre T rest : bytes) (s0 : ascii)
  (s' : bytes) :
  data tmpl = pre ++ T ++ s0 :: s' ++ rest ->
  p tmpl = length pre ->
  (forall c, In c T -> c <> s0) ->
  exists l,
    readString tmpl (s0 :: s')
    = RSFound (at_pos tmpl (length pre + length T + S (length s')) l)
        (T ++ s0 :: s').
Proof.
  intros Hd Hp HT. unfold readString. rewrite Hd, Hp, skipn_length_app.
  destruct (readString_loop_find s0 s' T rest (length pre) 0 HT) as [n' ->].
  exists (curline tmpl + n'). unfold at_pos. f_equal.
  replace (length pre + length T + S (length s') - length pre)
    with (length (T ++ s0 :: s')) by (rewrite length_app; cbn [length]; lia).
  change (T ++ s0 :: s' ++ rest) with (T ++ (s0 :: s') ++ rest).
  rewrite (app_assoc T (s0 :: s') rest). apply firstn_length_app.
Qed.

Lemma noBrace_In (T : bytes) :
  noBrace T = true -> forall c, In c T -> c <> "{"%char.
Proof.
  unfold noBrace. rewrite forallb_forall. intros Hall c Hin ->.
  specialize (Hall _ Hin). discriminate.
Qed.

Lemma noBrace_app (a b : bytes) :
  noBrace (a ++ b) = noBrace a && noBrace b.
Proof. apply forallb_app. Qed.

Lemma noBrace_no_tag (T : bytes) :
  noBrace T = true -> ~ occurs (str "{{") T.
Proof.
  intros Hn (pre & post & E). apply (noBrace_In T Hn "{"%char); [|reflexivity].
  rewrite E. apply in_or_app. right. now left.
Qed.

Lemma dropBlanks_spec (s : bytes) :
  exists k, k <= length s /\ dropBlanks s = skipn k s
            /\ (forall i, i < k -> isBlank (nth i s zero) = true)
            /\ match dropBlanks s with
               | c :: _ => isBlank c = false /\ k < length s
               | [] => k = length s
               end.
Proof.
  induction s as [|c s IH].
  - exists 0. cbn. repeat split; intros; lia.
  - cbn [dropBlanks]. destruct (isBlank c) eqn:Ec.
    + destruct IH as (k & Hk & Hd & Hb & Hh). exists (S k).
      cbn [length skipn]. split; [lia|]. split; [exact Hd|]. split.
      * intros [|i] Hi; [exact Ec|]. apply Hb. lia.
      * destruct (dropBlanks s); [lia|]. destruct Hh. split; [assumption|lia].
    + exists 0. cbn [length skipn]. split; [lia|]. split; [reflexivity|].
      split; [intros i Hi; lia|]. split; [exact Ec|lia].
Qed.

Lemma isBlank_not_nl (c : ascii) : isBlank c = true -> c <> nl.
Proof. intros E ->. discriminate E. Qed.

(** A byte that is no blank and no line feed before [t], with no line feed
    after it: the backward scan does not end at a line start. *)
Lemma scanBack_solid (d : bytes) (pPrev t : nat) :
  pPrev <= t ->
  (exists j, j < t /\ isBlank (at_ d j) = false /\ at_ d j <> nl
             /\ forall k, j < k < t -> at_ d k <> nl) ->
  let i := scanBack d pPrev t in
  (i =? 0) || Ascii.eqb (at_ d (i - 1)) nl = false.
Proof.
  intros Hle (j & Hj & Hb & Hn & Hnl). cbn zeta.
  destruct (scanBack_spec d pPrev t Hle) as (Hr & Hbl & Hstop).
  set (i := scanBack d pPrev t) in *.
  assert (Hji : j < i).
  { destruct (Nat.le_gt_cases i j) as [Hij|]; [|assumption].
    rewrite Hbl in Hb; [discriminate|lia]. }
  apply orb_false_iff. split; [apply Nat.eqb_neq; lia|].
  destruct (Ascii.eqb (at_ d (i - 1)) nl) eqn:E; [|reflexivity].
  apply Ascii.eqb_eq in E. exfalso.
  destruct (Nat.eq_dec (i - 1) j) as [Ej|Nj].
  - rewrite Ej in E. contradiction.
  - revert E. apply Hnl. lia.
Qed.

Lemma lineStart_solid (b rest : bytes) :
  lineStartBefore b = false ->
  exists j, j < length b /\ isBlank (at_ (b ++ rest) j) = false
            /\ at_ (b ++ rest) j <> nl
            /\ forall k, j < k < length b -> at_ (b ++ rest) k <> nl.
Proof.
  unfold lineStartBefore.
  destruct (dropBlanks_spec (rev b)) as (k & Hk & Hd & Hb & Hh).
  destruct (dropBlanks (rev b)) as [|c r] eqn:E; [discriminate|].
  intros Hc. destruct Hh as [Hcb Hlt]. rewrite length_rev in *.
  assert (Hnth : nth k (rev b) zero = c).
  { rewrite <- (Nat.add_0_r k), <- nth_skipn, <- Hd. reflexivity. }
  rewrite rev_nth in Hnth by lia.
  exists (length b - S k). split; [lia|].
  rewrite at_app_left by lia. unfold at_ at 1 2. rewrite Hnth.
  split; [exact Hcb|]. split; [now apply Ascii.eqb_neq|].
  intros m Hm. rewrite at_app_left by lia. apply isBlank_not_nl.
  specialize (Hb (length b - S m) ltac:(lia)).
  rewrite rev_nth in Hb by lia.
  replace (length b - S (length b - S m)) with m in Hb by lia. exact Hb.
Qed.

(** [readText] before a tag: the text read and the padding are the pending
    text [T], and the tag may only be standalone at a line start. *)
Lemma readText_tag (tmpl : Template) (pre T rest : bytes) :
  data tmpl = pre ++ T ++ str "{{" ++ rest ->
  p tmpl = length pre ->
  otag tmpl = str "{{" ->
  noBrace T = true ->
  exists l tr,
    readText tmpl = RTText (at_pos tmpl (length pre + length T + 2) l) tr
    /\ text tr ++ padding tr = T
    /\ (mayStandalone tr = true -> lineStartBefore (pre ++ T) = true)
    /\ (mayStandalone tr = false -> padding tr = []).
Proof.
  intros Hd Hp Ho HT. unfold readText. rewrite Ho.
  change (str "{{") with ("{"%char :: str "{").
  destruct (readString_at tmpl pre T rest "{"%char (str "{") Hd Hp
              (noBrace_In T HT)) as [l ->].
  exists l.
  set (tmpl1 := at_pos tmpl (length pre + length T + S (length (str "{"))) l).
  change (data tmpl1) with (data tmpl).
  change (otag tmpl1) with (otag tmpl).
  change (p tmpl1) with (length pre + length T + 2).
  rewrite Ho, Hp. cbn [str list_ascii_of_string length].
  replace (length pre + length T + 2 - 2) with (length pre + length T) by lia.
  assert (Hle : length pre <= length pre + length T) by lia.
  destruct (scanBack_spec (data tmpl) (length pre) _ Hle) as (Hr & _ & _).
  set (i := scanBack (data tmpl) (length pre) (length pre + length T)) in *.
  destruct ((i =? 0) || Ascii.eqb (at_ (data tmpl) (i - 1)) nl) eqn:Hms.
  - eexists. split; [reflexivity|]. cbn [text padding mayStandalone].
    split; [|split; [|discriminate]].
    + rewrite sub_app by lia. rewrite Hd. apply sub_exact.
    + intros _. destruct (lineStartBefore (pre ++ T)) eqn:Els; [reflexivity|].
      apply (lineStart_solid _ (str "{{" ++ rest)) in Els.
      rewrite length_app, <- app_assoc, <- Hd in Els.
      apply (scanBack_solid _ (length pre) _ Hle) in Els. cbn zeta in Els.
      fold i in Els. congruence.
  - eexists. split; [reflexivity|]. cbn [text padding mayStandalone].
    split; [|split; [discriminate|reflexivity]].
    rewrite app_nil_r, Hd. apply sub_exact.
Qed.

(** [readText] on a rest without tag. *)
Lemma readText_end (tmpl : Template) (pre T : bytes) :
  data tmpl = pre ++ T ->
  p tmpl = length pre ->
  otag tmpl = str "{{" ->
  noBrace T = true ->
  readText tmpl = RTEOF (mkTextReadingResult T [] false).
Proof.
  intros Hd Hp Ho HT. unfold readText. rewrite Ho.
  rewrite readString_EOF; rewrite ?Hd, ?Hp, ?skipn_length_app;
    [reflexivity|discriminate|now apply noBrace_no_tag].
Qed.

Lemma Contains_single (s : bytes) (c : ascii) :
  strings.Contains s [c] = strings.mem c s.
Proof.
  unfold strings.Contains, strings.mem.
  induction s as [|d s IH]; [reflexivity|].
  cbn [strings.Index strings.HasPrefix existsb].
  destruct (Ascii.eqb c d); cbn [andb orb]; [reflexivity|].
  rewrite <- IH. now destruct (strings.Index s [c]).
Qed.

Lemma findEow_first (s : bytes) (i e k : nat) :
  (forall j, j < k -> isBlank (nth j s zero) = true) ->
  isBlank (nth k s zero) = false -> k < length s ->
  findEow s i e = i + k.
Proof.
  revert i k. induction s as [|c s IH]; intros i k Hb Hk Hlt;
    [cbn in Hlt; lia|].
  cbn [findEow]. destruct k as [|k].
  - cbn [nth] in Hk. rewrite Hk. cbn [negb]. lia.
  - pose proof (Hb 0 ltac:(lia)) as H0. cbn [nth] in H0. rewrite H0.
    cbn [negb].
    rewrite (IH (S i) k); [lia| |exact Hk|cbn in Hlt; lia].
    intros j Hj. apply (Hb (S j)). lia.
Qed.

(** When more than blanks and a line end follows the tag, none of the
    three tests of [readTag] for a standalone tag holds. *)
Lemma lineEnd_tests (d after : bytes) (q : nat) :
  skipn q d = after -> q <= length d ->
  lineEndAfter after = false ->
  let eow := findEow after q q in
  (eow =? length d) = false
  /\ (eow <? length d) && Ascii.eqb (at_ d eow) nl = false
  /\ (eow + 1 <? length d) && Ascii.eqb (at_ d eow) cr
     && Ascii.eqb (at_ d (eow + 1)) nl = false.
Proof.
  intros Hs Hq Hl. cbn zeta. unfold lineEndAfter in Hl.
  destruct (dropBlanks_spec after) as (k & Hk & Hd & Hb & Hh).
  destruct (dropBlanks after) as [|x r] eqn:E; [discriminate|].
  destruct Hh as [Hx Hlt].
  assert (Hlen : length after = length d - q)
    by (rewrite <- Hs; apply length_skipn).
  assert (Hnth : nth k after zero = x).
  { rewrite <- (Nat.add_0_r k), <- nth_skipn, <- Hd. reflexivity. }
  rewrite (findEow_first after q q k Hb); [|now rewrite Hnth|exact Hlt].
  assert (Hat : at_ d (q + k) = x)
    by (rewrite <- nth_skipn_at, Hs; exact Hnth).
  apply orb_false_iff in Hl as [Hnl Hcr].
  split; [apply Nat.eqb_neq; lia|]. rewrite Hat, Hnl.
  split; [apply andb_false_r|].
  destruct (Ascii.eqb x cr); [|now rewrite andb_false_r].
  cbn [andb] in Hcr. rewrite andb_true_r.
  destruct r as [|y r].
  - replace (q + k + 1 <? length d) with false; [reflexivity|].
    symmetry. apply Nat.ltb_ge.
    assert (Hlk : length (skipn k after) = 1) by now rewrite <- Hd.
    rewrite length_skipn in Hlk. lia.
  - replace (at_ d (q + k + 1)) with y; [now rewrite Hcr, andb_false_r|].
    rewrite <- Nat.add_assoc, <- nth_skipn_at, Hs.
    rewrite <- nth_skipn, <- Hd. reflexivity.
Qed.

(** [readTag] on a tag that is no raw variable and is not elided. *)
Lemma readTag_plain (tmpl : Template) (pre n after : bytes) (c : ascii)
  (ms : bool) :
  data tmpl = pre ++ (c :: n) ++ str "}}" ++ after ->
  p tmpl = length pre ->
  ctag tmpl = str "}}" ->
  c <> "{"%char ->
  (forall x, In x (c :: n) -> x <> "}"%char) ->
  strings.TrimSpace (c :: n) = c :: n ->
  (ms = true -> oneOf c "#^/<>=!" = true -> lineEndAfter after = false) ->
  exists l,
    readTag tmpl ms
    = POk (at_pos tmpl (length pre + S (length n) + 2) l,
           mkTagReadingResult (c :: n) (negb ms)).
Proof.
  intros Hd Hp Hc Hbrace Hclose Htrim Hend.
  unfold readTag, readClose.
  assert (Hat : at_ (data tmpl) (p tmpl) = c).
  { rewrite Hd, Hp, <- (Nat.add_0_r (length pre)). apply at_app_right. }
  rewrite Hat. replace (Ascii.eqb c "{") with false
    by (symmetry; now apply Ascii.eqb_neq).
  rewrite andb_false_r, Hc.
  change (str "}}") with ("}"%char :: str "}").
  destruct (readString_at tmpl pre (c :: n) after "}"%char (str "}"))
    as [l ->]; [exact Hd|exact Hp|exact Hclose|].
  exists l.
  set (tmpl1 := at_pos tmpl _ l).
  change (ctag tmpl1) with (ctag tmpl). change (data tmpl1) with (data tmpl).
  change (p tmpl1) with (length pre + length (c :: n) + S (length (str "}"))).
  change (curline tmpl1) with l.
  rewrite Hc. cbn [str list_ascii_of_string length].
  replace (firstn _ _) with (c :: n).
  2:{ rewrite length_app. cbn [length].
      replace (S (length n) + 2 - 2) with (length (c :: n))
        by (cbn [length]; lia).
      symmetry. apply firstn_length_app. }
  rewrite Htrim. cbn [length Nat.eqb].
  destruct ms; cbn [negb]; [|reflexivity].
  cbn [firstn]. rewrite Contains_single.
  change (strings.mem c SkipWhitespaceTagTypes) with (oneOf c "#^/<>=!").
  destruct (oneOf c "#^/<>=!") eqn:Eblock; cbn [negb]; [|reflexivity].
  specialize (Hend eq_refl eq_refl).
  set (q := length pre + S (length n) + 2).
  assert (Hskip : skipn q (data tmpl) = after).
  { rewrite Hd. subst q.
    replace (length pre + S (length n) + 2)
      with (length (pre ++ (c :: n) ++ str "}}"))
      by (rewrite !length_app; cbn [str list_ascii_of_string length]; lia).
    replace (pre ++ (c :: n) ++ str "}}" ++ after)
      with ((pre ++ (c :: n) ++ str "}}") ++ after)
      by (now rewrite <- !app_assoc).
    apply skipn_length_app. }
  assert (Hq : q <= length (data tmpl)).
  { rewrite Hd. subst q. rewrite !length_app.
    cbn [str list_ascii_of_string length]. rewrite ?length_app. lia. }
  rewrite Hskip.
  destruct (lineEnd_tests (data tmpl) after q Hskip Hq Hend) as (E1 & E2 & E3).
  now rewrite E1, E2, E3.
Qed.

(** [readTag] on a raw variable in braces. *)
Lemma readTag_raw (tmpl : Template) (pre n after : bytes) (ms : bool) :
  data tmpl = pre ++ ("{"%char :: n) ++ str "}}}" ++ after ->
  p tmpl = length pre ->
  ctag tmpl = str "}}" ->
  (forall x, In x n -> x <> "}"%char) ->
  exists l,
    readTag tmpl ms
    = POk (at_pos tmpl (length pre + S (length n) + 3) l,
           mkTagReadingResult ("{"%char :: n ++ str "}") (negb ms)).
Proof.
  intros Hd Hp Hc Hclose.
  unfold readTag, readClose.
  assert (Hat : at_ (data tmpl) (p tmpl) = "{"%char).
  { rewrite Hd, Hp, <- (Nat.add_0_r (length pre)). apply at_app_right. }
  assert (Hlt : (p tmpl <? length (data tmpl)) = true).
  { apply Nat.ltb_lt. rewrite Hd, Hp, !length_app. cbn [length]. lia. }
  rewrite Hat, Hlt, Hc. cbn [andb Ascii.eqb Bool.eqb].
  change ("}"%char :: str "}}") with ("}"%char :: str "}}").
  destruct (readString_at tmpl pre ("{"%char :: n) after "}"%char (str "}}"))
    as [l ->]; [exact Hd|exact Hp| |].
  { intros x [<-|Hin]; [discriminate|now apply Hclose]. }
  exists l.
  set (tmpl1 := at_pos tmpl _ l).
  change (ctag tmpl1) with (ctag tmpl). change (data tmpl1) with (data tmpl).
  change (curline tmpl1) with l.
  rewrite Hc. cbn [str list_ascii_of_string length].
  replace (firstn _ _) with ("{"%char :: n ++ str "}").
  2:{ rewrite length_app. cbn [length].
      replace (S (length n) + 3 - 2) with (length ("{"%char :: n ++ str "}"))
        by (cbn [length]; rewrite length_app; cbn; lia).
      change (("{"%char :: n) ++ ["}"%char; "}"%char; "}"%char])
        with ("{"%char :: n ++ str "}" ++ str "}}").
      rewrite (app_assoc n). symmetry.
      apply (firstn_length_app ("{"%char :: n ++ str "}")). }
  rewrite TrimSpace_graphic; [|reflexivity|].
  2:{ change ("{"%char :: n ++ str "}") with (("{"%char :: n) ++ ["}"%char]).
      now rewrite last_last. }
  cbn [length Nat.eqb firstn]. rewrite Contains_single.
  subst tmpl1. unfold at_pos. cbn [length str list_ascii_of_string].
  destruct ms; reflexivity.
Qed.

(** ** The round trip: normal forms *)

Lemma consText_nil (es : list element) : consText [] es = es.
Proof. destruct es as [|[] es]; reflexivity. Qed.

Lemma consText_app (a b : bytes) (es : list element) :
  consText a (consText b es) = consText (a ++ b) es.
Proof.
  destruct es as [|e es].
  - destruct b; cbn [consText]; [now rewrite app_nil_r|].
    destruct a; reflexivity.
  - destruct e; cbn [consText];
      try (destruct b; cbn [consText];
           [now rewrite app_nil_r | destruct a; reflexivity]).
    now rewrite app_assoc.
Qed.

Lemma norm_text (t : bytes) (es : list element) :
  norm (textElement t :: es) = consText t (norm es).
Proof. reflexivity. Qed.

Lemma norm_app (es1 es2 es2' : list element) :
  norm es2 = norm es2' -> norm (es1 ++ es2) = norm (es1 ++ es2').
Proof.
  intros E. induction es1 as [|e es1 IH]; [exact E|].
  cbn [app norm]. now rewrite IH.
Qed.

(** The text and the padding that the compiler emits before a tag that is
    not elided are the pending text. *)
Lemma norm_pieces (tr : textReadingResult) (T : bytes) (es : list element) :
  text tr ++ padding tr = T ->
  (mayStandalone tr = false -> padding tr = []) ->
  norm ([textElement (text tr)]
        ++ (if negb (negb (mayStandalone tr))
            then [textElement (padding tr)] else [])
        ++ es)
  = consText T (norm es).
Proof.
  intros HT Hpad. destruct (mayStandalone tr); cbn [negb app].
  - rewrite !norm_text, consText_app. now rewrite HT.
  - rewrite norm_text. rewrite Hpad in HT by reflexivity.
    now rewrite app_nil_r in HT; subst.
Qed.

Lemma plain_dispatch (c : ascii) :
  oneOf c "!#^/<>={&" = false ->
  oneOf c "!" = false /\ oneOf c "#^" = false /\ oneOf c "/" = false
  /\ oneOf c ">" = false /\ oneOf c "=" = false /\ oneOf c "{" = false
  /\ oneOf c "&" = false /\ oneOf c "#^/<>=!" = false /\ c <> "{"%char.
Proof.
  unfold oneOf, strings.mem. cbn [str list_ascii_of_string existsb].
  intros E. repeat (apply orb_false_iff in E as [? E]).
  repeat match goal with H : Ascii.eqb c _ = false |- _ => rewrite H end.
  repeat split. intros ->. discriminate.
Qed.

Lemma nameOk_In (name : bytes) :
  nameOk name = true -> forall x, In x name -> x <> "}"%char.
Proof.
  intros Hn x Hin ->. apply nameOk_parts in Hn as (Hall & _).
  rewrite forallb_forall in Hall. specialize (Hall _ Hin). discriminate.
Qed.

Lemma at_pos_at_pos (tmpl : Template) (q l q' l' : nat) :
  at_pos (at_pos tmpl q l) q' l' = at_pos tmpl q' l'.
Proof. reflexivity. Qed.

(** ** The round trip: one turn of the compiler *)

(** The text before a tag and the tag, read by [readText] and [readTag],
    when the tag is not elided. *)
Lemma read_plain_tag (tmpl : Template) (pre T n rest : bytes) (c : ascii) :
  data tmpl = pre ++ T ++ str "{{" ++ (c :: n) ++ str "}}" ++ rest ->
  p tmpl = length pre ->
  otag tmpl = str "{{" -> ctag tmpl = str "}}" ->
  noBrace T = true ->
  c <> "{"%char ->
  (forall x, In x (c :: n) -> x <> "}"%char) ->
  strings.TrimSpace (c :: n) = c :: n ->
  (lineStartBefore (pre ++ T) = true -> oneOf c "#^/<>=!" = true ->
   lineEndAfter rest = false) ->
  exists l1 l2 tr,
    readText tmpl = RTText (at_pos tmpl (length pre + length T + 2) l1) tr
    /\ readTag (at_pos tmpl (length pre + length T + 2) l1) (mayStandalone tr)
       = POk (at_pos tmpl (length pre + length T + 2 + S (length n) + 2) l2,
              mkTagReadingResult (c :: n) (negb (mayStandalone tr)))
    /\ text tr ++ padding tr = T
    /\ (mayStandalone tr = false -> padding tr = []).
Proof.
  intros Hd Hp Ho Hc HT Hbrace Hclose Htrim Hend.
  destruct (readText_tag tmpl pre T _ Hd Hp Ho HT)
    as (l1 & tr & Hrt & Htext & Hms & Hpad).
  exists l1.
  destruct (readTag_plain (at_pos tmpl (length pre + length T + 2) l1)
              (pre ++ T ++ str "{{") n rest c (mayStandalone tr))
    as [l2 Hrg].
  - change (data (at_pos tmpl _ l1)) with (data tmpl). rewrite Hd.
    now rewrite <- !app_assoc.
  - change (p (at_pos tmpl _ l1)) with (length pre + length T + 2).
    rewrite !length_app. cbn [str list_ascii_of_string length]. lia.
  - exact Hc.
  - exact Hbrace.
  - exact Hclose.
  - exact Htrim.
  - intros E. apply Hend. now apply Hms.
  - exists l2, tr. split; [exact Hrt|]. split; [|split; assumption].
    rewrite Hrg, at_pos_at_pos. do 3 f_equal.
    rewrite !length_app. cbn [str list_ascii_of_string length]. lia.
Qed.

Lemma read_raw_tag (tmpl : Template) (pre T n rest : bytes) :
  data tmpl = pre ++ T ++ str "{{" ++ ("{"%char :: n) ++ str "}}}" ++ rest ->
  p tmpl = length pre ->
  otag tmpl = str "{{" -> ctag tmpl = str "}}" ->
  noBrace T = true ->
  (forall x, In x n -> x <> "}"%char) ->
  exists l1 l2 tr,
    readText tmpl = RTText (at_pos tmpl (length pre + length T + 2) l1) tr
    /\ readTag (at_pos tmpl (length pre + length T + 2) l1) (mayStandalone tr)
       = POk (at_pos tmpl (length pre + length T + 2 + S (length n) + 3) l2,
              mkTagReadingResult ("{"%char :: n ++ str "}")
                (negb (mayStandalone tr)))
    /\ text tr ++ padding tr = T
    /\ (mayStandalone tr = false -> padding tr = []).
Proof.
  intros Hd Hp Ho Hc HT Hclose.
  destruct (readText_tag tmpl pre T _ Hd Hp Ho HT)
    as (l1 & tr & Hrt & Htext & Hms & Hpad).
  exists l1.
  destruct (readTag_raw (at_pos tmpl (length pre + length T + 2) l1)
              (pre ++ T ++ str "{{") n rest (mayStandalone tr))
    as [l2 Hrg].
  - change (data (at_pos tmpl _ l1)) with (data tmpl). rewrite Hd.
    now rewrite <- !app_assoc.
  - change (p (at_pos tmpl _ l1)) with (length pre + length T + 2).
    rewrite !length_app. cbn [str list_ascii_of_string length]. lia.
  - exact Hc.
  - exact Hclose.
  - exists l2, tr. split; [exact Hrt|]. split; [|split; assumption].
    rewrite Hrg, at_pos_at_pos. do 3 f_equal.
    rewrite !length_app. cbn [str list_ascii_of_string length]. lia.
Qed.

Lemma selems_pieces (b : bool) (acc : list element) (a q : element) :
  (if b then (acc ++ [a]) ++ [q] else acc ++ [a])
  = acc ++ [a] ++ (if b then [q] else []).
Proof. destruct b; [now rewrite <- app_assoc|reflexivity]. Qed.

(** The end of a section: its close tag. *)
Lemma parseSection_close (fuel : nat) (tmpl : Template)
  (pre T name post : bytes) (line : nat) (acc : list element) :
  data tmpl = pre ++ T ++ closeTag name ++ post ->
  p tmpl = length pre ->
  otag tmpl = str "{{" -> ctag tmpl = str "}}" ->
  noBrace T = true -> nameOk name = true ->
  aloneOnLine (pre ++ T) post = false ->
  exists l es',
    parseSection (S fuel) tmpl name line acc
    = POk (at_pos tmpl (length (pre ++ T ++ closeTag name)) l, acc ++ es')
    /\ norm es' = norm [textElement T].
Proof.
  intros Hd Hp Ho Hc HT Hname Halone.
  destruct (nameOk_parts name Hname) as (_ & Htrim & Htrim').
  destruct (read_plain_tag tmpl pre T name post "/"%char)
    as (l1 & l2 & tr & Hrt & Hrg & Htext & Hpad);
    try assumption.
  - rewrite Hd. unfold closeTag. now rewrite <- !app_assoc.
  - discriminate.
  - intros x [<-|Hin]; [discriminate|]. now apply (nameOk_In name).
  - now apply Htrim'.
  - intros Hls _. unfold aloneOnLine in Halone. rewrite Hls in Halone.
    exact Halone.
  - exists l2.
    exists ([textElement (text tr)]
            ++ (if negb (negb (mayStandalone tr))
                then [textElement (padding tr)] else []) ++ []).
    split; [|exact (norm_pieces tr T [] Htext Hpad)].
    cbn [parseSection]. rewrite Hrt. cbn [bindP]. rewrite Hrg.
    cbn [bindP tag standalone]. cbn [oneOf strings.mem str
      list_ascii_of_string existsb Ascii.eqb Bool.eqb andb orb].
    rewrite Htrim, bytes_eqb_refl. cbn [negb].
    rewrite selems_pieces, app_nil_r. do 3 f_equal.
    unfold closeTag. rewrite !length_app.
    cbn [str list_ascii_of_string length]. rewrite ?length_app.
    cbn [length]. lia.
Qed.

(** ** The round trip: the body of a section *)

Lemma wellFormedAll_cons (before after : bytes) (e : element)
  (es : list element) :
  wellFormedAll before (e :: es) after = true ->
  wellFormed before e (serializeAll es ++ after) = true
  /\ wellFormedAll (before ++ serialize e) es after = true.
Proof. cbn [wellFormedAll]. apply andb_true_iff. Qed.

Lemma parseSection_serialized (N : nat) :
  forall es, size es <= N ->
  forall fuel tmpl pre T name line acc post,
    tagCount es < fuel ->
    data tmpl = pre ++ T ++ serializeAll es ++ closeTag name ++ post ->
    p tmpl = length pre ->
    otag tmpl = str "{{" -> ctag tmpl = str "}}" -> forceRaw tmpl = false ->
    noBrace T = true -> nameOk name = true ->
    wellFormedAll (pre ++ T) es (closeTag name ++ post) = true ->
    aloneOnLine (pre ++ T ++ serializeAll es) post = false ->
    exists l es',
      parseSection fuel tmpl name line acc
      = POk (at_pos tmpl
               (length (pre ++ T ++ serializeAll es ++ closeTag name)) l,
             acc ++ es')
      /\ norm es' = norm (textElement T :: es).
Proof.
  induction N as [|N IH]; intros es Hsize fuel tmpl pre T name line acc post
    Hfuel Hd Hp Ho Hc Hraw HT Hname Hwf Halone.
  { destruct es as [|e es]; [|pose proof (nodesIn_pos e); cbn in Hsize; lia].
    destruct fuel as [|fuel]; [cbn in Hfuel; lia|].
    cbn [serializeAll app] in *. rewrite app_nil_r in Halone.
    now apply parseSection_close with (post := post). }
  destruct es as [|e es].
  { destruct fuel as [|fuel]; [cbn in Hfuel; lia|].
    cbn [serializeAll app] in *. rewrite app_nil_r in Halone.
    now apply parseSection_close with (post := post). }
  apply wellFormedAll_cons in Hwf as [Hwe Hwr].
  cbn [size] in Hsize. cbn [tagCount] in Hfuel.
  cbn [serializeAll] in Hd, Halone |- *.
  destruct e as [t|n raw|n inverted sline body|].
  - (* a text: it joins the pending text *)
    cbn [wellFormed serialize nodesIn tagsIn] in *.
    destruct (IH es ltac:(lia) fuel tmpl pre (T ++ t) name line acc post)
      as (l & es' & Hps & Hnorm); try assumption.
    + rewrite Hd. now rewrite <- !app_assoc.
    + rewrite noBrace_app, HT, Hwe. reflexivity.
    + now rewrite app_assoc.
    + by_eq Halone.
    + exists l, es'. split.
      * rewrite Hps. do 3 f_equal. now rewrite <- !app_assoc.
      * rewrite Hnorm, !norm_text. now rewrite consText_app.
  - (* a variable *)
    cbn [wellFormed serialize nodesIn tagsIn] in *.
    apply andb_true_iff in Hwe as [Hn Hkind].
    destruct fuel as [|fuel]; [lia|].
    destruct raw.
    + (* in braces *)
      destruct (read_raw_tag tmpl pre T n
                  (serializeAll es ++ closeTag name ++ post))
        as (l1 & l2 & tr & Hrt & Hrg & Htext & Hpad); try assumption.
      { rewrite Hd. cbn [str list_ascii_of_string app].
        now rewrite <- !app_assoc. }
      { now apply nameOk_In. }
      set (q := length pre + length T + 2 + S (length n) + 3) in *.
      destruct (IH es ltac:(lia) fuel (at_pos tmpl q l2)
                  (pre ++ T ++ str "{{{" ++ n ++ str "}}}") [] name line
                  (acc ++ [textElement (text tr)]
                   ++ (if negb (negb (mayStandalone tr))
                       then [textElement (padding tr)] else [])
                   ++ [varElement n true]) post)
        as (l & es' & Hps & Hnorm); try assumption; try lia;
        try reflexivity.
      { change (data (at_pos tmpl q l2)) with (data tmpl). rewrite Hd.
        cbn [app]. now rewrite <- !app_assoc. }
      { change (p (at_pos tmpl q l2)) with q. subst q.
        rewrite !length_app. cbn [str list_ascii_of_string length]. lia. }
      { by_eq Hwr. }
      { by_eq Halone. }
      exists l.
      exists ([textElement (text tr)]
              ++ (if negb (negb (mayStandalone tr))
                  then [textElement (padding tr)] else [])
              ++ varElement n true :: es').
      split.
      * cbn [parseSection]. rewrite Hrt. cbn [bindP]. rewrite Hrg.
        cbn [bindP tag standalone]. cbn [oneOf strings.mem str
          list_ascii_of_string existsb Ascii.eqb Bool.eqb andb orb].
        unfold rawTag, lastByte.
        replace (at_ ("{"%char :: n ++ ["}"%char]) _) with "}"%char.
        2:{ unfold at_. cbn [length]. rewrite length_app. cbn [length].
            replace (S (length n + 1) - 1) with (S (length n)) by lia.
            cbn [nth]. rewrite app_nth2 by lia.
            now replace (length n - length n) with 0 by lia. }
        cbn [Ascii.eqb Bool.eqb andb].
        replace (slice _ _ _) with (Some n).
        2:{ unfold slice. cbn [length]. rewrite length_app. cbn [length].
            replace (S (length n + 1) - 1) with (S (length n)) by lia.
            replace ((1 <=? S (length n)) && (S (length n) <=? S (length n + 1)))
              with true.
            2:{ symmetry. apply andb_true_iff.
                split; apply Nat.leb_le; lia. }
            cbn [skipn]. replace (S (length n) - 1) with (length n) by lia.
            now rewrite firstn_length_app. }
        cbn [ofSlice bindP].
        destruct (nameOk_parts n Hn) as (_ & -> & _).
        rewrite selems_pieces. rewrite <- !app_assoc in Hps |- *.
        cbn [app] in Hps |- *. rewrite Hps.
        rewrite at_pos_at_pos. do 3 f_equal.
        cbn [app]. now rewrite <- !app_assoc.
      * rewrite (norm_pieces tr T _ Htext Hpad), norm_text.
        cbn [norm normInto]. rewrite Hnorm.
        now rewrite norm_text, consText_nil.
    + (* plain *)
      cbn [orb] in Hkind. destruct n as [|c n]; [discriminate|].
      cbn [plainName] in Hkind. apply negb_true_iff in Hkind.
      destruct (plain_dispatch c Hkind)
        as (D1 & D2 & D3 & D4 & D5 & D6 & D7 & D8 & D9).
      destruct (nameOk_parts (c :: n) Hn) as (_ & Htrim & _).
      destruct (read_plain_tag tmpl pre T n
                  (serializeAll es ++ closeTag name ++ post) c)
        as (l1 & l2 & tr & Hrt & Hrg & Htext & Hpad); try assumption.
      { rewrite Hd. cbn [str list_ascii_of_string app].
        now rewrite <- !app_assoc. }
      { now apply nameOk_In. }
      { intros _ E. congruence. }
      set (q := length pre + length T + 2 + S (length n) + 2) in *.
      destruct (IH es ltac:(lia) fuel (at_pos tmpl q l2)
                  (pre ++ T ++ str "{{" ++ (c :: n) ++ str "}}") [] name line
                  (acc ++ [textElement (text tr)]
                   ++ (if negb (negb (mayStandalone tr))
                       then [textElement (padding tr)] else [])
                   ++ [varElement (c :: n) false]) post)
        as (l & es' & Hps & Hnorm); try assumption; try lia;
        try reflexivity.
      { change (data (at_pos tmpl q l2)) with (data tmpl). rewrite Hd.
        cbn [app]. now rewrite <- !app_assoc. }
      { change (p (at_pos tmpl q l2)) with q. subst q.
        rewrite !length_app. cbn [str list_ascii_of_string length].
        rewrite ?length_app. cbn [length]. lia. }
      { by_eq Hwr. }
      { by_eq Halone. }
      exists l.
      exists ([textElement (text tr)]
              ++ (if negb (negb (mayStandalone tr))
                  then [textElement (padding tr)] else [])
              ++ varElement (c :: n) false :: es').
      split.
      * cbn [parseSection]. rewrite Hrt. cbn [bindP]. rewrite Hrg.
        cbn [bindP tag standalone].
        rewrite D1, D2, D3, D4, D5, D6, D7.
        change (forceRaw (at_pos tmpl q l2)) with (forceRaw tmpl).
        rewrite Hraw.
        rewrite selems_pieces. rewrite <- !app_assoc in Hps |- *.
        cbn [app] in Hps |- *. rewrite Hps.
        rewrite at_pos_at_pos. do 3 f_equal.
        cbn [app]. now rewrite <- !app_assoc.
      * rewrite (norm_pieces tr T _ Htext Hpad), norm_text.
        cbn [norm normInto]. rewrite Hnorm.
        now rewrite norm_text, consText_nil.
  - (* a section *)
    rewrite wellFormed_section in Hwe.
    rewrite serialize_section in *. rewrite nodesIn_section in Hsize.
    rewrite tagsIn_section in Hfuel.
    apply andb_true_iff in Hwe as [Hwe Hclose].
    apply andb_true_iff in Hwe as [Hwe Hbody].
    apply andb_true_iff in Hwe as [Hn Hopen].
    apply negb_true_iff in Hopen, Hclose.
    destruct fuel as [|fuel]; [lia|].
    destruct (nameOk_parts n Hn) as (_ & Htrim & Htrim').
    set (c := if inverted then "^"%char else "#"%char).
    assert (Hopentag : openTag n inverted = str "{{" ++ (c :: n) ++ str "}}")
      by (unfold openTag, c; now destruct inverted).
    set (rest := serializeAll body ++ closeTag n ++ serializeAll es
                 ++ closeTag name ++ post).
    destruct (read_plain_tag tmpl pre T n rest c)
      as (l1 & l2 & tr & Hrt & Hrg & Htext & Hpad); try assumption.
    { rewrite Hd, Hopentag. subst rest. now rewrite <- !app_assoc. }
    { subst c. destruct inverted; discriminate. }
    { intros x [<-|Hin]; [subst c; destruct inverted; discriminate|].
      now apply (nameOk_In n). }
    { apply Htrim'. subst c. now destruct inverted. }
    { intros Hls _. unfold aloneOnLine in Hopen. rewrite Hls in Hopen.
      subst rest. cbn [andb] in Hopen. by_eq Hopen. }
    set (q := length pre + length T + 2 + S (length n) + 2) in *.
    (* the body *)
    destruct (IH body ltac:(lia) fuel (at_pos tmpl q l2)
                (pre ++ T ++ openTag n inverted) [] n l2 []
                (serializeAll es ++ closeTag name ++ post))
      as (lb & body' & Hpb & Hnb); try assumption; try lia;
      try reflexivity.
    { change (data (at_pos tmpl q l2)) with (data tmpl). rewrite Hd.
      cbn [app]. now rewrite <- !app_assoc. }
    { change (p (at_pos tmpl q l2)) with q. subst q.
      rewrite Hopentag, !length_app. cbn [str list_ascii_of_string length].
      rewrite ?length_app. cbn [length]. lia. }
    { by_eq Hbody. }
    { by_eq Hclose. }
    set (qb := length ((pre ++ T ++ openTag n inverted) ++ [] ++
                       serializeAll body ++ closeTag n)) in *.
    (* what follows the section *)
    destruct (IH es ltac:(lia) fuel (at_pos tmpl qb lb)
                (pre ++ T ++ openTag n inverted ++ serializeAll body
                 ++ closeTag n) [] name line
                (acc ++ [textElement (text tr)]
                 ++ (if negb (negb (mayStandalone tr))
                     then [textElement (padding tr)] else [])
                 ++ [sectionElement n inverted l2 body']) post)
      as (l & es' & Hps & Hnorm); try assumption; try lia;
        try reflexivity.
    { change (data (at_pos tmpl qb lb)) with (data tmpl). rewrite Hd.
      cbn [app]. now rewrite <- !app_assoc. }
    { change (p (at_pos tmpl qb lb)) with qb. subst qb.
      cbn [app]. now rewrite <- !app_assoc. }
    { by_eq Hwr. }
    { by_eq Halone. }
    exists l.
    exists ([textElement (text tr)]
            ++ (if negb (negb (mayStandalone tr))
                then [textElement (padding tr)] else [])
            ++ sectionElement n inverted l2 body' :: es').
    split.
    + cbn [parseSection]. rewrite Hrt. cbn [bindP]. rewrite Hrg.
      cbn [bindP tag standalone].
      change (curline (at_pos tmpl q l2)) with l2.
      replace (oneOf c "!") with false by (subst c; now destruct inverted).
      replace (oneOf c "#^") with true by (subst c; now destruct inverted).
      replace (oneOf c "^") with inverted by (subst c; now destruct inverted).
      rewrite Htrim, Hpb. cbn [bindP app].
      rewrite selems_pieces. rewrite <- !app_assoc in Hps |- *.
      cbn [app] in Hps |- *. rewrite at_pos_at_pos in Hps |- *. rewrite Hps.
      do 3 f_equal. cbn [app]. now rewrite <- !app_assoc.
    + rewrite (norm_pieces tr T _ Htext Hpad), norm_text.
      cbn [norm]. rewrite !normInto_section, Hnorm, Hnb.
      now rewrite !norm_text, !consText_nil.
  - (* a partial is not serialized *)
    discriminate Hwe.
Qed.

(** ** The round trip: the whole text *)

(** As [read_plain_tag], for the template to which [parse] has appended
    the text. *)
Lemma read_plain_tag_top (tmpl : Template) (pre T n rest : bytes) (c : ascii) :
  data tmpl = pre ++ T ++ str "{{" ++ (c :: n) ++ str "}}" ++ rest ->
  p tmpl = length pre ->
  otag tmpl = str "{{" -> ctag tmpl = str "}}" ->
  noBrace T = true ->
  c <> "{"%char ->
  (forall x, In x (c :: n) -> x <> "}"%char) ->
  strings.TrimSpace (c :: n) = c :: n ->
  (lineStartBefore (pre ++ T) = true -> oneOf c "#^/<>=!" = true ->
   lineEndAfter rest = false) ->
  exists l1 tr,
    readText tmpl = RTText (at_pos tmpl (length pre + length T + 2) l1) tr
    /\ (forall es, exists l2,
          readTag (with_elems (at_pos tmpl (length pre + length T + 2) l1) es)
            (mayStandalone tr)
          = POk (with_elems
                   (at_pos tmpl (length pre + length T + 2 + S (length n) + 2)
                      l2) es,
                 mkTagReadingResult (c :: n) (negb (mayStandalone tr))))
    /\ text tr ++ padding tr = T
    /\ (mayStandalone tr = false -> padding tr = []).
Proof.
  intros Hd Hp Ho Hc HT Hbrace Hclose Htrim Hend.
  destruct (readText_tag tmpl pre T _ Hd Hp Ho HT)
    as (l1 & tr & Hrt & Htext & Hms & Hpad).
  exists l1, tr. split; [exact Hrt|]. split; [|split; assumption].
  intros es.
  destruct (readTag_plain
              (with_elems (at_pos tmpl (length pre + length T + 2) l1) es)
              (pre ++ T ++ str "{{") n rest c (mayStandalone tr))
    as [l2 Hrg].
  - change (data (with_elems _ es)) with (data tmpl). rewrite Hd.
    now rewrite <- !app_assoc.
  - change (p (with_elems _ es)) with (length pre + length T + 2).
    rewrite !length_app. cbn [str list_ascii_of_string length]. lia.
  - exact Hc.
  - exact Hbrace.
  - exact Hclose.
  - exact Htrim.
  - intros E. apply Hend. now apply Hms.
  - exists l2. rewrite Hrg. unfold at_pos, with_elems, with_curline, with_p.
    cbn [data otag ctag p curline elems forceRaw partial escape formatter].
    do 3 f_equal.
    rewrite !length_app. cbn [str list_ascii_of_string length]. lia.
Qed.

Lemma read_raw_tag_top (tmpl : Template) (pre T n rest : bytes) :
  data tmpl = pre ++ T ++ str "{{" ++ ("{"%char :: n) ++ str "}}}" ++ rest ->
  p tmpl = length pre ->
  otag tmpl = str "{{" -> ctag tmpl = str "}}" ->
  noBrace T = true ->
  (forall x, In x n -> x <> "}"%char) ->
  exists l1 tr,
    readText tmpl = RTText (at_pos tmpl (length pre + length T + 2) l1) tr
    /\ (forall es, exists l2,
          readTag (with_elems (at_pos tmpl (length pre + length T + 2) l1) es)
            (mayStandalone tr)
          = POk (with_elems
                   (at_pos tmpl (length pre + length T + 2 + S (length n) + 3)
                      l2) es,
                 mkTagReadingResult ("{"%char :: n ++ str "}")
                   (negb (mayStandalone tr))))
    /\ text tr ++ padding tr = T
    /\ (mayStandalone tr = false -> padding tr = []).
Proof.
  intros Hd Hp Ho Hc HT Hclose.
  destruct (readText_tag tmpl pre T _ Hd Hp Ho HT)
    as (l1 & tr & Hrt & Htext & Hms & Hpad).
  exists l1, tr. split; [exact Hrt|]. split; [|split; assumption].
  intros es.
  destruct (readTag_raw
              (with_elems (at_pos tmpl (length pre + length T + 2) l1) es)
              (pre ++ T ++ str "{{") n rest (mayStandalone tr))
    as [l2 Hrg].
  - change (data (with_elems _ es)) with (data tmpl). rewrite Hd.
    now rewrite <- !app_assoc.
  - change (p (with_elems _ es)) with (length pre + length T + 2).
    rewrite !length_app. cbn [str list_ascii_of_string length]. lia.
  - exact Hc.
  - exact Hclose.
  - exists l2. rewrite Hrg. unfold at_pos, with_elems, with_curline, with_p.
    cbn [data otag ctag p curline elems forceRaw partial escape formatter].
    do 3 f_equal.
    rewrite !length_app. cbn [str list_ascii_of_string length]. lia.
Qed.

Lemma append_pieces (b : bool) (tmpl : Template) (a q : element) :
  (if b then append (append tmpl [a]) [q] else append tmpl [a])
  = with_elems tmpl (elems tmpl ++ [a] ++ (if b then [q] else [])).
Proof.
  destruct b; unfold append, with_elems;
    cbn [data otag ctag p curline elems forceRaw partial escape formatter];
    [now rewrite <- app_assoc|reflexivity].
Qed.

Lemma parse_serialized (N : nat) :
  forall es, size es <= N ->
  forall fuel tmpl pre T,
    tagCount es < fuel ->
    data tmpl = pre ++ T ++ serializeAll es ->
    p tmpl = length pre ->
    otag tmpl = str "{{" -> ctag tmpl = str "}}" -> forceRaw tmpl = false ->
    noBrace T = true ->
    wellFormedAll (pre ++ T) es [] = true ->
    exists tmpl' es',
      parse fuel tmpl = POk tmpl'
      /\ elems tmpl' = elems tmpl ++ es'
      /\ escape tmpl' = escape tmpl /\ formatter tmpl' = formatter tmpl
      /\ norm es' = norm (textElement T :: es).
Proof.
  induction N as [|N IH]; intros es Hsize fuel tmpl pre T
    Hfuel Hd Hp Ho Hc Hraw HT Hwf.
  { destruct es as [|e es]; [|pose proof (nodesIn_pos e); cbn in Hsize; lia].
    destruct fuel as [|fuel]; [cbn in Hfuel; lia|].
    cbn [serializeAll] in Hd. rewrite app_nil_r in Hd.
    cbn [parse]. rewrite (readText_end tmpl pre T Hd Hp Ho HT).
    eexists. exists [textElement T]. repeat split; reflexivity. }
  destruct es as [|e es].
  { destruct fuel as [|fuel]; [cbn in Hfuel; lia|].
    cbn [serializeAll] in Hd. rewrite app_nil_r in Hd.
    cbn [parse]. rewrite (readText_end tmpl pre T Hd Hp Ho HT).
    eexists. exists [textElement T]. repeat split; reflexivity. }
  apply wellFormedAll_cons in Hwf as [Hwe Hwr].
  cbn [size] in Hsize. cbn [tagCount] in Hfuel.
  cbn [serializeAll] in Hd |- *. rewrite app_nil_r in Hwe.
  destruct e as [t|n raw|n inverted sline body|].
  - (* a text *)
    cbn [wellFormed serialize nodesIn tagsIn] in *.
    destruct (IH es ltac:(lia) fuel tmpl pre (T ++ t))
      as (tmpl' & es' & Hps & He & Hesc & Hfmt & Hnorm); try assumption.
    + rewrite Hd. now rewrite <- !app_assoc.
    + rewrite noBrace_app, HT, Hwe. reflexivity.
    + by_eq Hwr.
    + exists tmpl', es'. repeat split; try assumption.
      rewrite Hnorm, !norm_text. now rewrite consText_app.
  - (* a variable *)
    cbn [wellFormed serialize nodesIn tagsIn] in *.
    apply andb_true_iff in Hwe as [Hn Hkind].
    destruct fuel as [|fuel]; [lia|].
    destruct raw.
    + destruct (read_raw_tag_top tmpl pre T n (serializeAll es))
        as (l1 & tr & Hrt & Hrg & Htext & Hpad); try assumption.
      { rewrite Hd. cbn [str list_ascii_of_string app].
        now rewrite <- !app_assoc. }
      { now apply nameOk_In. }
      destruct (Hrg (elems tmpl ++ [textElement (text tr)])) as [l2 Hrg2].
      set (q := length pre + length T + 2 + S (length n) + 3) in *.
      set (pieces := [textElement (text tr)]
                     ++ (if negb (negb (mayStandalone tr))
                         then [textElement (padding tr)] else [])) in *.
      destruct (IH es ltac:(lia) fuel
                  (with_elems (at_pos tmpl q l2)
                     (elems tmpl ++ pieces ++ [varElement n true]))
                  (pre ++ T ++ str "{{{" ++ n ++ str "}}}") [])
        as (tmpl' & es' & Hps & He & Hesc & Hfmt & Hnorm);
        try assumption; try lia; try reflexivity.
      { change (data (with_elems _ _)) with (data tmpl). rewrite Hd.
        cbn [app]. now rewrite <- !app_assoc. }
      { change (p (with_elems _ _)) with q. subst q.
        rewrite !length_app. cbn [str list_ascii_of_string length]. lia. }
      { by_eq Hwr. }
      exists tmpl', (pieces ++ varElement n true :: es').
      split; [|split; [|split; [|split]]]; try assumption.
      * cbn [parse]. rewrite Hrt. cbn [bindP]. unfold append.
        change (elems (at_pos tmpl _ l1)) with (elems tmpl).
        rewrite Hrg2. cbn [bindP tag standalone].
        cbn [oneOf strings.mem str
          list_ascii_of_string existsb Ascii.eqb Bool.eqb andb orb].
        unfold rawTag, lastByte.
        replace (at_ ("{"%char :: n ++ ["}"%char]) _) with "}"%char.
        2:{ unfold at_. cbn [length]. rewrite length_app. cbn [length].
            replace (S (length n + 1) - 1) with (S (length n)) by lia.
            cbn [nth]. rewrite app_nth2 by lia.
            now replace (length n - length n) with 0 by lia. }
        cbn [Ascii.eqb Bool.eqb andb].
        replace (slice _ _ _) with (Some n).
        2:{ unfold slice. cbn [length]. rewrite length_app. cbn [length].
            replace (S (length n + 1) - 1) with (S (length n)) by lia.
            replace ((1 <=? S (length n)) && (S (length n) <=? S (length n + 1)))
              with true.
            2:{ symmetry. apply andb_true_iff.
                split; apply Nat.leb_le; lia. }
            cbn [skipn]. replace (S (length n) - 1) with (length n) by lia.
            now rewrite firstn_length_app. }
        cbn [ofSlice bindP].
        destruct (nameOk_parts n Hn) as (_ & -> & _).
        rewrite <- Hps. f_equal.
        destruct (mayStandalone tr); subst pieces; unfold append, with_elems,
          at_pos, with_curline, with_p;
          cbn [data otag ctag p curline elems forceRaw partial escape
                 formatter negb app];
          now rewrite <- ?app_assoc.
      * rewrite He. cbn [elems with_elems]. now rewrite <- !app_assoc.
      * subst pieces. rewrite <- app_assoc.
        rewrite (norm_pieces tr T _ Htext Hpad), norm_text.
        cbn [norm normInto]. rewrite Hnorm.
        now rewrite norm_text, consText_nil.
    + cbn [orb] in Hkind. destruct n as [|c n]; [discriminate|].
      cbn [plainName] in Hkind. apply negb_true_iff in Hkind.
      destruct (plain_dispatch c Hkind)
        as (D1 & D2 & D3 & D4 & D5 & D6 & D7 & D8 & D9).
      destruct (nameOk_parts (c :: n) Hn) as (_ & Htrim & _).
      destruct (read_plain_tag_top tmpl pre T n (serializeAll es) c)
        as (l1 & tr & Hrt & Hrg & Htext & Hpad); try assumption.
      { rewrite Hd. cbn [str list_ascii_of_string app].
        now rewrite <- !app_assoc. }
      { now apply nameOk_In. }
      { intros _ E. congruence. }
      destruct (Hrg (elems tmpl ++ [textElement (text tr)])) as [l2 Hrg2].
      set (q := length pre + length T + 2 + S (length n) + 2) in *.
      set (pieces := [textElement (text tr)]
                     ++ (if negb (negb (mayStandalone tr))
                         then [textElement (padding tr)] else [])) in *.
      destruct (IH es ltac:(lia) fuel
                  (with_elems (at_pos tmpl q l2)
                     (elems tmpl ++ pieces ++ [varElement (c :: n) false]))
                  (pre ++ T ++ str "{{" ++ (c :: n) ++ str "}}") [])
        as (tmpl' & es' & Hps & He & Hesc & Hfmt & Hnorm);
        try assumption; try lia; try reflexivity.
      { change (data (with_elems _ _)) with (data tmpl). rewrite Hd.
        cbn [app]. now rewrite <- !app_assoc. }
      { change (p (with_elems _ _)) with q. subst q.
        rewrite !length_app. cbn [str list_ascii_of_string length].
        rewrite ?length_app. cbn [length]. lia. }
      { by_eq Hwr. }
      exists tmpl', (pieces ++ varElement (c :: n) false :: es').
      split; [|split; [|split; [|split]]]; try assumption.
      * cbn [parse]. rewrite Hrt. cbn [bindP]. unfold append.
        change (elems (at_pos tmpl _ l1)) with (elems tmpl).
        rewrite Hrg2. cbn [bindP tag standalone].
        rewrite D1, D2, D3, D4, D5, D6, D7.
        rewrite <- Hps. f_equal.
        destruct (mayStandalone tr); subst pieces; unfold append, with_elems,
          at_pos, with_curline, with_p;
          cbn [data otag ctag p curline elems forceRaw partial escape
                 formatter negb app];
          rewrite Hraw; now rewrite <- ?app_assoc.
      * rewrite He. cbn [elems with_elems]. now rewrite <- !app_assoc.
      * subst pieces. rewrite <- app_assoc.
        rewrite (norm_pieces tr T _ Htext Hpad), norm_text.
        cbn [norm normInto]. rewrite Hnorm.
        now rewrite norm_text, consText_nil.
  - (* a section *)
    rewrite wellFormed_section in Hwe.
    rewrite serialize_section in *. rewrite nodesIn_section in Hsize.
    rewrite tagsIn_section in Hfuel.
    apply andb_true_iff in Hwe as [Hwe Hclose].
    apply andb_true_iff in Hwe as [Hwe Hbody].
    apply andb_true_iff in Hwe as [Hn Hopen].
    apply negb_true_iff in Hopen, Hclose.
    destruct fuel as [|fuel]; [lia|].
    destruct (nameOk_parts n Hn) as (_ & Htrim & Htrim').
    set (c := if inverted then "^"%char else "#"%char).
    assert (Hopentag : openTag n inverted = str "{{" ++ (c :: n) ++ str "}}")
      by (unfold openTag, c; now destruct inverted).
    set (rest := serializeAll body ++ closeTag n ++ serializeAll es).
    destruct (read_plain_tag_top tmpl pre T n rest c)
      as (l1 & tr & Hrt & Hrg & Htext & Hpad); try assumption.
    { rewrite Hd, Hopentag. subst rest. now rewrite <- !app_assoc. }
    { subst c. destruct inverted; discriminate. }
    { intros x [<-|Hin]; [subst c; destruct inverted; discriminate|].
      now apply (nameOk_In n). }
    { apply Htrim'. subst c. now destruct inverted. }
    { intros Hls _. unfold aloneOnLine in Hopen. rewrite Hls in Hopen.
      subst rest. cbn [andb] in Hopen. by_eq Hopen. }
    destruct (Hrg (elems tmpl ++ [textElement (text tr)])) as [l2 Hrg2].
    set (q := length pre + length T + 2 + S (length n) + 2) in *.
    set (pieces := [textElement (text tr)]
                   ++ (if negb (negb (mayStandalone tr))
                       then [textElement (padding tr)] else [])) in *.
    set (tmpl2 := with_elems (at_pos tmpl q l2) (elems tmpl ++ pieces)).
    destruct (parseSection_serialized (size body) body (Nat.le_refl _) fuel
                tmpl2 (pre ++ T ++ openTag n inverted) [] n l2 []
                (serializeAll es))
      as (lb & body' & Hpb & Hnb); try assumption; try lia;
      try reflexivity.
    { change (data tmpl2) with (data tmpl). rewrite Hd.
      cbn [app]. now rewrite <- !app_assoc. }
    { change (p tmpl2) with q. subst q.
      rewrite Hopentag, !length_app. cbn [str list_ascii_of_string length].
      rewrite ?length_app. cbn [length]. lia. }
    { by_eq Hbody. }
    { by_eq Hclose. }
    set (qb := length ((pre ++ T ++ openTag n inverted) ++ [] ++
                       serializeAll body ++ closeTag n)) in *.
    destruct (IH es ltac:(lia) fuel
                (with_elems (at_pos tmpl qb lb)
                   (elems tmpl ++ pieces
                    ++ [sectionElement n inverted l2 body']))
                (pre ++ T ++ openTag n inverted ++ serializeAll body
                 ++ closeTag n) [])
      as (tmpl' & es' & Hps & He & Hesc & Hfmt & Hnorm);
      try assumption; try lia; try reflexivity.
    { change (data (with_elems _ _)) with (data tmpl). rewrite Hd.
      cbn [app]. now rewrite <- !app_assoc. }
    { change (p (with_elems _ _)) with qb. subst qb.
      cbn [app]. now rewrite <- !app_assoc. }
    { by_eq Hwr. }
    exists tmpl', (pieces ++ sectionElement n inverted l2 body' :: es').
    split; [|split; [|split; [|split]]]; try assumption.
    + cbn [parse]. rewrite Hrt. cbn [bindP]. unfold append.
      change (elems (at_pos tmpl _ l1)) with (elems tmpl).
      rewrite Hrg2. cbn [bindP tag standalone].
      replace (oneOf c "!") with false by (subst c; now destruct inverted).
      replace (oneOf c "#^") with true by (subst c; now destruct inverted).
      replace (oneOf c "^") with inverted by (subst c; now destruct inverted).
      rewrite Htrim.
      replace (if negb (negb (mayStandalone tr)) then _ else _) with tmpl2.
      2:{ destruct (mayStandalone tr); subst tmpl2 pieces;
            unfold append, with_elems, at_pos, with_curline, with_p;
            cbn [data otag ctag p curline elems forceRaw partial escape
                   formatter negb app];
            now rewrite <- ?app_assoc. }
      change (curline tmpl2) with l2.
      rewrite Hpb. cbn [bindP app].
      rewrite <- Hps. f_equal.
      subst tmpl2; unfold append, with_elems, at_pos, with_curline, with_p;
        cbn [data otag ctag p curline elems forceRaw partial escape
               formatter negb app];
        now rewrite <- ?app_assoc.
    + rewrite He. cbn [elems with_elems]. now rewrite <- !app_assoc.
    + subst pieces. rewrite <- app_assoc.
      rewrite (norm_pieces tr T _ Htext Hpad), norm_text.
      cbn [norm]. rewrite !normInto_section, Hnorm, Hnb.
      now rewrite !norm_text, !consText_nil.
  - discriminate Hwe.
Qed.

(** ** The round trip: rendering a normal form *)

(** Induction on a list of elements and on the bodies of its sections. *)
Lemma elements_ind (P : list element -> Prop) :
  P [] ->
  (forall t es, P es -> P (textElement t :: es)) ->
  (forall n raw es, P es -> P (varElement n raw :: es)) ->
  (forall n inv l body es, P body -> P es ->
     P (sectionElement n inv l body :: es)) ->
  (forall n i pr es, P es -> P (partialElement n i pr :: es)) ->
  forall es, P es.
Proof.
  intros Hnil Htext Hvar Hsec Hpart es.
  remember (size es) as N eqn:HN.
  assert (Hle : size es <= N) by lia. clear HN. revert es Hle.
  induction N as [|N IH]; intros es Hle.
  - destruct es as [|e es]; [exact Hnil|].
    pose proof (nodesIn_pos e). cbn [size] in Hle. lia.
  - destruct es as [|e es]; [exact Hnil|]. cbn [size] in Hle.
    pose proof (nodesIn_pos e).
    destruct e.
    + apply Htext, IH. lia.
    + apply Hvar, IH. lia.
    + rewrite nodesIn_section in Hle. apply Hsec; apply IH; lia.
    + apply Hpart, IH. lia.
Qed.

Lemma getElementText_section (name : bytes) (inverted : bool) (line : nat)
  (es : list element) :
  getElementText (sectionElement name inverted line es)
  = match getSectionText es with
    | inr err => inr err
    | inl ts =>
        inl ((if inverted then str "{{^" ++ name ++ str "}}"
              else str "{{#" ++ name ++ str "}}")
             ++ ts ++ str "{{/" ++ name ++ str "}}")
    end.
Proof. reflexivity. Qed.

Lemma getSectionText_consText (t : bytes) (es : list element) :
  getSectionText (consText t es) = getSectionText (textElement t :: es).
Proof.
  assert (Hnil : forall es', getSectionText (textElement [] :: es')
                             = getSectionText es').
  { intros es'. change (getSectionText (textElement [] :: es'))
      with (match getSectionText es' with
            | inr err => inr err
            | inl ts => inl ([] ++ ts)
            end).
    now destruct (getSectionText es'). }
  destruct es as [|e es].
  - destruct t; reflexivity.
  - destruct e; try (destruct t; [now rewrite Hnil|reflexivity]).
    cbn [consText getSectionText getElementText].
    destruct (getSectionText es); [now rewrite app_assoc|reflexivity].
Qed.

Lemma getSectionText_norm (es : list element) :
  getSectionText (norm es) = getSectionText es.
Proof.
  induction es as [|t es IH|n raw es IH|n inv l body es IHb IH|n i pr es IH]
    using elements_ind; try reflexivity.
  - rewrite norm_text, getSectionText_consText.
    cbn [getSectionText getElementText]. now rewrite IH.
  - cbn [norm normInto getSectionText]. now rewrite IH.
  - cbn [norm]. rewrite normInto_section. cbn [getSectionText].
    rewrite !getElementText_section, IHb, IH. reflexivity.
Qed.

(** What [getSectionText] writes is [serializeAll], as long as there is no
    partial. *)
Lemma getSectionText_serialize (es : list element) :
  forall before after,
    wellFormedAll before es after = true ->
    getSectionText es = inl (serializeAll es).
Proof.
  induction es as [|t es IH|n raw es IH|n inv l body es IHb IH|n i pr es IH]
    using elements_ind; intros before after Hwf; try reflexivity;
    apply wellFormedAll_cons in Hwf as [Hwe Hwr].
  - cbn [getSectionText getElementText serializeAll serialize].
    now rewrite (IH _ _ Hwr).
  - cbn [getSectionText getElementText serializeAll serialize].
    rewrite (IH _ _ Hwr). now destruct raw.
  - rewrite wellFormed_section in Hwe.
    apply andb_true_iff in Hwe as [Hwe _].
    apply andb_true_iff in Hwe as [_ Hbody].
    cbn [getSectionText serializeAll]. rewrite getElementText_section.
    rewrite (IHb _ _ Hbody), (IH _ _ Hwr), serialize_section.
    unfold openTag, closeTag. now destruct inv.
  - discriminate Hwe.
Qed.

Lemma tagCount_length (es : list element) :
  forall before after,
    wellFormedAll before es after = true ->
    tagCount es <= length (serializeAll es).
Proof.
  induction es as [|t es IH|n raw es IH|n inv l body es IHb IH|n i pr es IH]
    using elements_ind; intros before after Hwf; [cbn; lia| | | |];
    apply wellFormedAll_cons in Hwf as [Hwe Hwr];
    cbn [tagCount serializeAll]; rewrite length_app.
  - specialize (IH _ _ Hwr). cbn [tagsIn]. lia.
  - specialize (IH _ _ Hwr). cbn [tagsIn serialize].
    destruct raw; rewrite length_app; cbn [str list_ascii_of_string length];
      lia.
  - rewrite wellFormed_section in Hwe.
    apply andb_true_iff in Hwe as [Hwe _].
    apply andb_true_iff in Hwe as [_ Hbody].
    specialize (IHb _ _ Hbody). specialize (IH _ _ Hwr).
    rewrite tagsIn_section, serialize_section, !length_app.
    unfold openTag. rewrite length_app.
    destruct inv; cbn [str list_ascii_of_string length]; lia.
  - discriminate Hwe.
Qed.

Section RenderNorm.

Variable H : Host.
Variable AllowMissingVariables : bool.
Variable fuel : nat.

Lemma renderContexts_ext (tmpl : Template) (es1 es2 : list element) :
  (forall cs buf,
      renderElems (renderElement H AllowMissingVariables fuel) tmpl es1 cs buf
      = renderElems (renderElement H AllowMissingVariables fuel) tmpl es2 cs
          buf) ->
  forall contexts cs buf,
    renderContexts (renderElement H AllowMissingVariables fuel) tmpl es1
      contexts cs buf
    = renderContexts (renderElement H AllowMissingVariables fuel) tmpl es2
        contexts cs buf.
Proof.
  intros Hext contexts cs. induction contexts as [|ctx contexts IH];
    intros buf; cbn [renderContexts]; [reflexivity|].
  rewrite Hext.
  destruct (renderElems _ tmpl es2 (ctx :: cs) buf) as [b []];
    try reflexivity.
  apply IH.
Qed.

Lemma renderSection_ext (tmpl : Template) (name : bytes) (inverted : bool)
  (es1 es2 : list element) (cs : list value) (buf : bytes) :
  (forall cs buf,
      renderElems (renderElement H AllowMissingVariables fuel) tmpl es1 cs buf
      = renderElems (renderElement H AllowMissingVariables fuel) tmpl es2 cs
          buf) ->
  getSectionText es1 = getSectionText es2 ->
  renderSection H (renderElement H AllowMissingVariables fuel)
    (reenterTemplate H AllowMissingVariables fuel) tmpl name inverted es1 cs
    buf
  = renderSection H (renderElement H AllowMissingVariables fuel)
      (reenterTemplate H AllowMissingVariables fuel) tmpl name inverted es2
      cs buf.
Proof.
  intros Hext Htext. unfold renderSection. rewrite Htext.
  pose proof (renderContexts_ext tmpl es1 es2 Hext) as Hc.
  destruct (lookupAllowMissing H cs name true) as [v [e|]|];
    try reflexivity.
  destruct cs as [|context cs]; [reflexivity|]. cbv zeta.
  destruct ((isEmpty v && negb inverted) || (negb (isEmpty v) && inverted));
    [reflexivity|].
  destruct (negb inverted); [|apply Hc].
  destruct (kind (indirect v)); try apply Hc. reflexivity.
Qed.

Lemma renderElems_cons_text (tmpl : Template) (t : bytes)
  (es : list element) (cs : list value) (buf : bytes) :
  renderElems (renderElement H AllowMissingVariables fuel) tmpl
    (textElement t :: es) cs buf
  = renderElems (renderElement H AllowMissingVariables fuel) tmpl es cs
      (buf ++ t).
Proof. cbn [renderElems]. now rewrite renderElement_text. Qed.

Lemma renderElems_consText (tmpl : Template) (t : bytes) (es : list element)
  (cs : list value) (buf : bytes) :
  renderElems (renderElement H AllowMissingVariables fuel) tmpl
    (consText t es) cs buf
  = renderElems (renderElement H AllowMissingVariables fuel) tmpl
      (textElement t :: es) cs buf.
Proof.
  destruct es as [|e es].
  - destruct t; [|reflexivity]. cbn [consText renderElems].
    now rewrite renderElement_text, app_nil_r.
  - destruct e;
      try (destruct t; [|reflexivity]; cbn [consText];
           rewrite renderElems_cons_text; now rewrite app_nil_r).
    cbn [consText]. rewrite !renderElems_cons_text. now rewrite app_assoc.
Qed.

(** Rendering does not tell a list of elements from its normal form. *)
Lemma renderElems_norm (tmpl : Template) (es : list element) :
  forall cs buf,
    renderElems (renderElement H AllowMissingVariables fuel) tmpl (norm es)
      cs buf
    = renderElems (renderElement H AllowMissingVariables fuel) tmpl es cs buf.
Proof.
  induction es as [|t es IH|n raw es IH|n inv l body es IHb IH|n i pr es IH]
    using elements_ind; intros cs buf; try reflexivity.
  - rewrite norm_text, renderElems_consText.
    rewrite !renderElems_cons_text. apply IH.
  - cbn [norm normInto renderElems].
    destruct (renderElement _ _ _ tmpl (varElement n raw) cs buf) as [b []];
      try reflexivity.
    apply IH.
  - cbn [norm]. rewrite normInto_section. cbn [renderElems].
    rewrite !renderElement_section.
    rewrite (renderSection_ext tmpl n inv (norm body) body cs buf IHb
               (getSectionText_norm body)).
    destruct (renderSection H _ _ tmpl n inv body cs buf) as [b []];
      try reflexivity.
    apply IH.
  - cbn [norm normInto renderElems].
    destruct (renderElement _ _ _ tmpl (partialElement n i pr) cs buf)
      as [b []]; try reflexivity.
    apply IH.
Qed.

End RenderNorm.


(** ** Closed instances *)

Lemma standalone_line_elision_witness :
  (exists tmpl,
     ParseString Example.host standaloneSource = POk tmpl
     /\ Render Example.host true 0 tmpl [VMap (Some [(str "x", VBool true)])]
        = (str "A" ++ [nl] ++ str "B" ++ [nl], ROk))
  /\ (let tmpl := mkTemplate (str "  {{#x}} b") (str "{{") (str "}}") 0 1 []
                    false 0 HTMLEscapeString None in
      let tr := mkTextReadingResult [] (str "  ") true in
      let tg := mkTagReadingResult (str "#x") false in
      readText tmpl = RTText (at_pos tmpl 4 1) tr
      /\ readTag (at_pos tmpl 4 1) (mayStandalone tr)
         = POk (at_pos tmpl 8 1, tg)
      /\ contentAfter (data tmpl) 8
      /\ text tr ++ (if standalone tg then [] else padding tr)
         = sub (data tmpl) (p tmpl) (p (at_pos tmpl 4 1) - length (otag tmpl))).
Proof.
  split.
  - apply (proj1 (standalone_line_elision Example.host) true 0
             [VMap (Some [(str "x", VBool true)])] (VBool true));
      [reflexivity|reflexivity|reflexivity|discriminate].
  - cbv zeta.
    set (tmpl := mkTemplate (str "  {{#x}} b") (str "{{") (str "}}") 0 1 []
                   false 0 HTMLEscapeString None).
    set (tr := mkTextReadingResult [] (str "  ") true).
    set (tg := mkTagReadingResult (str "#x") false).
    assert (Ht : readText tmpl = RTText (at_pos tmpl 4 1) tr) by reflexivity.
    assert (Hg : readTag (at_pos tmpl 4 1) (mayStandalone tr)
                 = POk (at_pos tmpl 8 1, tg)) by reflexivity.
    assert (Hc : contentAfter (data tmpl) 8).
    { exists 9. split; [vm_compute; lia|]. split; [reflexivity|].
      intros k Hk. assert (k = 8) as -> by lia. discriminate. }
    split; [exact Ht|]. split; [exact Hg|]. split; [exact Hc|].
    exact (proj2 (proj2 (standalone_line_elision Example.host)
                    tmpl (at_pos tmpl 4 1) (at_pos tmpl 8 1)
                    (at_pos tmpl 8 1) tr (str "#x}}") tg
                    Ht eq_refl Hg (or_intror Hc))).
Defined.

Lemma index_out_of_range_swallowed_witness :
  exists tmpl,
    ParseString Example.host (str "{{a[5]}}") = POk tmpl
    /\ lookup Example.host
         [VMap (Some [(str "a", VSlice (Some [VInt 1; VInt 2; VInt 3]))])]
         None (str "a[5]") = LRet VInvalid None
    /\ Render Example.host false 0 tmpl
         [VMap (Some [(str "a", VSlice (Some [VInt 1; VInt 2; VInt 3]))])]
       = ([], ROk).
Proof.
  apply (index_out_of_range_swallowed Example.host false 0); reflexivity.
Defined.

Lemma sequence_context_aborts_search_witness :
  lookup Example.host
    [VSlice (Some [VInt 1]);
     VMap (Some [(str "title", VString (str "T"))])]
    None (str "title")
  = LRet (VSlice (Some [VInt 1]))
      (Some (ENumError (str "Atoi") (str "title"))).
Proof.
  apply (sequence_context_aborts_search Example.host (str "title")
           (Some [VInt 1]) [VMap (Some [(str "title", VString (str "T"))])]);
    reflexivity.
Defined.

Lemma missing_section_is_empty_witness :
  let tmpl := mkTemplate [] (str "{{") (str "}}") 0 1 [] false 0
                HTMLEscapeString None in
  renderElement Example.host false 0 tmpl
    (sectionElement (str "x") false 1 [textElement (str "a")])
    [VMap (Some [])] []
  = ([], ROk)
  /\ renderElement Example.host false 0 tmpl
       (sectionElement (str "x") true 1 [textElement (str "a")])
       [VMap (Some [])] []
     = renderElems (renderElement Example.host false 0) tmpl
         [textElement (str "a")] [VMap (Some []); VMap (Some [])] [].
Proof.
  cbv zeta.
  apply (missing_section_is_empty Example.host false 0
           (mkTemplate [] (str "{{") (str "}}") 0 1 [] false 0
              HTMLEscapeString None)
           (str "x") (str "x") 1 [textElement (str "a")]
           (VMap (Some [])) VInvalid [] []).
  reflexivity.
Defined.

(** Without contexts, a section whose name is missing does not render as an
    empty value: both the plain and the inverted section panic. *)
Lemma missing_section_counterexample :
  exists tmpl tmpl',
    ParseString Example.host (str "{{#x}}a{{/x}}") = POk tmpl
    /\ ParseString Example.host (str "{{^x}}a{{/x}}") = POk tmpl'
    /\ lookup Example.host [] None (str "x")
       = LRet VInvalid (Some (MissingVariableError (str "x")))
    /\ Render Example.host true 1 tmpl [] = ([], RPanic)
    /\ Render Example.host false 1 tmpl [] = ([], RPanic)
    /\ Render Example.host true 1 tmpl' [] = ([], RPanic)
    /\ Render Example.host false 1 tmpl' [] = ([], RPanic).
Proof.
  run_parse. do 2 eexists.
  split; [reflexivity|]. split; [reflexivity|].
  repeat split; vm_compute; reflexivity.
Qed.

(** A value that is a function is not empty, and the section of
    [standaloneSource] is then a lambda section: the text that the lambda
    answers is written between the two lines, and a function of another
    signature ends the render with an error. *)
Lemma standalone_line_elision_counterexample :
  isEmpty (VFunc (Some 0) 2 2) = false
  /\ isEmpty (VFunc (Some 0) 1 1) = false
  /\ exists tmpl,
       ParseString constHost standaloneSource = POk tmpl
       /\ Render constHost true 0 tmpl
            [VMap (Some [(str "x", VFunc (Some 0) 2 2)])]
          = (str "A" ++ [nl] ++ str "ZB" ++ [nl], ROk)
       /\ Render constHost true 0 tmpl
            [VMap (Some [(str "x", VFunc (Some 0) 1 1)])]
          = (str "A" ++ [nl], RErr (ELambdaSignature (str "x"))).
Proof.
  split; [reflexivity|]. split; [reflexivity|].
  run_parse. eexists. split; [reflexivity|].
  split; vm_compute; reflexivity.
Qed.

Lemma missing_variable_on_sequence_witness :
  exists tmpl,
    ParseString Example.host (str "{{missing}}") = POk tmpl
    /\ Render Example.host true 0 tmpl
         [VSlice (Some [VInt 1]); VMap (Some [(str "missing", VInt 2)])]
       = ([], RErr (ENumError (str "Atoi") (str "missing")))
    /\ Render Example.host false 0 tmpl
         [VSlice (Some [VInt 1]); VMap (Some [(str "missing", VInt 2)])]
       = ([], RErr (ENumError (str "Atoi") (str "missing"))).
Proof.
  apply (missing_variable_on_sequence Example.host 0 (Some [VInt 1])
           [VMap (Some [(str "missing", VInt 2)])]); reflexivity.
Defined.

Lemma missing_variable_policy_witness :
  exists tmpl,
    ParseString Example.host (str "{{missing}}") = POk tmpl
    /\ Render Example.host true 0 tmpl [VMap (Some [(str "x", VInt 1)])]
       = ([], ROk)
    /\ Render Example.host false 0 tmpl [VMap (Some [(str "x", VInt 1)])]
       = ([], RErr (MissingVariableError (str "missing"))).
Proof.
  apply (missing_variable_policy Example.host 0
           [VMap (Some [(str "x", VInt 1)])]).
  - reflexivity.
  - constructor; [reflexivity|constructor].
Defined.




(** Without contexts, the section [f()] does not panic: the resolution of
    its name returns the error of the missing function, and the render
    returns it before [contextChain[0]] is read. *)
Lemma section_without_contexts_counterexample :
  exists tmpl,
    ParseString Example.host (str "{{#f()}}a{{/f()}}") = POk tmpl
    /\ elems tmpl = [textElement []; textElement [];
                     sectionElement (str "f()") false 1
                       [textElement (str "a")];
                     textElement []]
    /\ Render Example.host true 1 tmpl []
       = ([], RErr (EMissingFunction (str "f")))
    /\ Render Example.host false 1 tmpl []
       = ([], RErr (EMissingFunction (str "f"))).
Proof.
  run_parse. eexists.
  split; [reflexivity|]. split; [reflexivity|].
  split; vm_compute; reflexivity.
Qed.

(** * Further properties of the code *)

(** ** The recursion of [lookup] does not depend on the fuel *)

Section LookupEquation.

Variable H : Host.

Section ExtBody.

Variables rec1 rec2 : list value -> option value -> bytes -> lresult.
Variable name : bytes.

(** The two readings of the recursive calls agree on every name shorter
    than [name]. *)
Hypothesis rec_agree :
  forall contextChain left n,
    length n < length name ->
    rec1 contextChain left n = rec2 contextChain left n.

Lemma lookupArgs_ext (contextChain : list value) (v : value)
  (args : list bytes) (acc : list value) :
  (forall arg, In arg args -> length arg < length name) ->
  lookupArgs rec1 contextChain v args acc
  = lookupArgs rec2 contextChain v args acc.
Proof.
  revert acc. induction args as [|arg args IH]; intros acc Hargs;
    cbn [lookupArgs]; [reflexivity|].
  assert (Harg : length (strings.TrimSpace arg) < length name).
  { pose proof (TrimSpace_length arg).
    specialize (Hargs arg (or_introl eq_refl)). lia. }
  rewrite (rec_agree contextChain None _ Harg).
  destruct (rec2 contextChain None (strings.TrimSpace arg)) as [val [err|]|];
    try reflexivity.
  apply IH. intros a Ha. apply Hargs. now right.
Qed.

Lemma lookupDot_ext (contextChain : list value) (left : option value) :
  lookupDot rec1 contextChain left name
  = lookupDot rec2 contextChain left name.
Proof.
  unfold lookupDot, strings.SplitN2.
  destruct (strings.Index name (str ".")) as [i|] eqn:Ei; [|reflexivity].
  apply Index_bound in Ei. cbn [str list_ascii_of_string length] in Ei.
  assert (H0 : length (firstn i name) < length name)
    by (rewrite length_firstn; lia).
  assert (H1 : length (skipn (i + 1) name) < length name)
    by (rewrite length_skipn; lia).
  cbn [str list_ascii_of_string length].
  rewrite (rec_agree contextChain left _ H0).
  destruct (rec2 contextChain left (firstn i name)) as [v [err|]|];
    try reflexivity.
  destruct (startsWithNumber _); [reflexivity|].
  now rewrite (rec_agree contextChain (Some v) _ H1).
Qed.

Lemma lookupIndex_ext (contextChain : list value) (left : option value) :
  lookupIndex H rec1 contextChain left name
  = lookupIndex H rec2 contextChain left name.
Proof.
  unfold lookupIndex.
  destruct (strings.Index name (str "[")) as [openIndex|] eqn:Eo;
    [|reflexivity].
  destruct (strings.Index name (str "]")) as [closeIndex|] eqn:Ec;
    [|reflexivity].
  apply Index_bound in Eo, Ec. cbn [str list_ascii_of_string length] in Eo, Ec.
  destruct (slice name (openIndex + 1) closeIndex) as [indexVariable|] eqn:Es;
    [|reflexivity].
  apply slice_length in Es as [Es _]. cbv zeta.
  set (rest := stripDot _).
  assert (Hrest : rest <> [] -> length rest < length name).
  { intros _. subst rest. pose proof (stripDot_length
      (if closeIndex + 1 <? length name
       then skipn (closeIndex + 1) name else [])) as Hs.
    destruct (closeIndex + 1 <? length name);
      [rewrite length_skipn in Hs|cbn [length] in Hs]; lia. }
  destruct (if 0 <? openIndex then firstn openIndex name else [])
    as [|c0 a0] eqn:Ea;
    [|assert (Ha : length (c0 :: a0) < length name)
        by (destruct (0 <? openIndex); [|discriminate];
            rewrite <- Ea, length_firstn; lia);
      rewrite (rec_agree contextChain left _ Ha)].
  all: match goal with
       | |- match ?a with _ => _ end = _ =>
           destruct a as [v [err|]| |]; try reflexivity
       end.
  all: assert (Hidx : length indexVariable < length name) by lia.
  all: rewrite (rec_agree contextChain None _ Hidx).
  all: destruct (rec2 contextChain None indexVariable) as [iv [err|]|];
    try reflexivity.
  all: assert (Hfin : forall w,
         match rest with
         | [] => BRet w None
         | _ :: _ => ofL (rec1 contextChain (Some w) rest)
         end
         = match rest with
           | [] => BRet w None
           | _ :: _ => ofL (rec2 contextChain (Some w) rest)
           end)
    by (intros w; destruct rest eqn:Er; [reflexivity|];
        rewrite rec_agree; [reflexivity|]; apply Hrest; discriminate).
  all: destruct (kind (unwrap v)); try reflexivity.
  all: try (destruct (toInt H (unwrap iv)) as [[i|]|]; try reflexivity;
            destruct (Index (unwrap v) i); [apply Hfin|reflexivity]).
  all: destruct (MapIndex (unwrap v) (unwrap iv)) as [w|]; [|reflexivity].
  all: destruct (negb (IsValid w)); [reflexivity|apply Hfin].
Qed.

Lemma lookupCall_ext (contextChain : list value) (left : option value) :
  lookupCall H rec1 contextChain left name
  = lookupCall H rec2 contextChain left name.
Proof.
  unfold lookupCall.
  destruct (strings.Index name (str "(")) as [openIndex|] eqn:Eo;
    [|reflexivity].
  destruct (strings.Index name (str ")")) as [closeIndex|] eqn:Ec;
    [|reflexivity].
  apply Index_bound in Eo, Ec. cbn [str list_ascii_of_string length] in Eo, Ec.
  destruct (slice name (openIndex + 1) closeIndex) as [argsVariable|] eqn:Es;
    [|reflexivity].
  apply slice_length in Es as [Es _].
  set (args := match argsVariable with [] => [] | _ :: _ => _ end).
  assert (Hargs : forall arg, In arg args -> length arg < length name).
  { intros arg Hin. subst args.
    destruct argsVariable as [|c s]; [destruct Hin|].
    apply Split1_length in Hin. lia. }
  destruct (lookupFunction contextChain left (firstn openIndex name)
              (length args)) as [v [err|]]; [reflexivity|].
  destruct (core (unwrap v)); try reflexivity.
  rewrite (lookupArgs_ext contextChain (unwrap v) args [] Hargs).
  destruct (lookupArgs rec2 contextChain (unwrap v) args []) as [r|ins];
    [reflexivity|].
  destruct f as [f|]; [|reflexivity].
  destruct (Call H f ins) as [|ret0 err]; [reflexivity|].
  destruct (if 1 <? numOut then err else None); [reflexivity|].
  destruct (stripDot (skipn (closeIndex + 1) name)) eqn:Er; [reflexivity|].
  rewrite rec_agree; [reflexivity|]. rewrite <- Er.
  pose proof (stripDot_length (skipn (closeIndex + 1) name)) as Hs.
  rewrite length_skipn in Hs. lia.
Qed.

Lemma lookupBody_ext (contextChain : list value) (left : option value) :
  lookupBody H rec1 contextChain left name
  = lookupBody H rec2 contextChain left name.
Proof.
  unfold lookupBody.
  destruct (_ && _); [apply lookupDot_ext|].
  destruct (_ && _); [apply lookupIndex_ext|].
  destruct (_ && _); [apply lookupCall_ext|].
  reflexivity.
Qed.

End ExtBody.

Lemma lookupN_fuel (fuel1 fuel2 : nat) (contextChain : list value)
  (left : option value) (name : bytes) :
  length name < fuel1 -> length name < fuel2 ->
  lookupN H fuel1 contextChain left name
  = lookupN H fuel2 contextChain left name.
Proof.
  revert fuel2 contextChain left name.
  induction fuel1 as [|fuel1 IH]; intros fuel2 contextChain left name H1 H2;
    [lia|].
  destruct fuel2 as [|fuel2]; [lia|]. cbn [lookupN]. f_equal.
  apply lookupBody_ext. intros c l n Hn. apply IH; lia.
Qed.

(** [lookup] satisfies the recursive definition of the source: its
    recursive calls are calls of [lookup]. *)
Lemma lookup_equation (contextChain : list value) (left : option value)
  (name : bytes) :
  lookup H contextChain left name
  = recovered (lookupBody H (lookup H) contextChain left name).
Proof.
  unfold lookup at 1. cbn [lookupN]. f_equal.
  apply lookupBody_ext. intros c l n Hn. apply lookupN_fuel; lia.
Qed.

End LookupEquation.

(** ** Names with structure: strings *)

Lemma IndexAny_none (s chars : bytes) :
  strings.IndexAny s chars = None <->
  forall x, In x s -> strings.mem x chars = false.
Proof.
  induction s as [|c s IH]; cbn [strings.IndexAny].
  - split; [intros _ x []|reflexivity].
  - destruct (strings.mem c chars) eqn:Ec.
    + split; [discriminate|]. intros Hall.
      rewrite (Hall c (or_introl eq_refl)) in Ec. discriminate.
    + destruct (strings.IndexAny s chars) eqn:Es; cbn [option_map].
      * split; [discriminate|]. intros Hall.
        assert (Hn : Some n = None)
          by (apply IH; intros x Hx; apply Hall; now right).
        discriminate Hn.
      * split; [|reflexivity]. intros _ x [<-|Hx]; [exact Ec|].
        now apply IH.
Qed.

Lemma IndexAny_first (a rest chars : bytes) (c : ascii) :
  strings.IndexAny a chars = None -> strings.mem c chars = true ->
  strings.IndexAny (a ++ c :: rest) chars = Some (length a).
Proof.
  intros Ha Hc. induction a as [|x a IH]; cbn [app strings.IndexAny length].
  - now rewrite Hc.
  - cbn [strings.IndexAny] in Ha.
    destruct (strings.mem x chars); [discriminate|].
    destruct (strings.IndexAny a chars); [discriminate|].
    now rewrite IH.
Qed.

Lemma IndexAny_app_none (a b chars : bytes) :
  strings.IndexAny a chars = None -> strings.IndexAny b chars = None ->
  strings.IndexAny (a ++ b) chars = None.
Proof.
  rewrite !IndexAny_none. intros Ha Hb x Hx.
  apply in_app_or in Hx as [Hx|Hx]; auto.
Qed.

Lemma Index_char (a rest : bytes) (c : ascii) :
  (forall x, In x a -> x <> c) ->
  strings.Index (a ++ c :: rest) [c] = Some (length a).
Proof.
  intros Ha. induction a as [|x a IH]; cbn [app length].
  - rewrite Index_unfold. cbn [strings.HasPrefix].
    now rewrite Ascii.eqb_refl.
  - rewrite Index_unfold. cbn [strings.HasPrefix].
    assert (Ex : Ascii.eqb c x = false).
    { apply Ascii.eqb_neq. intros ->. now apply (Ha x (or_introl eq_refl)). }
    rewrite Ex. cbn [andb].
    rewrite IH; [reflexivity|]. intros y Hy. apply Ha. now right.
Qed.

Lemma mem_not (chars : bytes) (x c : ascii) :
  strings.mem x chars = false -> strings.mem c chars = true -> x <> c.
Proof. intros Hx Hc ->. congruence. Qed.

Lemma at_middle (a rest : bytes) (c : ascii) :
  at_ (a ++ c :: rest) (length a) = c.
Proof.
  unfold at_. rewrite app_nth2 by lia. now rewrite Nat.sub_diag.
Qed.

Lemma slice_middle (a m b : bytes) :
  slice (a ++ m ++ b) (length a) (length a + length m) = Some m.
Proof.
  unfold slice.
  replace (length a <=? length a + length m) with true
    by (symmetry; apply Nat.leb_le; lia).
  replace (length a + length m <=? length (a ++ m ++ b)) with true
    by (symmetry; apply Nat.leb_le; rewrite !length_app; lia).
  cbn [andb]. f_equal. rewrite skipn_length_app.
  replace (length a + length m - length a) with (length m) by lia.
  apply firstn_length_app.
Qed.


Section Paths.

Variable H : Host.

(** ** Dotted names *)


(** ** Index paths *)

(** The shape of an index path [a[ix]] with nothing after the bracket. *)
Lemma index_path_shape (rec : list value -> option value -> bytes -> lresult)
  (contextChain : list value) (left : option value) (a ix : bytes)
  (c0 : ascii) :
  strings.IndexAny (c0 :: a) (str ".[(]") = None ->
  (forall x, In x ix -> x <> "]"%char) ->
  lookupBody H rec contextChain left ((c0 :: a) ++ str "[" ++ ix ++ str "]")
  = match ofL (rec contextChain left (c0 :: a)) with
    | BRet v None =>
        match rec contextChain None ix with
        | LFuel => BFuel
        | LRet _ (Some err) => BRet (unwrap v) (Some err)
        | LRet indexValue None =>
            match kind (unwrap v) with
            | KMap =>
                match MapIndex (unwrap v) (unwrap indexValue) with
                | None => BPanic
                | Some w =>
                    if negb (IsValid w)
                    then BRet w (invalidVariable
                                   ((c0 :: a) ++ str "[" ++ ix ++ str "]"))
                    else BRet w None
                end
            | KArray | KSlice =>
                match toInt H (unwrap indexValue) with
                | None => BPanic
                | Some None =>
                    BRet (unwrap v)
                      (invalidVariable
                         ((c0 :: a) ++ str "[" ++ ix ++ str "]"))
                | Some (Some i) =>
                    match Index (unwrap v) i with
                    | None => BPanic
                    | Some w => BRet w None
                    end
                end
            | _ => BRet (unwrap v)
                     (invalidVariable
                        ((c0 :: a) ++ str "[" ++ ix ++ str "]"))
            end
        end
    | r => r
    end.
Proof.
  intros Ha Hix.
  pose proof (proj1 (IndexAny_none _ _) Ha) as Hall.
  assert (Ha' : strings.IndexAny (c0 :: a) (str ".[(") = None).
  { apply IndexAny_none. intros x Hx. specialize (Hall x Hx).
    unfold strings.mem in *. cbn [str list_ascii_of_string existsb] in *.
    repeat (apply orb_false_iff in Hall as [? Hall]).
    repeat (apply orb_false_iff; split; try assumption). }
  set (name := (c0 :: a) ++ str "[" ++ ix ++ str "]").
  assert (Eo : strings.Index name (str "[") = Some (length (c0 :: a))).
  { apply Index_char. intros x Hx.
    apply (mem_not (str ".[(]")); [now apply Hall|reflexivity]. }
  assert (Ec : strings.Index name (str "]")
               = Some (length ((c0 :: a) ++ str "[" ++ ix))).
  { subst name.
    replace ((c0 :: a) ++ str "[" ++ ix ++ str "]")
      with (((c0 :: a) ++ str "[" ++ ix) ++ "]"%char :: [])
      by (rewrite <- !app_assoc; reflexivity).
    apply (Index_char _ [] "]"%char). intros x Hx.
    apply in_app_or in Hx as [Hx|Hx].
    - apply (mem_not (str ".[(]")); [now apply Hall|reflexivity].
    - destruct Hx as [<-|Hx]; [discriminate|now apply Hix]. }
  assert (Ei : strings.IndexAny name (str ".[(") = Some (length (c0 :: a)))
    by exact (IndexAny_first (c0 :: a) (ix ++ str "]") (str ".[(") "["%char
                Ha' eq_refl).
  assert (Eat : at_ name (length (c0 :: a)) = "["%char)
    by exact (at_middle (c0 :: a) (ix ++ str "]") "["%char).
  unfold lookupBody. rewrite Ei, Eat.
  unfold strings.Contains. rewrite Eo, Ec.
  change (strings.eqb ["["%char] (str ".")) with false.
  change (strings.eqb ["["%char] (str "[")) with true.
  cbn [andb negb].
  unfold lookupIndex. rewrite Eo, Ec.
  assert (Es : slice name (length (c0 :: a) + 1)
                 (length ((c0 :: a) ++ str "[" ++ ix)) = Some ix).
  { replace (length (c0 :: a) + 1) with (length ((c0 :: a) ++ str "["))
      by (rewrite length_app; reflexivity).
    replace (length ((c0 :: a) ++ str "[" ++ ix))
      with (length ((c0 :: a) ++ str "[") + length ix)
      by (rewrite !length_app; lia).
    replace name with (((c0 :: a) ++ str "[") ++ ix ++ str "]")
      by (subst name; now rewrite <- app_assoc).
    apply slice_middle. }
  rewrite Es. cbv zeta.
  assert (Er : (length ((c0 :: a) ++ str "[" ++ ix) + 1 <? length name)
               = false).
  { apply Nat.ltb_ge. unfold name. rewrite !length_app.
    cbn [str list_ascii_of_string length]. lia. }
  assert (Ef : firstn (length (c0 :: a)) name = c0 :: a)
    by apply firstn_length_app.
  rewrite Er, Ef. cbn [stripDot].
  change (0 <? length (c0 :: a)) with true. cbv iota.
  destruct (ofL (rec contextChain left (c0 :: a))) as [v [err|]| |];
    try reflexivity.
  destruct (rec contextChain None ix) as [iv [err|]|]; try reflexivity.
  destruct (kind (unwrap v)); try reflexivity.
  - destruct (toInt H (unwrap iv)) as [[i|]|]; try reflexivity.
    now destruct (Index (unwrap v) i).
  - destruct (toInt H (unwrap iv)) as [[i|]|]; try reflexivity.
    now destruct (Index (unwrap v) i).
  - destruct (MapIndex (unwrap v) (unwrap iv)) as [w|]; [|reflexivity].
    now destruct (negb (IsValid w)).
Qed.

End Paths.

Section Paths2.

Variable H : Host.

(** X2. [a[ix]] on a sequence: the index [ix] is itself resolved against
    the context stack; when it converts to the integer [i], the result is
    the element [i] of the sequence that [a] resolves to. *)
Theorem index_in_range (contextChain : list value) (left : option value)
  (c0 : ascii) (a ix : bytes) (va iv v : value) (i : Z) :
  strings.IndexAny (c0 :: a) (str ".[(]") = None ->
  (forall x, In x ix -> x <> "]"%char) ->
  lookup H contextChain left (c0 :: a) = LRet va None ->
  lookup H contextChain None ix = LRet iv None ->
  kind (unwrap va) = KSlice \/ kind (unwrap va) = KArray ->
  toInt H (unwrap iv) = Some (Some i) ->
  Index (unwrap va) i = Some v ->
  lookup H contextChain left ((c0 :: a) ++ str "[" ++ ix ++ str "]")
  = LRet v None.
Proof.
  intros Ha Hix Hla Hli Hk Hi Hv.
  rewrite lookup_equation, index_path_shape by assumption.
  rewrite Hla, Hli. cbn [ofL].
  destruct Hk as [-> | ->]; now rewrite Hi, Hv.
Qed.

(** X3. [a[ix]] on a map: the value under the key that [ix] resolves to,
    and the invalid-variable error that carries the whole name when the
    map has no such key. *)
Theorem index_map_key (contextChain : list value) (left : option value)
  (c0 : ascii) (a ix k : bytes) (va iv : value)
  (kvs : list (bytes * value)) :
  strings.IndexAny (c0 :: a) (str ".[(]") = None ->
  (forall x, In x ix -> x <> "]"%char) ->
  lookup H contextChain left (c0 :: a) = LRet va None ->
  lookup H contextChain None ix = LRet iv None ->
  core (unwrap va) = VMap (Some kvs) ->
  core (unwrap iv) = VString k ->
  lookup H contextChain left ((c0 :: a) ++ str "[" ++ ix ++ str "]")
  = match assoc k kvs with
    | Some x =>
        if IsValid x then LRet x None
        else LRet x (invalidVariable
                       ((c0 :: a) ++ str "[" ++ ix ++ str "]"))
    | None =>
        LRet VInvalid
          (invalidVariable ((c0 :: a) ++ str "[" ++ ix ++ str "]"))
    end.
Proof.
  intros Ha Hix Hla Hli Hm Hk.
  rewrite lookup_equation, index_path_shape by assumption.
  rewrite Hla, Hli. cbn [ofL].
  unfold kind, MapIndex. rewrite Hm, Hk.
  destruct (assoc k kvs) as [x|]; [|reflexivity].
  now destruct (IsValid x).
Qed.

(** ** Literals *)

Lemma HasSuffix_last (s : bytes) (q : ascii) :
  strings.HasSuffix (s ++ [q]) [q] = true.
Proof.
  unfold strings.HasSuffix. rewrite rev_app_distr. cbn [rev app].
  cbn [strings.HasPrefix]. now rewrite Ascii.eqb_refl.
Qed.

(** X4. Literals never consult the contexts. Among the names without dot,
    bracket or parenthesis (a name that has one goes to the path arms
    first), a name between two double quotes or two single quotes is the
    string between the quotes, and a name that is no such string and that
    [strconv] parses is that number or boolean, whatever the contexts bind
    it to; and a name that is one quote character alone resolves to the
    invalid value without error (the slice [name[1:0]] panics, and the
    panic is recovered). *)
Theorem literals_ignore_contexts (contextChain : list value)
  (left : option value) :
  (forall q s,
      q = ascii_of_nat 34 \/ q = "'"%char ->
      strings.IndexAny s (str ".[(") = None ->
      lookup H contextChain left (q :: s ++ [q]) = LRet (VString s) None)
  /\ (forall name val,
        strings.IndexAny name (str ".[(") = None ->
        isStringLiteral name = false ->
        numberLiteral H name = Some val ->
        lookup H contextChain left name = LRet val None)
  /\ (forall q,
        q = ascii_of_nat 34 \/ q = "'"%char ->
        lookup H contextChain left [q] = LRet VInvalid None).
Proof.
  split; [|split].
  - intros q s Hq Hs.
    assert (Hn : strings.IndexAny (q :: s ++ [q]) (str ".[(") = None).
    { apply (IndexAny_app_none [q] (s ++ [q])).
      - destruct Hq as [-> | ->]; reflexivity.
      - apply IndexAny_app_none; [exact Hs|].
        destruct Hq as [-> | ->]; reflexivity. }
    assert (Hl : isStringLiteral (q :: s ++ [q]) = true).
    { unfold isStringLiteral.
      change (q :: s ++ [q]) with ((q :: s) ++ [q]).
      destruct Hq as [-> | ->]; rewrite HasSuffix_last; reflexivity. }
    rewrite lookup_equation. unfold lookupBody. rewrite Hn, Hl.
    cbn [strings.eqb andb].
    assert (Es : slice (q :: s ++ [q]) 1 (length (q :: s ++ [q]) - 1)
                 = Some s).
    { replace (length (q :: s ++ [q]) - 1) with (length [q] + length s)
        by (cbn [length]; rewrite length_app; cbn [length]; lia).
      apply (slice_middle [q] s [q]). }
    now rewrite Es.
  - intros name val Hn Hs Hv. now apply lookupN_literal.
  - intros q Hq. rewrite lookup_equation. unfold lookupBody.
    destruct Hq as [-> | ->]; reflexivity.
Qed.

(** ** Plain names on a stack of maps *)

Lemma derefs_map (m : option (list (bytes * value))) :
  derefs (VMap m) = [VMap m].
Proof. reflexivity. Qed.

Lemma plain_not_dot (name : bytes) :
  strings.IndexAny name (str ".[(") = None ->
  strings.eqb name (str ".") = false.
Proof.
  intros Hn. apply bytes_eqb_neq. intros ->. discriminate Hn.
Qed.

Lemma lookup_map_top (name : bytes) (kvs : list (bytes * value))
  (outer : list value) :
  strings.IndexAny name (str ".[(") = None ->
  isStringLiteral name = false ->
  numberLiteral H name = None ->
  lookup H (VMap (Some kvs) :: outer) None name
  = match assoc name kvs with
    | Some x => if IsValid x then LRet x None else lookup H outer None name
    | None => lookup H outer None name
    end.
Proof.
  intros Hn Hs Hv.
  pose proof (plain_not_dot name Hn) as Hdot.
  assert (Hp : forall cs, lookup H cs None name
                          = recovered (lookupChain H name cs))
    by (intros cs; now apply lookup_plain; [left| |]).
  rewrite !Hp.
  cbn [lookupChain derefs lookupSteps IsValid core negb].
  unfold probe1. cbn [methods scanMethods core]. rewrite Hdot.
  unfold MapIndex. cbn [core].
  destruct (assoc name kvs) as [x|]; [|reflexivity].
  now destruct (IsValid x).
Qed.

(** X5. A struct on top of the context stack: a plain name is the field of
    that name; when there is none, it is the field whose JSON tag, up to
    its first comma, is the name, if exactly one field has such a tag; and
    otherwise the name is resolved in the rest of the stack. *)
Theorem struct_context_fields (name : bytes)
  (fields : list (bytes * bytes * value)) (outer : list value) :
  strings.IndexAny name (str ".[(") = None ->
  isStringLiteral name = false ->
  numberLiteral H name = None ->
  lookup H (VStruct fields :: outer) None name
  = if IsValid (FieldByName fields name)
    then LRet (FieldByName fields name) None
    else match filter (jsonTagIs name) fields with
         | [(_, _, x)] =>
             if IsValid x then LRet x None else lookup H outer None name
         | _ => lookup H outer None name
         end.
Proof.
  intros Hn Hs Hv.
  pose proof (plain_not_dot name Hn) as Hdot.
  assert (Hp : forall cs, lookup H cs None name
                          = recovered (lookupChain H name cs))
    by (intros cs; now apply lookup_plain; [left| |]).
  rewrite !Hp.
  cbn [lookupChain derefs lookupSteps IsValid core negb].
  unfold probe1. cbn [methods scanMethods core]. rewrite Hdot.
  destruct (IsValid (FieldByName fields name)); [reflexivity|].
  unfold FieldByNameFunc.
  destruct (filter (jsonTagIs name) fields) as [|[[a b] x] [|y l]];
    try reflexivity.
  now destruct (IsValid x).
Qed.

(** X6. Scoping on a stack of maps: a plain name is resolved in the map on
    top of the stack when the map has the key, and in the rest of the
    stack, as if the map were not there, when it has not; a pointer or an
    interface on top of the stack stands for what it holds. *)
Theorem map_context_scoping (name : bytes) (outer : list value) :
  strings.IndexAny name (str ".[(") = None ->
  isStringLiteral name = false ->
  numberLiteral H name = None ->
  (forall kvs,
      lookup H (VMap (Some kvs) :: outer) None name
      = match assoc name kvs with
        | Some x =>
            if IsValid x then LRet x None else lookup H outer None name
        | None => lookup H outer None name
        end)
  /\ (forall ctx,
        lookup H (VPtr (Some ctx) :: outer) None name
        = lookup H (ctx :: outer) None name)
  /\ (forall ctx,
        lookup H (VIface (Some ctx) :: outer) None name
        = lookup H (ctx :: outer) None name)
  /\ lookup H (VPtr None :: outer) None name = lookup H outer None name
  /\ lookup H (VMap None :: outer) None name = lookup H outer None name.
Proof.
  intros Hn Hs Hv.
  pose proof (plain_not_dot name Hn) as Hdot.
  assert (Hp : forall cs, lookup H cs None name
                          = recovered (lookupChain H name cs))
    by (intros cs; now apply lookup_plain; [left| |]).
  split; [intros kvs; now apply lookup_map_top|].
  repeat split; intros; rewrite !Hp; f_equal.
  - cbn [lookupChain derefs lookupSteps IsValid core negb].
    unfold probe1. cbn [methods scanMethods core]. now rewrite Hdot.
  - cbn [lookupChain derefs lookupSteps IsValid core negb].
    unfold probe1. cbn [methods scanMethods core]. now rewrite Hdot.
  - cbn [lookupChain derefs lookupSteps IsValid core negb].
    unfold probe1. cbn [methods scanMethods core]. now rewrite Hdot.
  - cbn [lookupChain derefs lookupSteps IsValid core negb].
    unfold probe1. cbn [methods scanMethods core]. now rewrite Hdot.
Qed.

End Paths2.

(** ** Emptiness *)

Lemma core_not_named (v : value) :
  match core v with VNamed _ _ => False | _ => True end.
Proof. induction v; cbn [core]; try exact I. exact IHv. Qed.

(** X7. Emptiness looks through pointers and interfaces: a pointer or an
    interface that holds a value is empty exactly when the value is, and a
    nil pointer and a nil interface are empty. *)
Theorem isEmpty_through_pointers (v : value) :
  isEmpty (VPtr (Some v)) = isEmpty v
  /\ isEmpty (VIface (Some v)) = isEmpty v
  /\ isEmpty (VPtr None) = true
  /\ isEmpty (VIface None) = true.
Proof.
  assert (Hv : isEmpty v
               = if negb (IsValid (indirect v)) then true
                 else match kind (indirect v) with
                      | KArray | KSlice => Len (indirect v) =? 0
                      | KString =>
                          match core (indirect v) with
                          | VString s => length (strings.TrimSpace s) =? 0
                          | _ => true
                          end
                      | _ => IsZero (indirect v)
                      end).
  { unfold isEmpty.
    destruct (negb (IsValid v) || InterfaceIsNil v) eqn:E; [|reflexivity].
    assert (Hk : kind (indirect v) = KInvalid).
    { apply indirect_invalid. apply orb_true_iff in E as [E|E]; [left|now right].
      now apply negb_true_iff in E. }
    pose proof (core_not_named (indirect v)) as Hc.
    unfold IsValid, kind in *.
    destruct (core (indirect v)); try discriminate Hk; try reflexivity.
    destruct Hc. }
  repeat split; try reflexivity; rewrite Hv; reflexivity.
Qed.

(** ** The line counter of the tokenizer *)

Lemma newlinesIn_app (a b : bytes) :
  newlinesIn (a ++ b) = newlinesIn a + newlinesIn b.
Proof. unfold newlinesIn. now rewrite filter_app, length_app. Qed.

Lemma newlinesIn_cons (c : ascii) (s : bytes) :
  newlinesIn (c :: s) = (if Ascii.eqb c nl then 1 else 0) + newlinesIn s.
Proof. unfold newlinesIn. cbn [filter]. now destruct (Ascii.eqb c nl). Qed.

(** [readString_loop] counts the line feeds from where it starts to where
    the match starts, both included. *)
Lemma readString_loop_lines (s rest : bytes) (i n e n' : nat) :
  readString_loop s rest i n = Some (e, n') ->
  n' = n + newlinesIn (firstn (S (e - length s - i)) rest).
Proof.
  revert i n. induction rest as [|c rest IH]; intros i n;
    cbn [readString_loop]; [discriminate|].
  destruct (length (c :: rest) <? length s) eqn:El; [discriminate|].
  assert (Hstep : readString_loop s rest (S i)
                    (if Ascii.eqb c nl then S n else n) = Some (e, n') ->
                  n' = n + newlinesIn (firstn (S (e - length s - i))
                                         (c :: rest))).
  { intros E. pose proof (readString_loop_some _ _ _ _ _ _ E) as Hb.
    apply IH in E.
    replace (e - length s - i) with (S (e - length s - S i)) by lia.
    rewrite firstn_cons, newlinesIn_cons, E.
    destruct (Ascii.eqb c nl); lia. }
  destruct (negb (Ascii.eqb c (at_ s 0))); [exact Hstep|].
  destruct (strings.HasPrefix rest (tl s)); [|exact Hstep].
  intros E. injection E as <- <-.
  replace (i + length s - length s - i) with 0 by lia.
  cbn [firstn]. rewrite newlinesIn_cons. unfold newlinesIn. cbn.
  destruct (Ascii.eqb c nl); lia.
Qed.

Lemma readString_line (tmpl tmpl' : Template) (s text : bytes) :
  readString tmpl s = RSFound tmpl' text ->
  curline tmpl'
  = curline tmpl + newlinesIn (firstn (S (length text - length s)) text).
Proof.
  unfold readString. destruct s as [|s0 s']; [discriminate|].
  destruct (readString_loop _ _ _ _) as [[e n]|] eqn:E; [|discriminate].
  intros Hf. injection Hf as <- <-. cbn [curline with_curline].
  pose proof (readString_loop_some _ _ _ _ _ _ E) as Hb.
  apply readString_loop_lines in E. rewrite E. cbn [Nat.add]. f_equal.
  f_equal. rewrite length_firstn, firstn_firstn. f_equal.
  cbn [length] in *. lia.
Qed.

Lemma readText_found (tmpl tmpl1 : Template) (tr : textReadingResult) :
  readText tmpl = RTText tmpl1 tr ->
  exists text, readString tmpl (otag tmpl) = RSFound tmpl1 text.
Proof.
  unfold readText. destruct (readString tmpl (otag tmpl)) as [t1 text| |];
    try discriminate.
  destruct (_ || _); intros E; injection E as <- _; now exists text.
Qed.

Lemma readString_det (tmpl : Template) (pre T rest : bytes) (s0 : ascii)
  (s' : bytes) :
  data tmpl = pre ++ T ++ s0 :: s' ++ rest ->
  p tmpl = length pre ->
  (forall c, In c T -> c <> s0) ->
  readString tmpl (s0 :: s')
  = RSFound (at_pos tmpl (length pre + length T + S (length s'))
               (curline tmpl + newlinesIn (T ++ [s0])))
      (T ++ s0 :: s').
Proof.
  intros Hd Hp HT.
  destruct (readString_at tmpl pre T rest s0 s' Hd Hp HT) as [l E].
  rewrite E. f_equal. f_equal.
  apply readString_line in E. cbn [curline at_pos with_curline] in E.
  rewrite E. f_equal. f_equal. rewrite length_app. cbn [length].
  replace (S (length T + S (length s') - S (length s')))
    with (length (T ++ [s0])) by (rewrite length_app; cbn [length]; lia).
  change (T ++ s0 :: s') with (T ++ [s0] ++ s').
  rewrite app_assoc. apply firstn_length_app.
Qed.

(** [readText] up to a tag: the line of the tag. *)
Lemma readText_tag_line (tmpl : Template) (pre T rest : bytes) :
  data tmpl = pre ++ T ++ str "{{" ++ rest ->
  p tmpl = length pre ->
  otag tmpl = str "{{" ->
  noBrace T = true ->
  exists tr,
    readText tmpl
    = RTText (at_pos tmpl (length pre + length T + 2)
                (curline tmpl + newlinesIn T)) tr
    /\ text tr ++ padding tr = T
    /\ (mayStandalone tr = true -> lineStartBefore (pre ++ T) = true)
    /\ (mayStandalone tr = false -> padding tr = []).
Proof.
  intros Hd Hp Ho HT.
  destruct (readText_tag tmpl pre T rest Hd Hp Ho HT)
    as (l & tr & E & Htext & Hms & Hpad).
  exists tr. split; [|now repeat split].
  rewrite E. f_equal.
  apply readText_found in E as [text E]. rewrite Ho in E.
  change (str "{{") with ("{"%char :: str "{") in E, Hd.
  rewrite (readString_det tmpl pre T rest "{"%char (str "{") Hd Hp
             (noBrace_In T HT)) in E.
  injection E as E _. cbn [str list_ascii_of_string length] in E.
  rewrite newlinesIn_app in E.
  change (newlinesIn ["{"%char]) with 0 in E. rewrite Nat.add_0_r in E.
  unfold at_pos in *. cbn [str list_ascii_of_string length].
  replace (length pre + length T + 2) with (length pre + length T + 2) in *
    by reflexivity.
  now rewrite <- E.
Qed.

(** ** [readTag] on every tag *)

Lemma findEow_blank (s : bytes) (i e : nat) :
  dropBlanks s = [] -> findEow s i e = e.
Proof.
  revert i. induction s as [|c s IH]; intros i; cbn [findEow dropBlanks];
    [reflexivity|].
  destruct (isBlank c); [cbn [negb]; apply IH|discriminate].
Qed.

Lemma findEow_dropBlanks (s r' : bytes) (c : ascii) (i e : nat) :
  dropBlanks s = c :: r' ->
  findEow s i e = i + (length s - length (c :: r'))
  /\ skipn (length s - length (c :: r')) s = c :: r'
  /\ length (c :: r') <= length s.
Proof.
  revert i. induction s as [|d s IH]; intros i; cbn [findEow dropBlanks];
    [discriminate|].
  destruct (isBlank d) eqn:Ed; cbn [negb].
  - intros E. destruct (IH (S i) E) as (Hf & Hs & Hl).
    rewrite Hf. cbn [length] in *.
    replace (S (length s) - S (length r')) with (S (length s - S (length r')))
      by lia.
    cbn [skipn]. repeat split; [lia|exact Hs|lia].
  - intros E. injection E as -> ->.
    rewrite Nat.sub_diag. cbn [skipn]. repeat split; lia.
Qed.

Lemma dropBlanks_not_blank (s r' : bytes) (c : ascii) :
  dropBlanks s = c :: r' -> isBlank c = false.
Proof.
  induction s as [|d s IH]; cbn [dropBlanks]; [discriminate|].
  destruct (isBlank d) eqn:Ed; [exact IH|].
  intros E. now injection E as -> _.
Qed.

(** The bytes that a standalone tag consumes are blanks and the bytes of
    a line end. *)
Lemma tagLineEnd_consumed (after : bytes) (k b : nat) :
  tagLineEnd after = Some (k, b) ->
  k <= length after
  /\ b <= 1
  /\ forall j, j < k -> nth j after zero <> "{"%char.
Proof.
  unfold tagLineEnd. destruct after as [|a0 after'].
  { intros E. injection E as <- <-. repeat split; [lia|lia|]. intros j Hj; lia. }
  set (after := a0 :: after'). cbv zeta.
  destruct (dropBlanks after) as [|c r'] eqn:Ed; [discriminate|].
  destruct (dropBlanks_spec after) as (k0 & Hk0 & Hs & Hb & Hm).
  rewrite Ed in Hs, Hm. destruct Hm as [Hc Hlt].
  assert (Hlen : length after - length (c :: r') = k0).
  { rewrite Hs, length_skipn. lia. }
  rewrite Hlen.
  assert (Hblank : forall j, j < k0 -> nth j after zero <> "{"%char).
  { intros j Hj E. specialize (Hb j Hj). rewrite E in Hb. discriminate Hb. }
  assert (Hnth : nth k0 after zero = c).
  { rewrite <- (Nat.add_0_r k0), <- nth_skipn, <- Hs. reflexivity. }
  destruct (Ascii.eqb c nl) eqn:Enl.
  - intros E. injection E as <- <-. repeat split; [lia|lia|].
    intros j Hj. destruct (Nat.eq_dec j k0) as [->|Hne].
    + rewrite Hnth. intros ->. discriminate Enl.
    + apply Hblank. lia.
  - destruct (Ascii.eqb c cr) eqn:Ecr; cbn [andb]; [|discriminate].
    destruct r' as [|d r'']; [discriminate|].
    destruct (Ascii.eqb d nl) eqn:Ednl; [|discriminate].
    intros E. injection E as <- <-.
    assert (Hl2 : S k0 < length after).
    { assert (Hl : length (c :: d :: r'') = length after - k0)
        by (rewrite Hs, length_skipn; reflexivity).
      cbn [length] in Hl. lia. }
    assert (Hnth1 : nth (S k0) after zero = d).
    { replace (S k0) with (k0 + 1) by lia.
      rewrite <- nth_skipn, <- Hs. reflexivity. }
    repeat split; [lia|lia|].
    intros j Hj. destruct (Nat.eq_dec j k0) as [->|Hne].
    + rewrite Hnth. intros ->. discriminate Ecr.
    + destruct (Nat.eq_dec j (S k0)) as [->|Hne1].
      * rewrite Hnth1. intros ->. discriminate Ednl.
      * apply Hblank. lia.
Qed.

(** [readTag] on a tag [c :: n] that is no raw variable: the tag is read
    as it is, and when it may stand alone, is of a kind that does, and its
    line ends after it, the rest of the line is consumed. *)
Lemma readTag_any (tmpl : Template) (pre n after : bytes) (c : ascii)
  (ms : bool) :
  data tmpl = pre ++ (c :: n) ++ str "}}" ++ after ->
  p tmpl = length pre ->
  ctag tmpl = str "}}" ->
  c <> "{"%char ->
  (forall x, In x (c :: n) -> x <> "}"%char) ->
  strings.TrimSpace (c :: n) = c :: n ->
  let q := length pre + S (length n) + 2 in
  let l := curline tmpl + newlinesIn (c :: n) in
  readTag tmpl ms
  = POk match (if ms && oneOf c "#^/<>=!" then tagLineEnd after else None)
        with
        | Some (k, b) =>
            (at_pos tmpl (q + k) (l + b), mkTagReadingResult (c :: n) true)
        | None =>
            (at_pos tmpl q l, mkTagReadingResult (c :: n) (negb ms))
        end.
Proof.
  intros Hd Hp Hc Hbrace Hclose Htrim q l.
  unfold readTag, readClose.
  assert (Hat : at_ (data tmpl) (p tmpl) = c).
  { rewrite Hd, Hp, <- (Nat.add_0_r (length pre)). apply at_app_right. }
  rewrite Hat. replace (Ascii.eqb c "{") with false
    by (symmetry; now apply Ascii.eqb_neq).
  rewrite andb_false_r, Hc.
  assert (Hd' : data tmpl = pre ++ (c :: n) ++ "}"%char :: str "}" ++ after)
    by exact Hd.
  change (str "}}") with ("}"%char :: str "}").
  rewrite (readString_det tmpl pre (c :: n) after "}"%char (str "}")
             Hd' Hp Hclose).
  rewrite newlinesIn_app. change (newlinesIn ["}"%char]) with 0.
  rewrite Nat.add_0_r. fold l.
  change (length pre + length (c :: n) + S (length (str "}"))) with q.
  set (tmpl1 := at_pos tmpl q l).
  change (ctag tmpl1) with (ctag tmpl). change (data tmpl1) with (data tmpl).
  change (p tmpl1) with q. change (curline tmpl1) with l.
  rewrite Hc. cbn [str list_ascii_of_string length].
  replace (firstn _ _) with (c :: n).
  2:{ rewrite length_app. cbn [length].
      replace (S (length n) + 2 - 2) with (length (c :: n))
        by (cbn [length]; lia).
      symmetry. apply firstn_length_app. }
  rewrite Htrim. cbn [length Nat.eqb].
  destruct ms; cbn [negb andb]; [|reflexivity].
  cbn [firstn]. rewrite Contains_single.
  change (strings.mem c SkipWhitespaceTagTypes) with (oneOf c "#^/<>=!").
  destruct (oneOf c "#^/<>=!") eqn:Eblock; cbn [negb]; [|reflexivity].
  assert (Hskip : skipn q (data tmpl) = after).
  { rewrite Hd. subst q.
    replace (length pre + S (length n) + 2)
      with (length (pre ++ (c :: n) ++ str "}}"))
      by (rewrite !length_app; cbn [str list_ascii_of_string length]; lia).
    replace (pre ++ (c :: n) ++ str "}}" ++ after)
      with ((pre ++ (c :: n) ++ str "}}") ++ after)
      by (now rewrite <- !app_assoc).
    apply skipn_length_app. }
  assert (Hlen : length (data tmpl) = q + length after).
  { rewrite Hd. subst q. rewrite !length_app.
    cbn [str list_ascii_of_string length app]. rewrite ?length_app. lia. }
  assert (Hnth : forall j, at_ (data tmpl) (q + j) = nth j after zero).
  { intros j. rewrite <- Hskip. symmetry. apply nth_skipn_at. }
  rewrite Hskip. unfold tagLineEnd.
  destruct after as [|a0 after'] eqn:Eafter.
  { cbn [findEow]. rewrite Hlen. cbn [length]. rewrite Nat.add_0_r.
    rewrite Nat.eqb_refl, !Nat.add_0_r. reflexivity. }
  rewrite <- Eafter in *. cbv zeta.
  destruct (dropBlanks after) as [|x r'] eqn:Ed.
  - rewrite (findEow_blank after q q Ed).
    assert (Hq : (q =? length (data tmpl)) = false)
      by (apply Nat.eqb_neq; rewrite Hlen, Eafter; cbn [length]; lia).
    assert (Hb0 : isBlank (at_ (data tmpl) q) = true).
    { rewrite <- (Nat.add_0_r q), Hnth, Eafter. cbn [nth].
      rewrite Eafter in Ed. cbn [dropBlanks] in Ed.
      destruct (isBlank a0); [reflexivity|discriminate]. }
    assert (Hn1 : Ascii.eqb (at_ (data tmpl) q) nl = false).
    { destruct (Ascii.eqb _ nl) eqn:E; [|reflexivity].
      apply Ascii.eqb_eq in E. rewrite E in Hb0. discriminate. }
    assert (Hn2 : Ascii.eqb (at_ (data tmpl) q) cr = false).
    { destruct (Ascii.eqb _ cr) eqn:E; [|reflexivity].
      apply Ascii.eqb_eq in E. rewrite E in Hb0. discriminate. }
    now rewrite Hq, Hn1, Hn2, !andb_false_r.
  - destruct (findEow_dropBlanks after r' x q q Ed) as (Hf & Hs & Hl).
    set (k0 := length after - length (x :: r')) in *.
    rewrite Hf.
    assert (Hk0 : k0 < length after) by (subst k0; cbn [length] in *; lia).
    assert (Hq : (q + k0 =? length (data tmpl)) = false)
      by (apply Nat.eqb_neq; lia).
    assert (Hlt : (q + k0 <? length (data tmpl)) = true)
      by (apply Nat.ltb_lt; lia).
    assert (Hx : at_ (data tmpl) (q + k0) = x).
    { rewrite Hnth, <- (Nat.add_0_r k0), <- nth_skipn, Hs. reflexivity. }
    rewrite Hq, Hlt, Hx. cbn [andb].
    destruct (Ascii.eqb x nl) eqn:Enl.
    + replace (q + (k0 + 1)) with (q + k0 + 1) by lia.
      replace (l + 1) with (S l) by lia. reflexivity.
    + destruct (Ascii.eqb x cr) eqn:Ecr; rewrite ?andb_false_r;
        cbn [andb]; [|reflexivity].
      destruct r' as [|d r''].
      * assert (Hend : (q + k0 + 1 <? length (data tmpl)) = false).
        { apply Nat.ltb_ge. subst k0. cbn [length] in *. lia. }
        now rewrite Hend.
      * assert (Hlt1 : (q + k0 + 1 <? length (data tmpl)) = true).
        { apply Nat.ltb_lt. subst k0. cbn [length] in *. lia. }
        assert (Hd1 : at_ (data tmpl) (q + k0 + 1) = d).
        { rewrite <- Nat.add_assoc, Hnth, <- nth_skipn, Hs. reflexivity. }
        rewrite Hlt1, Hd1. cbn [andb].
        destruct (Ascii.eqb d nl); [|reflexivity].
        replace (q + (k0 + 2)) with (q + k0 + 2) by lia.
        replace (l + 1) with (S l) by lia. reflexivity.
Qed.

(** ** [readText]: the text, the padding and the start of the line *)

Lemma dropBlanksRight_snoc (T : bytes) (c : ascii) :
  dropBlanksRight (T ++ [c])
  = if isBlank c then dropBlanksRight T else T ++ [c].
Proof.
  unfold dropBlanksRight. rewrite rev_app_distr. cbn [rev app dropBlanks].
  destruct (isBlank c); [reflexivity|].
  cbn [rev]. now rewrite rev_involutive.
Qed.

Lemma dropBlanksRight_prefix (T : bytes) :
  exists B, T = dropBlanksRight T ++ B
            /\ forallb isBlank B = true.
Proof.
  induction T as [|c T IH] using rev_ind.
  - now exists [].
  - rewrite dropBlanksRight_snoc. destruct (isBlank c) eqn:Ec.
    + destruct IH as (B & HT & HB). exists (B ++ [c]). split.
      * now rewrite app_assoc, <- HT.
      * rewrite forallb_app, HB. cbn. now rewrite Ec.
    + exists []. split; [now rewrite app_nil_r|reflexivity].
Qed.

Lemma scanBack_text (pre T rest : bytes) :
  scanBack (pre ++ T ++ rest) (length pre) (length pre + length T)
  = length pre + length (dropBlanksRight T).
Proof.
  revert rest. induction T as [|c T IH] using rev_ind; intros rest.
  - cbn [length app]. rewrite Nat.add_0_r.
    destruct (length pre) as [|i] eqn:El; [reflexivity|].
    cbn [scanBack]. now rewrite Nat.leb_refl.
  - rewrite length_app. cbn [length].
    replace (length pre + (length T + 1)) with (S (length pre + length T))
      by lia.
    cbn [scanBack].
    replace (S (length pre + length T) <=? length pre) with false
      by (symmetry; apply Nat.leb_gt; lia).
    assert (Hat : at_ (pre ++ (T ++ [c]) ++ rest) (length pre + length T)
                  = c).
    { rewrite <- app_assoc. cbn [app].
      replace (length pre + length T) with (length (pre ++ T))
        by apply length_app.
      rewrite app_assoc. apply at_middle. }
    rewrite Hat, dropBlanksRight_snoc.
    destruct (isBlank c); cbn [negb].
    + rewrite <- app_assoc. apply IH.
    + rewrite length_app. cbn [length]. lia.
Qed.

Lemma last_rev_head (s : bytes) (c : ascii) (r : bytes) :
  rev s = c :: r -> at_ s (length s - 1) = c.
Proof.
  intros E. assert (Hs : s = rev r ++ [c]).
  { rewrite <- (rev_involutive s), E. reflexivity. }
  rewrite Hs, length_app. cbn [length].
  replace (length (rev r) + 1 - 1) with (length (rev r)) by lia.
  apply at_middle.
Qed.

Lemma readText_exact (tmpl : Template) (pre T rest : bytes) :
  data tmpl = pre ++ T ++ str "{{" ++ rest ->
  p tmpl = length pre ->
  otag tmpl = str "{{" ->
  noBrace T = true ->
  readText tmpl
  = RTText (at_pos tmpl (length pre + length T + 2)
              (curline tmpl + newlinesIn T))
      (if startsLine pre T
       then mkTextReadingResult (dropBlanksRight T)
              (skipn (length (dropBlanksRight T)) T) true
       else mkTextReadingResult T [] false).
Proof.
  intros Hd Hp Ho HT.
  destruct (readText_tag_line tmpl pre T rest Hd Hp Ho HT)
    as (tr & E & _). rewrite E. f_equal.
  destruct (readText_found _ _ _ E) as [text0 Es].
  unfold readText in E. rewrite Es in E. clear Es.
  set (tmpl1 := at_pos tmpl _ _) in *.
  change (data tmpl1) with (data tmpl) in E.
  change (otag tmpl1) with (otag tmpl) in E. rewrite Hd, Hp, Ho in E.
  change (p tmpl1) with (length pre + length T + 2) in E.
  cbn [str list_ascii_of_string length app] in E.
  replace (length pre + length T + 2 - 2) with (length pre + length T)
    in E by lia.
  change (pre ++ T ++ "{"%char :: "{"%char :: rest)
    with (pre ++ T ++ str "{{" ++ rest) in E.
  rewrite scanBack_text in E.
  destruct (dropBlanksRight_prefix T) as (B & HB & Hblank).
  set (text := dropBlanksRight T) in *.
  assert (Hms : (length pre + length text =? 0)
                || Ascii.eqb (at_ (pre ++ T ++ str "{{" ++ rest)
                                (length pre + length text - 1)) nl
                = startsLine pre T).
  { unfold startsLine. fold (dropBlanksRight T).
    assert (Hrev : dropBlanks (rev T) = rev text)
      by (unfold text, dropBlanksRight; now rewrite rev_involutive).
    rewrite Hrev.
    destruct (rev text) as [|c r] eqn:Er.
    - assert (Ht : text = []).
      { rewrite <- (rev_involutive text), Er. reflexivity. }
      rewrite Ht. cbn [length]. rewrite Nat.add_0_r.
      destruct (rev pre) as [|c r] eqn:Ep.
      + assert (Hpre : pre = [])
          by (rewrite <- (rev_involutive pre), Ep; reflexivity).
        now rewrite Hpre.
      + assert (Hl : length pre = S (length r)).
        { rewrite <- length_rev, Ep. reflexivity. }
        replace (length pre =? 0) with false
          by (symmetry; apply Nat.eqb_neq; lia).
        cbn [orb]. rewrite at_app_left by lia.
        now rewrite (last_rev_head pre c r Ep).
    - assert (Hl : length text = S (length r)).
      { rewrite <- length_rev, Er. reflexivity. }
      replace (length pre + length text =? 0) with false
        by (symmetry; apply Nat.eqb_neq; lia).
      cbn [orb]. f_equal.
      rewrite HB at 1.
      replace (pre ++ (text ++ B) ++ str "{{" ++ rest)
        with ((pre ++ text) ++ B ++ str "{{" ++ rest)
        by (now rewrite <- !app_assoc).
      rewrite at_app_left by (rewrite length_app; lia).
      replace (length pre + length text - 1)
        with (length pre + (length text - 1)) by lia.
      rewrite at_app_right. now apply (last_rev_head text c r). }
  rewrite Hms in E.
  destruct (startsLine pre T); injection E as <-.
  - f_equal.
    + unfold sub.
      replace (length pre + length text - length pre) with (length text)
        by lia.
      rewrite skipn_length_app, HB. rewrite <- app_assoc.
      apply firstn_length_app.
    + unfold sub.
      replace (length pre + length T - (length pre + length text))
        with (length B)
        by (rewrite HB at 1; rewrite length_app; lia).
      rewrite HB at 1. rewrite <- !app_assoc, (app_assoc pre text).
      replace (length pre + length text) with (length (pre ++ text))
        by apply length_app.
      rewrite skipn_length_app, firstn_length_app.
      rewrite HB at 1. now rewrite skipn_length_app.
  - f_equal. unfold sub.
    replace (length pre + length T - length pre) with (length T) by lia.
    rewrite skipn_length_app. apply firstn_length_app.
Qed.

(** ** The errors of the compiler *)

Lemma occurs_longer (s d : bytes) (c : ascii) :
  occurs (c :: s) d -> occurs s d.
Proof. intros (pre & post & ->). now exists (pre ++ [c]), post; rewrite <- app_assoc. Qed.

Lemma readTag_EOF (tmpl : Template) (ms : bool) :
  ctag tmpl = str "}}" ->
  ~ occurs (str "}}") (skipn (p tmpl) (data tmpl)) ->
  readTag tmpl ms = PErr (newError (curline tmpl) ErrUnmatchedOpenTag).
Proof.
  intros Hc Hn. unfold readTag, readClose. rewrite Hc.
  destruct (_ && _).
  - rewrite readString_EOF; [reflexivity|discriminate|].
    intros Ho. apply Hn. now apply occurs_longer in Ho.
  - rewrite readString_EOF; [reflexivity|discriminate|exact Hn].
Qed.

(** [readTag_any] with the three cases in one. *)
Lemma readTag_norm (tmpl : Template) (pre n after : bytes) (c : ascii)
  (ms : bool) :
  data tmpl = pre ++ (c :: n) ++ str "}}" ++ after ->
  p tmpl = length pre ->
  ctag tmpl = str "}}" ->
  c <> "{"%char ->
  (forall x, In x (c :: n) -> x <> "}"%char) ->
  strings.TrimSpace (c :: n) = c :: n ->
  let alone := ms && oneOf c "#^/<>=!" in
  exists st,
    readTag tmpl ms
    = POk (at_pos tmpl
             (length pre + S (length n) + 2 + lineSkip alone after)
             (curline tmpl + newlinesIn (c :: n) + lineBump alone after),
           mkTagReadingResult (c :: n) st).
Proof.
  intros Hd Hp Hc Hbrace Hclose Htrim alone.
  rewrite (readTag_any tmpl pre n after c ms Hd Hp Hc Hbrace Hclose Htrim).
  unfold lineSkip, lineBump. fold alone.
  destruct (if alone then tagLineEnd after else None) as [[k b]|];
    eexists; [reflexivity|].
  now rewrite !Nat.add_0_r.
Qed.


Lemma lineSkip_le (b : bool) (after : bytes) :
  lineSkip b after <= length after
  /\ forall j, j < lineSkip b after -> nth j after zero <> "{"%char.
Proof.
  unfold lineSkip. destruct b; [|split; [lia|intros j Hj; lia]].
  destruct (tagLineEnd after) as [[k n]|] eqn:E;
    [|split; [lia|intros j Hj; lia]].
  apply tagLineEnd_consumed in E. tauto.
Qed.

Lemma mayStandalone_exact (pre T : bytes) :
  mayStandalone
    (if startsLine pre T
     then mkTextReadingResult (dropBlanksRight T)
            (skipn (length (dropBlanksRight T)) T) true
     else mkTextReadingResult T [] false)
  = startsLine pre T.
Proof. now destruct (startsLine pre T). Qed.

Section FirstTag.

Variable partials : PartialProvider.
Variable raw : bool.


(** X8. An open delimiter with no close delimiter after it: compilation
    fails with [unmatched_open_tag] on the line of the open delimiter. *)
Theorem unmatched_open_tag (T rest : bytes) :
  noBrace T = true ->
  ~ occurs (str "}}") rest ->
  ParseStringPartialsRaw (T ++ str "{{" ++ rest) partials raw
  = PErr (newError (1 + newlinesIn T) ErrUnmatchedOpenTag).
Proof.
  intros HT Hn. unfold ParseStringPartialsRaw, parseFuel. cbn [parse].
  fold (startTemplate partials raw (T ++ str "{{" ++ rest)).
  rewrite (readText_exact (startTemplate partials raw _) [] T rest eq_refl eq_refl eq_refl HT).
  set (tmpl1 := at_pos _ _ _). set (tr := if startsLine [] T then _ else _).
  rewrite (readTag_EOF (append tmpl1 [textElement (text tr)])
             (mayStandalone tr) eq_refl); [reflexivity|].
  change (skipn _ _)
    with (skipn (length T + 2) (T ++ str "{{" ++ rest)).
  replace (length T + 2) with (length (T ++ str "{{"))
    by (rewrite length_app; reflexivity).
  now rewrite app_assoc, skipn_length_app.
Qed.


Lemma isSpaceByte_width (c : ascii) (s : bytes) :
  isSpaceByte c = true -> strings.spaceWidth (c :: s) = 1.
Proof.
  unfold isSpaceByte. cbn [existsb]. intros E.
  repeat (apply orb_true_iff in E as [E|E];
          [apply Ascii.eqb_eq in E; subst c; reflexivity|]).
  discriminate E.
Qed.

Lemma TrimSpace_spaces (ws : bytes) :
  forallb isSpaceByte ws = true -> strings.TrimSpace ws = [].
Proof.
  intros Hws. unfold strings.TrimSpace, strings.TrimLeftSpace.
  assert (E : strings.trimWith strings.spaceWidth (length ws) ws = []).
  { induction ws as [|c ws IH]; [reflexivity|].
    cbn [forallb] in Hws. apply andb_true_iff in Hws as [Hc Hws].
    cbn [length strings.trimWith]. rewrite (isSpaceByte_width c ws Hc).
    cbn [skipn]. now apply IH. }
  now rewrite E.
Qed.

Lemma isSpaceByte_In (ws : bytes) :
  forallb isSpaceByte ws = true ->
  forall x, In x ws -> x <> "}"%char /\ x <> "{"%char.
Proof.
  intros Hws x Hx. rewrite forallb_forall in Hws. specialize (Hws x Hx).
  split; intros ->; discriminate Hws.
Qed.

(** X9. A tag that holds white space only: compilation fails with
    [empty_tag] on the line of the close delimiter. *)
Theorem empty_tag (T ws rest : bytes) :
  noBrace T = true ->
  forallb isSpaceByte ws = true ->
  ParseStringPartialsRaw (T ++ str "{{" ++ ws ++ str "}}" ++ rest)
    partials raw
  = PErr (newError (1 + newlinesIn T + newlinesIn ws) ErrEmptyTag).
Proof.
  intros HT Hws. unfold ParseStringPartialsRaw, parseFuel. cbn [parse].
  fold (startTemplate partials raw (T ++ str "{{" ++ ws ++ str "}}" ++ rest)).
  rewrite (readText_exact (startTemplate partials raw _) [] T (ws ++ str "}}" ++ rest)
             eq_refl eq_refl eq_refl HT).
  set (tmpl1 := at_pos _ _ _). set (tr := if startsLine [] T then _ else _).
  set (tmpl1' := append tmpl1 [textElement (text tr)]).
  assert (Hd : data tmpl1' = (T ++ str "{{") ++ ws ++ "}"%char :: str "}" ++ rest)
    by (cbn [data tmpl1' tmpl1 append with_elems at_pos with_curline with_p
               startTemplate]; now rewrite <- app_assoc).
  assert (Hp : p tmpl1' = length (T ++ str "{{"))
    by (rewrite length_app; reflexivity).
  pose proof (readString_det tmpl1' (T ++ str "{{") ws rest "}"%char
                (str "}") Hd Hp
                (fun x Hx => proj1 (isSpaceByte_In ws Hws x Hx))) as Hrs.
  unfold readTag, readClose.
  assert (Hat : Ascii.eqb (at_ (data tmpl1') (p tmpl1')) "{" = false).
  { rewrite Hd, Hp, <- (Nat.add_0_r (length (T ++ str "{{"))), at_app_right.
    destruct ws as [|w ws']; [reflexivity|]. cbn [app at_ nth].
    apply Ascii.eqb_neq.
    apply (isSpaceByte_In (w :: ws') Hws w). now left. }
  rewrite Hat, andb_false_r.
  change (ctag tmpl1') with ("}"%char :: str "}"). rewrite Hrs.
  cbn [ctag at_pos with_curline with_p].
  change (ctag tmpl1') with (str "}}").
  cbn [str list_ascii_of_string length].
  replace (firstn _ (ws ++ _)) with ws.
  2:{ rewrite length_app. cbn [length].
      replace (length ws + 2 - 2) with (length ws) by lia.
      symmetry. apply firstn_length_app. }
  rewrite (TrimSpace_spaces ws Hws). cbn [length Nat.eqb].
  cbn [curline at_pos with_curline with_p].
  rewrite newlinesIn_app. change (newlinesIn ["}"%char]) with 0.
  rewrite Nat.add_0_r. reflexivity.
Qed.

Lemma curline_append (tmpl : Template) (es : list element) :
  curline (append tmpl es) = curline tmpl.
Proof. reflexivity. Qed.

(** The first tag of a template, when it is no raw variable. *)
Lemma first_tag (T n after : bytes) (c : ascii) :
  noBrace T = true ->
  c <> "{"%char ->
  (forall x, In x (c :: n) -> x <> "}"%char) ->
  strings.TrimSpace (c :: n) = c :: n ->
  let d := T ++ str "{{" ++ (c :: n) ++ str "}}" ++ after in
  let alone := startsLine [] T && oneOf c "#^/<>=!" in
  exists tr st,
    readText (startTemplate partials raw d)
    = RTText (at_pos (startTemplate partials raw d) (length T + 2) (1 + newlinesIn T)) tr
    /\ readTag
         (append (at_pos (startTemplate partials raw d) (length T + 2) (1 + newlinesIn T))
            [textElement (text tr)])
         (mayStandalone tr)
       = POk (at_pos
                (append (at_pos (startTemplate partials raw d) (length T + 2) (1 + newlinesIn T))
                   [textElement (text tr)])
                (length T + 2 + S (length n) + 2 + lineSkip alone after)
                (1 + newlinesIn T + newlinesIn (c :: n)
                 + lineBump alone after),
              mkTagReadingResult (c :: n) st).
Proof.
  intros HT Hc Hclose Htrim d alone.
  rewrite (readText_exact (startTemplate partials raw d) [] T ((c :: n) ++ str "}}" ++ after)
             eq_refl eq_refl eq_refl HT).
  set (tr := if startsLine [] T then _ else _).
  exists tr. cbn [length Nat.add curline startTemplate].
  set (tmpl1 := append _ _).
  assert (Hd : data tmpl1 = (T ++ str "{{") ++ (c :: n) ++ str "}}" ++ after)
    by (subst d; cbn [data tmpl1 append with_elems at_pos with_curline
                        with_p startTemplate]; now rewrite <- app_assoc).
  assert (Hp : p tmpl1 = length (T ++ str "{{"))
    by (rewrite length_app; reflexivity).
  destruct (readTag_norm tmpl1 (T ++ str "{{") n after c (mayStandalone tr)
              Hd Hp eq_refl Hc Hclose Htrim) as [st E].
  exists st. split; [reflexivity|]. rewrite E.
  unfold tr at 1 2. rewrite mayStandalone_exact. fold alone.
  rewrite length_app. reflexivity.
Qed.


(** X11. The tag [{{=}}] makes the compiler panic: its body is the single
    equal sign, which is its own last character, and the slice
    [tag[1 : len(tag)-1]] is [tag[1:0]]. *)
Theorem lone_equal_sign_panics (T rest : bytes) :
  noBrace T = true ->
  ParseStringPartialsRaw (T ++ str "{{=}}" ++ rest) partials raw = PPanic.
Proof.
  intros HT.
  assert (Hclose : forall x, In x ["="%char] -> x <> "}"%char)
    by (intros x [<-|[]]; discriminate).
  destruct (first_tag T [] rest "="%char HT ltac:(discriminate) Hclose
              eq_refl) as (tr & st & Ht & Hg).
  unfold ParseStringPartialsRaw, parseFuel. cbn [parse].
  change (str "{{=}}" ++ rest)
    with (str "{{" ++ ["="%char] ++ str "}}" ++ rest).
  fold (startTemplate partials raw (T ++ str "{{" ++ ["="%char] ++ str "}}" ++ rest)).
  rewrite Ht, Hg. cbn [bindP tag standalone].
  change (oneOf "=" "!") with false. change (oneOf "=" "#^") with false.
  change (oneOf "=" "/") with false. change (oneOf "=" ">") with false.
  change (oneOf "=" "=") with true. cbv iota.
  destruct (negb st); reflexivity.
Qed.


Lemma noBrace_skipn (T : bytes) (k : nat) :
  noBrace T = true -> noBrace (skipn k T) = true.
Proof.
  intros HT. rewrite <- (firstn_skipn k T) in HT.
  rewrite noBrace_app in HT. now apply andb_true_iff in HT.
Qed.

Lemma skipn_past (A B : bytes) (k : nat) :
  skipn (length A + k) (A ++ B) = skipn k B.
Proof.
  rewrite skipn_app, skipn_all2 by lia.
  replace (length A + k - length A) with k by lia. reflexivity.
Qed.

(** Where the compiler stands after a tag and the end of its line. *)
Lemma position_after (tmpl : Template) (A B : bytes) (k : nat) :
  data tmpl = A ++ B -> p tmpl = length A + k -> k <= length B ->
  data tmpl = firstn (length A + k) (A ++ B) ++ skipn k B
  /\ p tmpl = length (firstn (length A + k) (A ++ B)).
Proof.
  intros Hd Hp Hk. split.
  - rewrite <- (skipn_past A B k), firstn_skipn. exact Hd.
  - rewrite length_firstn, length_app. lia.
Qed.

Lemma length_open (T n : bytes) (c : ascii) :
  length (T ++ str "{{" ++ (c :: n) ++ str "}}")
  = length T + 2 + S (length n) + 2.
Proof.
  rewrite !length_app. cbn [str list_ascii_of_string length]. lia.
Qed.







End FirstTag.

(** ** The compiler always returns *)

Lemma readText_advance (tmpl tmpl' : Template) (tr : textReadingResult) :
  readText tmpl = RTText tmpl' tr ->
  data tmpl' = data tmpl /\ p tmpl < p tmpl' <= length (data tmpl).
Proof.
  unfold readText. destruct (otag tmpl) as [|o os] eqn:Eo; [discriminate|].
  destruct (readString tmpl (o :: os)) as [tmpl1 text0|text0|] eqn:E;
    try discriminate.
  apply readString_found in E. destruct E as (Hd & _ & _ & _ & _ & Hp).
  cbn [length] in Hp. cbv zeta.
  destruct (_ || _); intros [= <- _]; split; try exact Hd; lia.
Qed.

Lemma findEow_ge (rest : bytes) (i : nat) :
  i <= findEow rest i i.
Proof.
  destruct (findEow_spec rest i i) as [[-> _]|(k & -> & _)]; lia.
Qed.

Lemma readTag_advance (tmpl tmpl' : Template) (ms : bool)
  (r : tagReadingResult) :
  readTag tmpl ms = POk (tmpl', r) ->
  data tmpl' = data tmpl /\ p tmpl <= p tmpl'.
Proof.
  unfold readTag.
  destruct (readClose tmpl) as [tmpl1 text0|text0|] eqn:E; try discriminate.
  assert (Hq : data tmpl1 = data tmpl /\ p tmpl <= p tmpl1).
  { unfold readClose in E. destruct (_ && _);
      apply readString_found in E; destruct E as (Hd & _ & _ & _ & _ & Hp);
      split; try exact Hd; lia. }
  destruct Hq as [Hd Hp]. cbv zeta.
  pose proof (findEow_ge (skipn (p tmpl1) (data tmpl1)) (p tmpl1)) as He.
  destruct (length _ =? 0); [discriminate|].
  destruct ms; [|intros [= <- _]; now split].
  destruct (negb _); [intros [= <- _]; now split|].
  destruct (_ =? _); [intros [= <- _]; cbn [data p with_p]; split; [exact Hd|lia]|].
  destruct (_ && _);
    [intros [= <- _]; cbn [data p with_p with_curline]; split; [exact Hd|lia]|].
  destruct (_ && _);
    [intros [= <- _]; cbn [data p with_p with_curline]; split; [exact Hd|lia]|].
  intros [= <- _]; now split.
Qed.

Lemma metaTag_position (tmpl tmpl' : Template) (tag : bytes) :
  metaTag tmpl tag = POk tmpl' ->
  data tmpl' = data tmpl /\ p tmpl' = p tmpl.
Proof.
  unfold metaTag. destruct (negb _); [discriminate|].
  destruct (ofSlice _) as [inner| | |]; cbn [bindP]; try discriminate.
  destruct (strings.SplitN2 _ _) as [|o [|c [|x l]]];
    intros [= <-]; now split.
Qed.

Lemma farther_trans (a b c : Template) :
  farther a b -> farther b c -> farther a c.
Proof.
  intros [H1 H2] [H3 H4]. split; [congruence|lia].
Qed.

Lemma farther_append (a b : Template) (es : list element) :
  farther a b -> farther a (append b es).
Proof. exact (fun H => H). Qed.

Lemma farther_padding (a b : Template) (c : bool) (es : list element) :
  farther a b -> farther a (if c then append b es else b).
Proof. now destruct c. Qed.

Lemma readTag_returns (tmpl : Template) (ms : bool) :
  readTag tmpl ms <> PFuel.
Proof.
  unfold readTag. destruct (readClose tmpl); try discriminate. cbv zeta.
  destruct (_ =? 0); [discriminate|].
  destruct ms; [|discriminate].
  destruct (negb _); [discriminate|]. destruct (_ =? _); [discriminate|].
  destruct (_ && _); [discriminate|]. destruct (_ && _); discriminate.
Qed.

Lemma metaTag_returns (tmpl : Template) (tag : bytes) :
  metaTag tmpl tag <> PFuel.
Proof.
  unfold metaTag. destruct (negb _); [discriminate|].
  destruct (ofSlice _) as [inner| | |] eqn:E; cbn [bindP]; try discriminate.
  - destruct (strings.SplitN2 _ _) as [|o [|c [|x l]]]; discriminate.
  - unfold ofSlice in E. destruct (slice _ _ _); discriminate.
Qed.

Lemma rawTag_returns (tag : bytes) : rawTag tag <> PFuel.
Proof.
  unfold rawTag. destruct (Ascii.eqb _ _); [|discriminate].
  destruct (ofSlice _) as [inner| | |] eqn:E; cbn [bindP]; try discriminate.
  unfold ofSlice in E. destruct (slice _ _ _); discriminate.
Qed.

(** A section ends at a position farther in the data. *)
Lemma parseSection_farther (fuel : nat) :
  forall tmpl name line acc tmpl' es,
    parseSection fuel tmpl name line acc = POk (tmpl', es) ->
    farther tmpl tmpl'.
Proof.
  induction fuel as [|fuel IH]; intros tmpl name line acc tmpl' es;
    [discriminate|].
  cbn [parseSection].
  destruct (readText tmpl) as [tmpl1 tr|tr|] eqn:Et; try discriminate.
  apply readText_advance in Et.
  assert (H1 : farther tmpl tmpl1) by (split; [tauto|lia]). clear Et.
  cbv zeta.
  destruct (readTag tmpl1 (mayStandalone tr)) as [[tmpl2 tg]| | |] eqn:Eg;
    cbn [bindP]; try discriminate.
  apply readTag_advance in Eg.
  assert (H2 : farther tmpl tmpl2) by (apply (farther_trans _ tmpl1); assumption).
  clear Eg H1.
  destruct (tag tg) as [|c rest]; [discriminate|].
  destruct (oneOf c "!"); [intros E; apply IH in E;
                           apply (farther_trans _ tmpl2); assumption|].
  destruct (oneOf c "#^").
  { destruct (parseSection fuel tmpl2 _ _ []) as [[tmpl3 es3]| | |] eqn:E3;
      cbn [bindP]; try discriminate.
    apply IH in E3. intros E; apply IH in E.
    apply (farther_trans _ tmpl2); [assumption|].
    apply (farther_trans _ tmpl3); assumption. }
  destruct (oneOf c "/").
  { destruct (negb _); [discriminate|]. now intros [= <- _]. }
  destruct (oneOf c ">"); [intros E; apply IH in E;
                           apply (farther_trans _ tmpl2); assumption|].
  destruct (oneOf c "=").
  { destruct (metaTag tmpl2 _) as [tmpl3| | |] eqn:E3; cbn [bindP];
      try discriminate.
    apply metaTag_position in E3. intros E; apply IH in E.
    apply (farther_trans _ tmpl2); [assumption|].
    apply (farther_trans _ tmpl3); [|assumption].
    destruct E3 as [E3a E3b]. split; [exact E3a|lia]. }
  destruct (oneOf c "{").
  { destruct (rawTag _) as [vs| | |]; cbn [bindP]; try discriminate.
    intros E; apply IH in E. apply (farther_trans _ tmpl2); assumption. }
  destruct (oneOf c "&"); intros E; apply IH in E;
    apply (farther_trans _ tmpl2); assumption.
Qed.

Lemma enough_farther (fuel : nat) (a b : Template) :
  fuelFor fuel a -> farther a b -> fuelFor fuel b.
Proof.
  unfold fuelFor. intros H [-> Hp]. lia.
Qed.

Lemma enough_next (fuel : nat) (tmpl tmpl1 tmpl2 : Template)
  (tr : textReadingResult) (ms : bool) (tg : tagReadingResult) :
  fuelFor (S fuel) tmpl ->
  readText tmpl = RTText tmpl1 tr ->
  readTag tmpl1 ms = POk (tmpl2, tg) ->
  fuelFor fuel tmpl2.
Proof.
  unfold fuelFor. intros H Et Eg.
  apply readText_advance in Et. apply readTag_advance in Eg.
  destruct Et as [Hd1 Hp1], Eg as [Hd2 Hp2]. rewrite Hd2, Hd1. lia.
Qed.

Lemma parseSection_enough (fuel : nat) :
  forall tmpl name line acc,
    fuelFor fuel tmpl -> parseSection fuel tmpl name line acc <> PFuel.
Proof.
  induction fuel as [|fuel IH]; intros tmpl name line acc Hf;
    [unfold fuelFor in Hf; lia|].
  cbn [parseSection].
  destruct (readText tmpl) as [tmpl1 tr|tr|] eqn:Et; try discriminate.
  cbv zeta.
  destruct (readTag tmpl1 (mayStandalone tr)) as [[tmpl2 tg]| | |] eqn:Eg;
    cbn [bindP]; try discriminate; try (now apply readTag_returns in Eg).
  pose proof (enough_next _ _ _ _ _ _ _ Hf Et Eg) as H2. clear Et Eg Hf.
  destruct (tag tg) as [|c rest]; [discriminate|].
  destruct (oneOf c "!"); [now apply IH|].
  destruct (oneOf c "#^").
  { destruct (parseSection fuel tmpl2 _ _ []) as [[tmpl3 es3]| | |] eqn:E3;
      cbn [bindP]; try discriminate.
    - apply IH. apply (enough_farther _ tmpl2); [assumption|].
      now apply parseSection_farther in E3.
    - now apply IH in E3. }
  destruct (oneOf c "/"); [destruct (negb _); discriminate|].
  destruct (oneOf c ">"); [now apply IH|].
  destruct (oneOf c "=").
  { destruct (metaTag tmpl2 _) as [tmpl3| | |] eqn:E3; cbn [bindP];
      try discriminate.
    - apply IH. apply metaTag_position in E3. unfold fuelFor in *.
      destruct E3 as [-> ->]. exact H2.
    - now apply metaTag_returns in E3. }
  destruct (oneOf c "{").
  { destruct (rawTag _) as [vs| | |] eqn:Er; cbn [bindP]; try discriminate.
    - now apply IH.
    - now apply rawTag_returns in Er. }
  destruct (oneOf c "&"); now apply IH.
Qed.

Lemma parse_enough (fuel : nat) :
  forall tmpl, fuelFor fuel tmpl -> parse fuel tmpl <> PFuel.
Proof.
  induction fuel as [|fuel IH]; intros tmpl Hf;
    [unfold fuelFor in Hf; lia|].
  cbn [parse].
  destruct (readText tmpl) as [tmpl1 tr|tr|] eqn:Et; try discriminate.
  cbv zeta.
  destruct (readTag _ (mayStandalone tr)) as [[tmpl2 tg]| | |] eqn:Eg;
    cbn [bindP]; try discriminate; try (now apply readTag_returns in Eg).
  assert (H2 : fuelFor fuel tmpl2).
  { apply readText_advance in Et. apply readTag_advance in Eg.
    unfold fuelFor in *. cbn [data p append with_elems] in Eg.
    destruct Et as [Hd1 Hp1], Eg as [Hd2 Hp2]. rewrite Hd2, Hd1. lia. }
  clear Et Eg Hf.
  assert (H2' : fuelFor fuel
                  (if negb (standalone tg)
                   then append tmpl2 [textElement (padding tr)] else tmpl2))
    by (now destruct (negb _)).
  set (tmplX := if negb (standalone tg) then _ else _) in *. clearbody tmplX.
  destruct (tag tg) as [|c rest]; [discriminate|].
  destruct (oneOf c "!"); [now apply IH|].
  destruct (oneOf c "#^").
  { destruct (parseSection fuel tmplX _ _ []) as [[tmpl3 es3]| | |] eqn:E3;
      cbn [bindP]; try discriminate.
    - apply IH. apply (enough_farther _ tmplX); [assumption|].
      now apply parseSection_farther in E3.
    - now apply parseSection_enough in E3. }
  destruct (oneOf c "/"); [discriminate|].
  destruct (oneOf c ">"); [now apply IH|].
  destruct (oneOf c "=").
  { destruct (metaTag tmplX _) as [tmpl3| | |] eqn:E3; cbn [bindP];
      try discriminate.
    - apply IH. apply metaTag_position in E3. unfold fuelFor in *.
      destruct E3 as [-> ->]. exact H2'.
    - now apply metaTag_returns in E3. }
  destruct (oneOf c "{").
  { destruct (rawTag _) as [vs| | |] eqn:Er; cbn [bindP]; try discriminate.
    - now apply IH.
    - now apply rawTag_returns in Er. }
  destruct (oneOf c "&"); now apply IH.
Qed.

(** X14. The compiler returns on every source: each turn of the loops of
    [parse] and [parseSection] moves the read position forward by the open
    delimiter at least, so the fuel of a byte per turn is never used up. *)
Theorem parse_returns (d : bytes) (partials : PartialProvider) :
  (forall forceRaw, ParseStringPartialsRaw d partials forceRaw <> PFuel)
  /\ (forall formatter,
        ParseStringPartialsWithFormatter d partials formatter <> PFuel).
Proof.
  split; intros x; apply parse_enough; unfold fuelFor, parseFuel;
    cbn [data p]; lia.
Qed.

(** ** Sources with one tag *)

Lemma dropBlanksRight_skipn (T : bytes) :
  dropBlanksRight T ++ skipn (length (dropBlanksRight T)) T = T.
Proof.
  destruct (dropBlanksRight_prefix T) as (B & HB & _).
  set (D := dropBlanksRight T) in *. clearbody D. subst T.
  rewrite skipn_app, skipn_all, Nat.sub_diag. reflexivity.
Qed.

Lemma tail_text (fuel : nat) (tmpl : Template) (pre rest : bytes) :
  data tmpl = pre ++ rest -> p tmpl = length pre ->
  otag tmpl = str "{{" -> noBrace rest = true ->
  parse (S fuel) tmpl = POk (append tmpl [textElement rest]).
Proof.
  intros Hd Hp Ho Hr. cbn [parse].
  now rewrite (readText_end tmpl pre rest Hd Hp Ho Hr).
Qed.

Section OneTag.

Variable partials : PartialProvider.
Variable raw : bool.


Lemma first_tag_exact (T n after : bytes) (c : ascii) :
  noBrace T = true ->
  c <> "{"%char ->
  (forall x, In x (c :: n) -> x <> "}"%char) ->
  strings.TrimSpace (c :: n) = c :: n ->
  let d := T ++ str "{{" ++ (c :: n) ++ str "}}" ++ after in
  let alone := startsLine [] T && oneOf c "#^/<>=!" in
  let tmpl1 := at_pos (startTemplate partials raw d) (length T + 2) (1 + newlinesIn T) in
  exists tr st,
    readText (startTemplate partials raw d) = RTText tmpl1 tr
    /\ readTag (append tmpl1 [textElement (text tr)]) (mayStandalone tr)
       = POk (at_pos (append tmpl1 [textElement (text tr)])
                (length T + 2 + S (length n) + 2 + lineSkip alone after)
                (1 + newlinesIn T + newlinesIn (c :: n)
                 + lineBump alone after),
              mkTagReadingResult (c :: n) st)
    /\ text tr ++ (if negb st then padding tr else [])
       = textBefore alone T after
    /\ padding tr
       = if startsLine [] T then skipn (length (dropBlanksRight T)) T else [].
Proof.
  intros HT Hc Hclose Htrim d alone tmpl1.
  pose proof (readText_exact (startTemplate partials raw d) [] T ((c :: n) ++ str "}}" ++ after)
                eq_refl eq_refl eq_refl HT) as Ht.
  set (tr := if startsLine [] T then _ else _) in Ht.
  cbn [length Nat.add curline startTemplate] in Ht.
  assert (Hd : data (append tmpl1 [textElement (text tr)])
               = (T ++ str "{{") ++ (c :: n) ++ str "}}" ++ after)
    by (subst d; cbn [data tmpl1 append with_elems at_pos with_curline
                        with_p startTemplate]; now rewrite <- app_assoc).
  assert (Hp : p (append tmpl1 [textElement (text tr)])
               = length (T ++ str "{{"))
    by (rewrite length_app; reflexivity).
  pose proof (readTag_any _ (T ++ str "{{") n after c (mayStandalone tr)
                Hd Hp eq_refl Hc Hclose Htrim) as Hg.
  cbv zeta in Hg. rewrite length_app in Hg.
  cbn [curline append with_elems tmpl1 at_pos with_curline with_p] in Hg.
  change (length (str "{{")) with 2 in Hg.
  assert (Hms : mayStandalone tr = startsLine [] T)
    by (subst tr; now destruct (startsLine [] T)).
  rewrite Hms in Hg. fold alone in Hg.
  unfold textBefore, lineSkip, lineBump.
  destruct (if alone then tagLineEnd after else None) as [[k b]|] eqn:Ea.
  - exists tr, true. rewrite Hms. repeat split; [exact Ht|exact Hg| |].
    + cbn [negb]. rewrite app_nil_r. subst tr.
      destruct (startsLine [] T) eqn:Es; [reflexivity|].
      subst alone. discriminate Ea.
    + subst tr. now destruct (startsLine [] T).
  - exists tr, (negb (startsLine [] T)). rewrite Hms.
    repeat split; [exact Ht| | |].
    + rewrite Hg, !Nat.add_0_r. reflexivity.
    + rewrite negb_involutive. subst tr.
      destruct (startsLine [] T); cbn [text padding];
        [apply dropBlanksRight_skipn|apply app_nil_r].
    + subst tr. now destruct (startsLine [] T).
Qed.


Lemma tagged_state (tmpl1 : Template) (tr : textReadingResult) (st : bool)
  (q L : nat) :
  let tmpl2 := at_pos (append tmpl1 [textElement (text tr)]) q L in
  let tmplX := if negb st then append tmpl2 [textElement (padding tr)]
               else tmpl2 in
  data tmplX = data tmpl1 /\ p tmplX = q /\ curline tmplX = L
  /\ otag tmplX = otag tmpl1 /\ ctag tmplX = ctag tmpl1
  /\ forceRaw tmplX = forceRaw tmpl1 /\ partial tmplX = partial tmpl1
  /\ escape tmplX = escape tmpl1 /\ formatter tmplX = formatter tmpl1
  /\ elems tmplX
     = elems tmpl1 ++ textElement (text tr)
         :: (if negb st then [textElement (padding tr)] else []).
Proof.
  cbv zeta. destruct (negb st); repeat split;
    cbn [elems append with_elems at_pos with_curline with_p];
    rewrite <- ?app_assoc, ?app_nil_r; reflexivity.
Qed.

Lemma renderElems_lead (H : Host) (allow : bool) (fuel : nat)
  (tmpl : Template) (a c : bytes) (b : bool) (es : list element)
  (cs : list value) (buf : bytes) :
  renderElems (renderElement H allow fuel) tmpl
    (textElement a :: (if b then [textElement c] else []) ++ es) cs buf
  = renderElems (renderElement H allow fuel) tmpl es cs
      (buf ++ a ++ (if b then c else [])).
Proof.
  rewrite renderElems_cons_text. destruct b; cbn [app].
  - now rewrite renderElems_cons_text, <- app_assoc.
  - now rewrite app_nil_r.
Qed.

Lemma source_length (T n after : bytes) (c : ascii) :
  length (T ++ str "{{" ++ (c :: n) ++ str "}}" ++ after)
  = S (S (length T + length n + 3 + length after)).
Proof.
  rewrite !length_app. cbn [str list_ascii_of_string length].
  rewrite ?length_app. cbn [length]. lia.
Qed.

(** The compiler after the first tag of the source, when that tag is no
    raw variable in braces: the text before the tag is stored, with or
    without the blanks of its line, and the read position is behind the
    tag, or behind the end of its line. *)
Lemma first_tag_step (T n after : bytes) (c : ascii) :
  noBrace T = true ->
  c <> "{"%char ->
  (forall x, In x (c :: n) -> x <> "}"%char) ->
  strings.TrimSpace (c :: n) = c :: n ->
  let d := T ++ str "{{" ++ (c :: n) ++ str "}}" ++ after in
  let alone := startsLine [] T && oneOf c "#^/<>=!" in
  exists tr st tmpl1 tmpl2 tmplX pre,
    readText (startTemplate partials raw d) = RTText tmpl1 tr
    /\ readTag (append tmpl1 [textElement (text tr)]) (mayStandalone tr)
       = POk (tmpl2, mkTagReadingResult (c :: n) st)
    /\ (if negb st then append tmpl2 [textElement (padding tr)] else tmpl2)
       = tmplX
    /\ data tmplX = pre ++ textAfter alone after
    /\ p tmplX = length pre
    /\ curline tmplX
       = 1 + newlinesIn T + newlinesIn (c :: n) + lineBump alone after
    /\ otag tmplX = str "{{" /\ ctag tmplX = str "}}"
    /\ forceRaw tmplX = raw /\ partial tmplX = partials
    /\ escape tmplX = HTMLEscapeString /\ formatter tmplX = None
    /\ elems tmplX
       = textElement (text tr)
           :: (if negb st then [textElement (padding tr)] else [])
    /\ text tr ++ (if negb st then padding tr else [])
       = textBefore alone T after
    /\ padding tr
       = if startsLine [] T then skipn (length (dropBlanksRight T)) T else [].
Proof.
  intros HT Hc Hclose Htrim d alone.
  destruct (first_tag_exact T n after c HT Hc Hclose Htrim)
    as (tr & st & Ht & Hg & Htext & Hpad).
  cbv zeta in Ht, Hg, Htext. fold d in Ht, Hg. fold alone in Hg, Htext.
  set (k := lineSkip alone after) in *.
  set (tmpl1 := at_pos (startTemplate partials raw d) _ _) in *.
  set (tmpl2 := at_pos (append tmpl1 _) _ _) in *.
  destruct (tagged_state tmpl1 tr st
              (length T + 2 + S (length n) + 2 + k)
              (1 + newlinesIn T + newlinesIn (c :: n) + lineBump alone after))
    as (HdX & HpX & HlX & HoX & HcX & HrX & HqX & HsX & HfX & HeX).
  cbv zeta in HdX, HpX, HlX, HoX, HcX, HrX, HqX, HsX, HfX, HeX.
  fold tmpl2 in HdX, HpX, HlX, HoX, HcX, HrX, HqX, HsX, HfX, HeX.
  set (tmplX := if negb st then append tmpl2 _ else tmpl2) in *.
  destruct (lineSkip_le alone after) as [Hk _]. fold k in Hk.
  assert (Hd2 : data tmplX
                = (T ++ str "{{" ++ (c :: n) ++ str "}}") ++ after)
    by (rewrite HdX; subst d; cbn [data tmpl1 at_pos with_curline with_p startTemplate];
        now rewrite <- !app_assoc).
  rewrite <- (length_open T n c) in HpX.
  destruct (position_after tmplX _ after k Hd2 HpX Hk) as [HdX' HpX'].
  exists tr, st, tmpl1, tmpl2, tmplX. eexists.
  repeat split; try eassumption; try reflexivity.
Qed.

(** X15. A comment writes nothing; when the comment tag stands alone on its
    line, the blanks before it and the end of the line after it are not
    written either. *)
Theorem comment_renders_nothing (H : Host) (allow : bool) (fuel : nat)
  (contextChain : list value) (T c rest : bytes) :
  noBrace T = true ->
  nameOk c = true ->
  noBrace rest = true ->
  exists tmpl,
    ParseStringPartialsRaw (T ++ str "{{!" ++ c ++ str "}}" ++ rest)
      partials raw
    = POk tmpl
    /\ Render H allow fuel tmpl contextChain
       = (textBefore (startsLine [] T) T rest
          ++ textAfter (startsLine [] T) rest, ROk).
Proof.
  intros HT Hc Hrest.
  destruct (nameOk_parts c Hc) as (_ & _ & Htrim).
  assert (Hclose : forall x, In x ("!"%char :: c) -> x <> "}"%char).
  { intros x [<-|Hx]; [discriminate|]. now apply (nameOk_In c Hc). }
  destruct (first_tag_step T c rest "!"%char HT ltac:(discriminate) Hclose
              (Htrim "!"%char eq_refl))
    as (tr & st & tmpl1 & tmpl2 & tmplX & pre & Ht & Hg & HX & Hd & Hp & _
        & Ho & _ & _ & _ & _ & _ & He & Htext & _).
  change (oneOf "!" "#^/<>=!") with true in Hd, Htext.
  rewrite andb_true_r in Hd, Htext.
  change (T ++ str "{{!" ++ c ++ str "}}" ++ rest)
    with (T ++ str "{{" ++ ("!"%char :: c) ++ str "}}" ++ rest).
  unfold ParseStringPartialsRaw, parseFuel. rewrite source_length.
  set (N := S (S (length T + length c + 3 + length rest))).
  cbn [parse]. fold (startTemplate partials raw (T ++ str "{{" ++ ("!"%char :: c) ++ str "}}" ++ rest)).
  rewrite Ht. cbv zeta. rewrite Hg. cbn [bindP tag standalone]. rewrite HX.
  change (oneOf "!" "!") with true. cbv iota. subst N.
  rewrite (tail_text _ tmplX _ _ Hd Hp Ho (noBrace_skipn rest _ Hrest)).
  eexists. split; [reflexivity|].
  unfold Render, renderTemplate. cbn [elems append with_elems].
  rewrite He. cbn [app]. rewrite renderElems_lead. cbn [renderElems].
  rewrite renderElement_text. cbn [app].
  now rewrite Htext.
Qed.


Lemma renderVar_valid (H : Host) (allow : bool) (tmpl : Template)
  (n : bytes) (r : bool) (contextChain : list value) (buf : bytes)
  (v : value) :
  lookup H contextChain None n = LRet v None ->
  IsValid v = true ->
  formatter tmpl = None ->
  renderVar H allow tmpl n r contextChain buf
  = (buf ++ (if r then Sprint H v else escape tmpl (Sprint H v)), ROk).
Proof.
  intros Hl Hv Hf. unfold renderVar, lookupAllowMissing.
  rewrite Hl, Hv, Hf. now destruct r.
Qed.

Lemma variable_tag_output (H : Host) (allow : bool) (fuel : nat)
  (contextChain : list value) (T n rest : bytes) (v : value) :
  noBrace T = true ->
  nameOk n = true ->
  noBrace rest = true ->
  lookup H contextChain None n = LRet v None ->
  IsValid v = true ->
  (plainName n = true ->
   exists tmpl,
     ParseStringPartialsRaw (T ++ str "{{" ++ n ++ str "}}" ++ rest)
       partials raw
     = POk tmpl
     /\ Render H allow fuel tmpl contextChain
        = (T ++ (if raw then Sprint H v
                 else HTMLEscapeString (Sprint H v)) ++ rest, ROk))
  /\ (exists tmpl,
        ParseStringPartialsRaw (T ++ str "{{&" ++ n ++ str "}}" ++ rest)
          partials raw
        = POk tmpl
        /\ Render H allow fuel tmpl contextChain
           = (T ++ Sprint H v ++ rest, ROk))
  /\ (exists tmpl,
        ParseStringPartialsRaw (T ++ str "{{{" ++ n ++ str "}}}" ++ rest)
          partials raw
        = POk tmpl
        /\ Render H allow fuel tmpl contextChain
           = (T ++ Sprint H v ++ rest, ROk)).
Proof.
  intros HT Hn Hrest Hl Hv.
  destruct (nameOk_parts n Hn) as (_ & Htrim0 & Htrim).
  pose proof (nameOk_In n Hn) as Hin.
  split; [|split].
  - intros Hplain. destruct n as [|c n']; [discriminate|].
    unfold plainName in Hplain. apply negb_true_iff in Hplain.
    destruct (plain_dispatch c Hplain)
      as (H1 & H2 & H3 & H4 & H5 & H6 & H7 & H8 & Hc).
    destruct (first_tag_step T n' rest c HT Hc Hin Htrim0)
      as (tr & st & tmpl1 & tmpl2 & tmplX & pre & Ht & Hg & HX & Hd & Hp & _
          & Ho & _ & Hr & _ & Hs & Hf & He & Htext & _).
    rewrite H8, andb_false_r in Hd, Htext.
    unfold ParseStringPartialsRaw, parseFuel. rewrite source_length.
    set (N := S (S (length T + length n' + 3 + length rest))).
    cbn [parse].
    fold (startTemplate partials raw (T ++ str "{{" ++ (c :: n') ++ str "}}" ++ rest)).
    rewrite Ht. cbv zeta. rewrite Hg. cbn [bindP tag standalone]. rewrite HX.
    rewrite H1, H2, H3, H4, H5, H6, H7. subst N.
    rewrite (tail_text _ (append tmplX _) _ _ Hd Hp Ho Hrest).
    eexists. split; [reflexivity|].
    unfold Render, renderTemplate. cbn [elems append with_elems].
    rewrite He, Hr. rewrite <- !app_assoc. cbn [app].
    rewrite renderElems_lead. cbn [app]. rewrite Htext. cbn [renderElems].
    rewrite renderElement_var.
    rewrite (renderVar_valid H allow _ _ raw contextChain _ v Hl Hv)
      by exact Hf.
    rewrite renderElement_text. cbn [escape append with_elems]. rewrite Hs.
    now rewrite <- app_assoc.
  - assert (Hclose : forall x, In x ("&"%char :: n) -> x <> "}"%char).
    { intros x [<-|Hx]; [discriminate|]. now apply Hin. }
    destruct (first_tag_step T n rest "&"%char HT ltac:(discriminate) Hclose
                (Htrim "&"%char eq_refl))
      as (tr & st & tmpl1 & tmpl2 & tmplX & pre & Ht & Hg & HX & Hd & Hp & _
          & Ho & _ & Hr & _ & Hs & Hf & He & Htext & _).
    change (oneOf "&" "#^/<>=!") with false in Hd, Htext.
    rewrite andb_false_r in Hd, Htext.
    change (T ++ str "{{&" ++ n ++ str "}}" ++ rest)
      with (T ++ str "{{" ++ ("&"%char :: n) ++ str "}}" ++ rest).
    unfold ParseStringPartialsRaw, parseFuel. rewrite source_length.
    set (N := S (S (length T + length n + 3 + length rest))).
    cbn [parse].
    fold (startTemplate partials raw (T ++ str "{{" ++ ("&"%char :: n) ++ str "}}" ++ rest)).
    rewrite Ht. cbv zeta. rewrite Hg. cbn [bindP tag standalone]. rewrite HX.
    change (oneOf "&" "!") with false. change (oneOf "&" "#^") with false.
    change (oneOf "&" "/") with false. change (oneOf "&" ">") with false.
    change (oneOf "&" "=") with false. change (oneOf "&" "{") with false.
    change (oneOf "&" "&") with true.
    cbv iota. subst N. rewrite Htrim0.
    rewrite (tail_text _ (append tmplX _) _ _ Hd Hp Ho Hrest).
    eexists. split; [reflexivity|].
    unfold Render, renderTemplate. cbn [elems append with_elems].
    rewrite He. rewrite <- !app_assoc. cbn [app].
    rewrite renderElems_lead. cbn [app]. rewrite Htext. cbn [renderElems].
    rewrite renderElement_var.
    rewrite (renderVar_valid H allow _ _ true contextChain _ v Hl Hv)
      by exact Hf.
    rewrite renderElement_text. now rewrite <- app_assoc.
  - set (d := T ++ str "{{{" ++ n ++ str "}}}" ++ rest).
    assert (Hd0 : data (startTemplate partials raw d)
                  = [] ++ T ++ str "{{" ++ ("{"%char :: n) ++ str "}}}" ++ rest)
      by reflexivity.
    destruct (read_raw_tag_top (startTemplate partials raw d) [] T n rest Hd0 eq_refl eq_refl
                eq_refl HT Hin)
      as (l1 & tr & Ht & Hg & Htext & Hpad).
    destruct (Hg [textElement (text tr)]) as [l2 Hg2]. clear Hg.
    cbn [length Nat.add] in Ht, Hg2.
    unfold ParseStringPartialsRaw, parseFuel.
    set (N := length d).
    assert (HN : N = S (N - 1)).
    { unfold N, d. rewrite !length_app. cbn [str list_ascii_of_string length].
      lia. }
    cbn [parse]. fold (startTemplate partials raw d). rewrite Ht. cbv zeta.
    change (append (at_pos (startTemplate partials raw d) (length T + 2) l1)
              [textElement (text tr)])
      with (with_elems (at_pos (startTemplate partials raw d) (length T + 2) l1)
              [textElement (text tr)]).
    rewrite Hg2. cbn [bindP tag standalone].
    change (oneOf "{" "!") with false. change (oneOf "{" "#^") with false.
    change (oneOf "{" "/") with false. change (oneOf "{" ">") with false.
    change (oneOf "{" "=") with false. change (oneOf "{" "{") with true.
    cbv iota.
    assert (Hraw : rawTag ("{"%char :: n ++ str "}")
                   = POk [varElement n true]).
    { unfold rawTag, lastByte.
      replace (at_ _ _) with "}"%char.
      2:{ change ("{"%char :: n ++ str "}")
            with (("{"%char :: n) ++ "}"%char :: []).
          rewrite length_app. cbn [length].
          replace (S (length n) + 1 - 1) with (length ("{"%char :: n))
            by (cbn [length]; lia).
          now rewrite at_middle. }
      cbn [Ascii.eqb Bool.eqb andb].
      change ("{"%char :: n ++ str "}") with (str "{" ++ n ++ str "}").
      replace (length (str "{" ++ n ++ str "}") - 1)
        with (length (str "{") + length n)
        by (rewrite !length_app; cbn [str list_ascii_of_string length]; lia).
      change 1 with (length (str "{")) at 1.
      rewrite slice_middle. cbn [ofSlice bindP]. now rewrite Htrim0. }
    rewrite Hraw. cbn [bindP].
    set (tmplX := if negb (negb (mayStandalone tr)) then _ else _).
    assert (HX : data tmplX = (T ++ str "{{{" ++ n ++ str "}}}") ++ rest
                 /\ p tmplX = length (T ++ str "{{{" ++ n ++ str "}}}")
                 /\ otag tmplX = str "{{" /\ formatter tmplX = None
                 /\ escape tmplX = HTMLEscapeString
                 /\ elems tmplX
                    = textElement (text tr)
                        :: (if mayStandalone tr
                            then [textElement (padding tr)] else [])).
    { subst tmplX. destruct (mayStandalone tr); cbn [negb];
        repeat split; try reflexivity;
        cbn [data p append with_elems at_pos with_curline with_p startTemplate];
        unfold d; rewrite <- ?app_assoc; try reflexivity;
        rewrite !length_app; cbn [str list_ascii_of_string length];
        rewrite ?length_app; cbn [length]; lia. }
    destruct HX as (HdX & HpX & HoX & HfX & HsX & HeX).
    rewrite HN.
    rewrite (tail_text _ (append tmplX _) _ rest HdX HpX HoX Hrest).
    eexists. split; [reflexivity|].
    unfold Render, renderTemplate. cbn [elems append with_elems].
    rewrite HeX. rewrite <- !app_assoc. cbn [app].
    rewrite renderElems_lead. cbn [app renderElems].
    rewrite renderElement_var.
    rewrite (renderVar_valid H allow _ _ true contextChain _ v Hl Hv)
      by exact HfX.
    rewrite renderElement_text.
    replace (text tr ++ (if mayStandalone tr then padding tr else []))
      with T.
    2:{ destruct (mayStandalone tr) eqn:Em; [now rewrite Htext|].
        rewrite <- Htext, (Hpad eq_refl). reflexivity. }
    now rewrite <- app_assoc.
Qed.





Lemma lastByte_last (c : ascii) (n : bytes) : lastByte (c :: n) = last n c.
Proof.
  unfold lastByte, at_. cbn [length].
  replace (S (length n) - 1) with (length n) by lia.
  revert c. induction n as [|x n IH]; intros c; [reflexivity|].
  change (nth (length (x :: n)) (c :: x :: n) zero)
    with (nth (length n) (x :: n) zero).
  rewrite IH.
  destruct n as [|y n]; [reflexivity|]. cbn [last].
  apply (last_default (y :: n)). discriminate.
Qed.

(** X19. A tag that starts with an equal sign and does not end with one:
    compilation fails with [invalid_meta_tag]. The line is that of the
    tag, or the next one when the tag stands alone on its line. *)
Theorem invalid_meta_tag (T n rest : bytes) :
  noBrace T = true ->
  nameOk n = true ->
  last n "="%char <> "="%char ->
  ParseStringPartialsRaw (T ++ str "{{=" ++ n ++ str "}}" ++ rest)
    partials raw
  = PErr (newError
            (1 + newlinesIn T + newlinesIn n
             + lineBump (startsLine [] T) rest)
            ErrInvalidMetaTag).
Proof.
  intros HT Hn Hlast.
  destruct (nameOk_parts n Hn) as (_ & _ & Htrim).
  assert (Hclose : forall x, In x ("="%char :: n) -> x <> "}"%char).
  { intros x [<-|Hx]; [discriminate|]. now apply (nameOk_In n Hn). }
  destruct (first_tag_step T n rest "="%char HT ltac:(discriminate) Hclose
              (Htrim "="%char eq_refl))
    as (tr & st & tmpl1 & tmpl2 & tmplX & pre & Ht & Hg & HX & _ & _ & Hl
        & _).
  change (oneOf "=" "#^/<>=!") with true in Hl.
  rewrite andb_true_r in Hl.
  change (T ++ str "{{=" ++ n ++ str "}}" ++ rest)
    with (T ++ str "{{" ++ ("="%char :: n) ++ str "}}" ++ rest).
  unfold ParseStringPartialsRaw, parseFuel. rewrite source_length.
  set (N := S (S (length T + length n + 3 + length rest))).
  cbn [parse].
  fold (startTemplate partials raw (T ++ str "{{" ++ ("="%char :: n) ++ str "}}" ++ rest)).
  rewrite Ht. cbv zeta. rewrite Hg. cbn [bindP tag standalone]. rewrite HX.
  change (oneOf "=" "!") with false. change (oneOf "=" "#^") with false.
  change (oneOf "=" "/") with false. change (oneOf "=" ">") with false.
  change (oneOf "=" "=") with true.
  cbv iota. unfold metaTag. rewrite lastByte_last.
  replace (Ascii.eqb (last n "="%char) "=") with false
    by (symmetry; now apply Ascii.eqb_neq).
  cbn [negb bindP]. rewrite Hl, newlinesIn_cons. reflexivity.
Qed.

End OneTag.

(** ** Tags *)






(** ** Lambdas *)

(** X21. A section whose value is a lambda, and whose children are well
    formed in the sense of the round trip ([wellFormedAll]: no partial,
    texts without open brace, names as tags can hold them, no section tag
    alone on its line in the serialized text), gives the lambda the
    serialized source of its children.  When the lambda answers what its
    callback renders of that text, the section writes what the children
    render against the same context stack, the lambda not being pushed on
    it, in a template compiled anew by [ParseString]: with the default
    escape function, without formatter and without [forceRaw], whatever
    the template of the section has. An error of the children comes back
    wrapped in the lambda's name, and nothing of what they wrote is kept. *)
Theorem lambda_section (H : Host) (allow : bool) (fuel : nat)
  (tmpl : Template) (name : bytes) (line : nat) (es : list element)
  (context : value) (contextChain : list value) (buf : bytes)
  (v : value) (f : fid) :
  lookup H (context :: contextChain) None name = LRet v None ->
  isEmpty v = false ->
  core (indirect v) = VFunc (Some f) 2 2 ->
  (forall text render, Lambda H f text render = render text) ->
  wellFormedAll [] es [] = true ->
  exists tmpl',
    ParseString H (serializeAll es) = POk tmpl'
    /\ escape tmpl' = HTMLEscapeString /\ formatter tmpl' = None
    /\ renderElement H allow (S fuel) tmpl
         (sectionElement name false line es) (context :: contextChain) buf
       = match renderElems (renderElement H allow fuel) tmpl' es
                 (context :: contextChain) [] with
         | (out, ROk) => (buf ++ out, ROk)
         | (_, RErr e) => (buf, RErr (ELambda name e))
         | (_, st) => (buf, st)
         end.
Proof.
  intros Hl Hne Hf Hid Hwf.
  assert (Hparse : exists tmpl',
             ParseString H (serializeAll es) = POk tmpl'
             /\ escape tmpl' = HTMLEscapeString /\ formatter tmpl' = None
             /\ forall cs b,
                  renderElems (renderElement H allow fuel) tmpl'
                    (elems tmpl') cs b
                  = renderElems (renderElement H allow fuel) tmpl' es cs b).
  { unfold ParseString, ParseStringPartialsRaw, parseFuel.
    set (tmpl0 := mkTemplate _ _ _ _ _ _ _ _ _ _).
    destruct (parse_serialized (size es) es (Nat.le_refl _)
                (S (length (serializeAll es))) tmpl0 [] [])
      as (tmpl' & es' & Hp & He & Hs & Hfm & Hnorm); try reflexivity.
    - pose proof (tagCount_length es _ _ Hwf). lia.
    - exact Hwf.
    - exists tmpl'. repeat split; try assumption.
      intros cs b. rewrite He. cbn [elems tmpl0 app].
      rewrite <- (renderElems_norm H allow fuel tmpl' es').
      rewrite Hnorm, norm_text, consText_nil.
      apply renderElems_norm. }
  destruct Hparse as (tmpl' & Hp & Hs & Hfm & Hr).
  exists tmpl'. repeat split; try assumption.
  rewrite renderElement_section. unfold renderSection, lookupAllowMissing.
  rewrite Hl, Hne. cbn [andb negb orb].
  unfold kind. rewrite Hf. cbn [Nat.eqb negb orb].
  rewrite (getSectionText_serialize es _ _ Hwf), Hid.
  unfold renderCallback. rewrite Hp.
  unfold reenterTemplate, renderTemplate. rewrite Hr.
  destruct (renderElems _ tmpl' es (context :: contextChain) [])
    as [out []]; reflexivity.
Qed.

(** ** Layouts *)

Lemma lookup_content (H : Host) (content : bytes) (context : list value) :
  numberLiteral H (str "content") = None ->
  lookup H (VMap (Some [(str "content", VString content)]) :: context) None
    (str "content")
  = LRet (VString content) None.
Proof.
  intros Hnum.
  now rewrite (lookup_map_top H (str "content") _ context eq_refl eq_refl Hnum).
Qed.

(** X22. In a layout the rendered template is the value of the name
    [content], before every context of the caller, whether or not one of
    them has that name: the tag with three braces writes it as it is, the
    plain tag writes it through [HTMLEscapeString]. *)
Theorem layout_content (H : Host) (allow : bool) (fuel : nat)
  (tmpl : Template) (context : list value) (content L1 L2 : bytes) :
  numberLiteral H (str "content") = None ->
  noBrace L1 = true ->
  noBrace L2 = true ->
  Render H allow fuel tmpl context = (content, ROk) ->
  (exists layout,
     ParseString H (L1 ++ str "{{{content}}}" ++ L2) = POk layout
     /\ RenderInLayout H allow fuel tmpl layout context
        = (L1 ++ content ++ L2, ROk))
  /\ (exists layout,
        ParseString H (L1 ++ str "{{content}}" ++ L2) = POk layout
        /\ RenderInLayout H allow fuel tmpl layout context
           = (L1 ++ HTMLEscapeString content ++ L2, ROk)).
Proof.
  intros Hnum H1 H2 Hr.
  destruct (variable_tag_output (defaultPartials H) false H allow fuel
              (VMap (Some [(str "content", VString content)]) :: context)
              L1 (str "content") L2 (VString content) H1 eq_refl H2
              (lookup_content H content context Hnum) eq_refl)
    as (Hplain & _ & Hraw).
  split.
  - destruct Hraw as (layout & Hp & Hl). exists layout. split; [exact Hp|].
    unfold RenderInLayout, FRenderInLayout. rewrite Hr. cbv zeta.
    unfold Render in Hl. now rewrite Hl.
  - destruct (Hplain eq_refl) as (layout & Hp & Hl). exists layout.
    split; [exact Hp|].
    unfold RenderInLayout, FRenderInLayout. rewrite Hr. cbv zeta.
    unfold Render in Hl. now rewrite Hl.
Qed.

(** ** Calls *)

Section Calls.

Variable H : Host.

Lemma lookupArgs_all (contextChain : list value) (v : value)
  (args : list bytes) (ins : list value) :
  Forall2 (fun arg val =>
             lookup H contextChain None (strings.TrimSpace arg)
             = LRet val None) args ins ->
  forall acc,
    lookupArgs (lookup H) contextChain v args acc = inr (acc ++ ins).
Proof.
  induction 1 as [|arg val args ins Harg _ IH]; intros acc;
    cbn [lookupArgs].
  - now rewrite app_nil_r.
  - rewrite Harg, IH, <- app_assoc. reflexivity.
Qed.

Lemma lookupFunctionChain_error (s : bytes) (numInputs : nat)
  (localChain : list value) (v : value) (e : error) :
  lookupFunctionChain s numInputs localChain = (v, Some e) ->
  v = VInvalid /\ e = EMissingFunction s.
Proof.
  induction localChain as [|ctx cs IH]; cbn [lookupFunctionChain].
  - intros [= <- <-]. now split.
  - destruct (lookupFunctionSteps s numInputs (derefsF s ctx));
      [discriminate|exact IH].
Qed.

(** The call arm of [lookup] on a name [fn(args)]. *)
Lemma call_shape (rec : list value -> option value -> bytes -> lresult)
  (contextChain : list value) (left : option value) (fn argsText : bytes) :
  strings.IndexAny fn (str ".[()") = None ->
  (forall x, In x argsText -> x <> ")"%char) ->
  lookupBody H rec contextChain left (fn ++ str "(" ++ argsText ++ str ")")
  = let args := match argsText with
                | [] => []
                | _ :: _ => strings.Split1 argsText ","%char
                end in
    match lookupFunction contextChain left fn (length args) with
    | (v, Some err) => BRet v (Some err)
    | (v, None) =>
        match core (unwrap v) with
        | VFunc f _ numOut =>
            match lookupArgs rec contextChain (unwrap v) args [] with
            | inl r => r
            | inr ins =>
                match f with
                | None => BPanic
                | Some f =>
                    match Call H f ins with
                    | CallPanic => BPanic
                    | CallRet ret0 err =>
                        match (if 1 <? numOut then err else None) with
                        | Some e => BRet (unwrap v) (Some e)
                        | None => BRet ret0 None
                        end
                    end
                end
            end
        | _ => BRet (unwrap v)
                 (invalidVariable (fn ++ str "(" ++ argsText ++ str ")"))
        end
    end.
Proof.
  intros Hfn Hargs.
  pose proof (proj1 (IndexAny_none _ _) Hfn) as Hall.
  assert (Hfn' : strings.IndexAny fn (str ".[(") = None).
  { apply IndexAny_none. intros x Hx. specialize (Hall x Hx).
    unfold strings.mem in *. cbn [str list_ascii_of_string existsb] in *.
    repeat (apply orb_false_iff in Hall as [? Hall]).
    repeat (apply orb_false_iff; split; try assumption). }
  set (name := fn ++ str "(" ++ argsText ++ str ")").
  assert (Eo : strings.Index name (str "(") = Some (length fn)).
  { apply Index_char. intros x Hx.
    apply (mem_not (str ".[()")); [now apply Hall|reflexivity]. }
  assert (Ec : strings.Index name (str ")")
               = Some (length (fn ++ str "(" ++ argsText))).
  { subst name.
    replace (fn ++ str "(" ++ argsText ++ str ")")
      with ((fn ++ str "(" ++ argsText) ++ ")"%char :: [])
      by (rewrite <- !app_assoc; reflexivity).
    apply (Index_char _ [] ")"%char). intros x Hx.
    apply in_app_or in Hx as [Hx|Hx].
    - apply (mem_not (str ".[()")); [now apply Hall|reflexivity].
    - destruct Hx as [<-|Hx]; [discriminate|now apply Hargs]. }
  assert (Ei : strings.IndexAny name (str ".[(") = Some (length fn))
    by exact (IndexAny_first fn (argsText ++ str ")") (str ".[(") "("%char
                Hfn' eq_refl).
  assert (Eat : at_ name (length fn) = "("%char)
    by exact (at_middle fn (argsText ++ str ")") "("%char).
  unfold lookupBody. rewrite Ei, Eat.
  unfold strings.Contains. rewrite Eo, Ec.
  change (strings.eqb ["("%char] (str ".")) with false.
  change (strings.eqb ["("%char] (str "[")) with false.
  change (strings.eqb ["("%char] (str "(")) with true.
  cbn [andb negb].
  unfold lookupCall. rewrite Eo, Ec.
  assert (Es : slice name (length fn + 1) (length (fn ++ str "(" ++ argsText))
               = Some argsText).
  { subst name.
    replace (fn ++ str "(" ++ argsText ++ str ")")
      with ((fn ++ str "(") ++ argsText ++ str ")")
      by (rewrite <- !app_assoc; reflexivity).
    replace (length fn + 1) with (length (fn ++ str "("))
      by (rewrite length_app; reflexivity).
    replace (length (fn ++ str "(" ++ argsText))
      with (length (fn ++ str "(") + length argsText)
      by (rewrite !length_app; cbn [str list_ascii_of_string length]; lia).
    apply slice_middle. }
  rewrite Es.
  assert (Er : skipn (length (fn ++ str "(" ++ argsText) + 1) name = []).
  { apply skipn_all2. subst name. rewrite !length_app.
    cbn [str list_ascii_of_string length]. lia. }
  rewrite Er. cbn [stripDot]. cbv zeta. fold (firstn (length fn) name).
  replace (firstn (length fn) name) with fn
    by (subst name; now rewrite firstn_length_app).
  reflexivity.
Qed.

(** X23. A call [fn(args)]: the function is looked up for the number of
    arguments between the parentheses, each argument is trimmed and
    resolved against the whole context stack, in order, and the function
    is called on the values; its first result is the value, unless it has
    a second result that is an error. *)
Theorem function_call (contextChain : list value) (left : option value)
  (fn argsText : bytes) (fv : value) (f : fid) (numIn numOut : nat)
  (ins : list value) (ret0 : value) (err : option error) :
  let args := match argsText with
              | [] => []
              | _ :: _ => strings.Split1 argsText ","%char
              end in
  strings.IndexAny fn (str ".[()") = None ->
  (forall x, In x argsText -> x <> ")"%char) ->
  lookupFunction contextChain left fn (length args) = (fv, None) ->
  core (unwrap fv) = VFunc (Some f) numIn numOut ->
  Forall2 (fun arg val =>
             lookup H contextChain None (strings.TrimSpace arg)
             = LRet val None) args ins ->
  Call H f ins = CallRet ret0 err ->
  lookup H contextChain left (fn ++ str "(" ++ argsText ++ str ")")
  = match (if 1 <? numOut then err else None) with
    | Some e => LRet (unwrap fv) (Some e)
    | None => LRet ret0 None
    end.
Proof.
  intros args Hfn Hargs Hf Hcore Hins Hcall.
  rewrite lookup_equation, (call_shape _ _ _ _ _ Hfn Hargs). cbv zeta.
  fold args. rewrite Hf, Hcore.
  rewrite (lookupArgs_all contextChain (unwrap fv) args ins Hins []).
  cbn [app]. rewrite Hcall.
  now destruct (if 1 <? numOut then err else None).
Qed.

(** X24. A call of a function that no context has fails with the error of a
    missing function, which is no missing variable: the setting that
    allows missing variables does not cover it. *)
Theorem missing_function (contextChain : list value) (fn argsText : bytes)
  (v : value) (e : error) (allow : bool) :
  let args := match argsText with
              | [] => []
              | _ :: _ => strings.Split1 argsText ","%char
              end in
  strings.IndexAny fn (str ".[()") = None ->
  (forall x, In x argsText -> x <> ")"%char) ->
  lookupFunction contextChain None fn (length args) = (v, Some e) ->
  lookupAllowMissing H contextChain (fn ++ str "(" ++ argsText ++ str ")")
    allow
  = LRet VInvalid (Some (EMissingFunction fn)).
Proof.
  intros args Hfn Hargs Hf.
  unfold lookupAllowMissing.
  rewrite lookup_equation, (call_shape _ _ _ _ _ Hfn Hargs). cbv zeta.
  fold args. rewrite Hf.
  apply lookupFunctionChain_error in Hf. destruct Hf as [-> ->].
  cbn [recovered IsMissingVariableError]. now rewrite andb_false_r.
Qed.

End Calls.

(** X25. The resolver returns on every name, with a value or an error: each
    of its recursive calls is on a strictly shorter name, so that the
    function is the one its source text defines, a panic inside it being
    recovered as the invalid value without error. *)
Theorem lookup_always_returns (H : Host) (contextChain : list value)
  (left : option value) (name : bytes) :
  (exists v err, lookup H contextChain left name = LRet v err)
  /\ lookup H contextChain left name
     = recovered (lookupBody H (lookup H) contextChain left name).
Proof.
  split; [apply lookup_returns|apply lookup_equation].
Qed.

(** ** Closed instances of the further properties *)


Lemma index_in_range_witness :
  lookup Example.host
    [VMap (Some [(str "xs", VSlice (Some [VInt 10; VInt 20]))])]
    None (str "xs[1]")
  = LRet (VInt 20) None.
Proof.
  apply (index_in_range Example.host
           [VMap (Some [(str "xs", VSlice (Some [VInt 10; VInt 20]))])]
           None "x"%char (str "s") (str "1")
           (VSlice (Some [VInt 10; VInt 20])) (VInt 1) (VInt 20) 1%Z);
    [reflexivity|no_char|reflexivity|reflexivity|now left|reflexivity
    |reflexivity].
Defined.

Lemma index_map_key_witness :
  lookup Example.host
    [VMap (Some [(str "m", VMap (Some [(str "k", VInt 5)]))])]
    None (str "m['k']")
  = LRet (VInt 5) None.
Proof.
  apply (index_map_key Example.host
           [VMap (Some [(str "m", VMap (Some [(str "k", VInt 5)]))])]
           None "m"%char [] (str "'k'") (str "k")
           (VMap (Some [(str "k", VInt 5)])) (VString (str "k"))
           [(str "k", VInt 5)]);
    [reflexivity|no_char|reflexivity|reflexivity|reflexivity|reflexivity].
Defined.

Lemma literals_ignore_contexts_witness :
  lookup Example.host [VMap (Some [(str "'hi'", VInt 1)])] None (str "'hi'")
  = LRet (VString (str "hi")) None.
Proof.
  apply (proj1 (literals_ignore_contexts Example.host
                  [VMap (Some [(str "'hi'", VInt 1)])] None)
           "'"%char (str "hi")); [now right|reflexivity].
Defined.

Lemma struct_context_fields_witness :
  lookup Example.host
    [VStruct [(str "Name", str "name,omitempty", VString (str "Ann"))]]
    None (str "name")
  = LRet (VString (str "Ann")) None.
Proof.
  apply (struct_context_fields Example.host (str "name")
           [(str "Name", str "name,omitempty", VString (str "Ann"))] []);
    reflexivity.
Defined.

Lemma map_context_scoping_witness :
  lookup Example.host
    [VMap (Some [(str "a", VInt 1)]); VMap (Some [(str "b", VInt 2)])]
    None (str "b")
  = LRet (VInt 2) None.
Proof.
  apply (proj1 (map_context_scoping Example.host (str "b")
                  [VMap (Some [(str "b", VInt 2)])]
                  eq_refl eq_refl eq_refl)
           [(str "a", VInt 1)]).
Defined.

Lemma unmatched_open_tag_witness :
  ParseStringPartialsRaw ((str "a" ++ [nl]) ++ str "{{" ++ str "b") 0 false
  = PErr (newError 2 ErrUnmatchedOpenTag).
Proof.
  apply (unmatched_open_tag 0 false (str "a" ++ [nl]) (str "b"));
    [reflexivity|intros Ho; apply occurs_Contains in Ho; vm_compute in Ho;
     discriminate Ho].
Defined.

Lemma empty_tag_witness :
  ParseStringPartialsRaw (str "x{{  }}y") 0 false
  = PErr (newError 1 ErrEmptyTag).
Proof.
  apply (empty_tag 0 false (str "x") (str "  ") (str "y")); reflexivity.
Defined.


Lemma lone_equal_sign_panics_witness :
  ParseStringPartialsRaw (str "{{=}}") 0 false = PPanic.
Proof.
  apply (lone_equal_sign_panics 0 false [] []); reflexivity.
Defined.



Lemma comment_renders_nothing_witness :
  exists tmpl,
    ParseStringPartialsRaw
      ((str "a" ++ [nl] ++ str "  ") ++ str "{{!" ++ str "note" ++ str "}}"
       ++ (nl :: str "b"))
      0 false
    = POk tmpl
    /\ Render Example.host true 0 tmpl [] = (str "a" ++ [nl] ++ str "b", ROk).
Proof.
  apply (comment_renders_nothing 0 false Example.host true 0 []
           (str "a" ++ [nl] ++ str "  ") (str "note") (nl :: str "b"));
    reflexivity.
Defined.




Lemma invalid_meta_tag_witness :
  ParseStringPartialsRaw (str "{{=x}}") 0 false
  = PErr (newError 1 ErrInvalidMetaTag).
Proof.
  apply (invalid_meta_tag 0 false [] (str "x") []);
    [reflexivity|reflexivity|discriminate].
Defined.


Lemma lambda_section_witness :
  exists tmpl',
    ParseString echoHost (str "hi") = POk tmpl'
    /\ escape tmpl' = HTMLEscapeString /\ formatter tmpl' = None
    /\ renderElement echoHost true 1 (startTemplate 0 true [])
         (sectionElement (str "fn") false 1 [textElement (str "hi")])
         [VMap (Some [(str "fn", VFunc (Some 0) 2 2)])] []
       = (str "hi", ROk).
Proof.
  apply (lambda_section echoHost true 0 (startTemplate 0 true []) (str "fn") 1
           [textElement (str "hi")]
           (VMap (Some [(str "fn", VFunc (Some 0) 2 2)])) [] []
           (VFunc (Some 0) 2 2) 0);
    [reflexivity|reflexivity|reflexivity|intros; reflexivity|reflexivity].
Defined.

Lemma layout_content_witness :
  (exists layout,
     ParseString Example.host (str "[{{{content}}}]") = POk layout
     /\ RenderInLayout Example.host true 0
          (with_elems (startTemplate 0 false []) [textElement (str "<i>")])
          layout [VMap (Some [(str "content", VInt 1)])]
        = (str "[<i>]", ROk))
  /\ (exists layout,
        ParseString Example.host (str "[{{content}}]") = POk layout
        /\ RenderInLayout Example.host true 0
             (with_elems (startTemplate 0 false []) [textElement (str "<i>")])
             layout [VMap (Some [(str "content", VInt 1)])]
           = (str "[&lt;i&gt;]", ROk)).
Proof.
  apply (layout_content Example.host true 0
           (with_elems (startTemplate 0 false []) [textElement (str "<i>")])
           [VMap (Some [(str "content", VInt 1)])] (str "<i>") (str "[")
           (str "]")); reflexivity.
Defined.

Lemma function_call_witness :
  lookup echoHost [VMap (Some [(str "f", VFunc (Some 0) 0 1)])] None
    (str "f()")
  = LRet (VString (str "called")) None.
Proof.
  apply (function_call echoHost
           [VMap (Some [(str "f", VFunc (Some 0) 0 1)])] None (str "f") []
           (VFunc (Some 0) 0 1) 0 0 1 [] (VString (str "called")) None);
    [reflexivity|no_char|reflexivity|reflexivity|constructor|reflexivity].
Defined.

Lemma missing_function_witness :
  lookupAllowMissing Example.host [VMap (Some [(str "x", VInt 1)])]
    (str "f()") true
  = LRet VInvalid (Some (EMissingFunction (str "f"))).
Proof.
  apply (missing_function Example.host [VMap (Some [(str "x", VInt 1)])]
           (str "f") [] VInvalid (EMissingFunction (str "f")) true);
    [reflexivity|no_char|reflexivity].
Defined.
